(** * The RabbitMQ stream gateway and the Keycloak admin client

    A shallow embedding of [RabbitMQ/RabbitMQStreams.py] (class
    [RabbitMQStreams]), of the retry loop of [auth/KeycloakAdmin.py]
    ([KeycloakAdmin._make_request_with_retry]), of the admin operations
    built on it and of the URLs of [auth/KeycloakConfig.py].

    The Python code is asynchronous and effectful.  Its effects are made
    explicit here:
    - the gateway object ([self]) is a record [world] holding the
      [streams_status] dictionary and the chronological list of the
      observable actions performed so far (broker calls, sleeps, log lines);
    - a coroutine that is awaited is a computation in the monad [M]
      (state plus Python exceptions);
    - the broker, which is outside the repository, is an oracle that maps
      the history of actions and the arguments of a call to its outcome;
    - the asynchronous generator [consume_messages] is a state machine whose
      states are its suspension points. *)

From Stdlib Require Import ZArith List Strings.Byte Strings.String Strings.Ascii.
From stdpp Require Import gmap list.
Import ListNotations.

Local Open Scope Z_scope.

(** ** Python values *)

(** A Python [str] is a sequence of Unicode code points. *)
Abbreviation str := (list N).
Abbreviation bytes := (list Byte.byte).

(** [str.isspace] on one code point: the characters CPython's
    [_PyUnicode_IsWhitespace] accepts; [str.strip()] removes exactly
    these. *)
Definition isspace (c : N) : bool :=
  ((9 <=? c) && (c <=? 13) || (28 <=? c) && (c <=? 32)
   || (c =? 133) || (c =? 160) || (c =? 5760)
   || (8192 <=? c) && (c <=? 8202)
   || (c =? 8232) || (c =? 8233) || (c =? 8239) || (c =? 8287)
   || (c =? 12288))%N.

Fixpoint lstrip (s : str) : str :=
  match s with
  | [] => []
  | c :: s' => if isspace c then lstrip s' else s
  end.

Definition rstrip (s : str) : str := rev (lstrip (rev s)).

(** [s.strip()] *)
Definition strip (s : str) : str := rstrip (lstrip s).

(** The code points of an ASCII literal, for concrete stream names. *)
Definition py (s : string) : str :=
  map (fun a => N.of_nat (Ascii.nat_of_ascii a)) (String.list_ascii_of_string s).

(** The exceptions the gateway distinguishes.  [CancelledError] and
    [GeneratorExit] derive from [BaseException] only, so a handler
    [except Exception] does not catch them; every other exception here is
    an [Exception]. *)
Inductive exn : Type :=
| ConnectionRefusedError
| StreamAlreadyExists
| StreamDoesNotExist
| KeyError (key : str)
| CancelledError
| GeneratorExit
| OtherException (tag : N)
| OtherBaseException (tag : N).

#[global] Instance exn_eq_dec : EqDecision exn.
Proof. solve_decision. Defined.

(** [isinstance(e, Exception)] *)
Definition is_Exception (e : exn) : bool :=
  match e with
  | CancelledError | GeneratorExit | OtherBaseException _ => false
  | _ => true
  end.

(** Two built-in exceptions, both [Exception]s. *)
Definition AttributeError : exn := OtherException 1.
Definition TypeError : exn := OtherException 2.

(** ** The gateway's state and observable actions *)

Inductive level : Type := DEBUG | INFO | WARNING | ERROR | EXCEPTION.

(** The log lines of [RabbitMQStreams], one constructor per format string. *)
Inductive log_msg : Type :=
| MsgRetryIn5 (room : str) (e : exn)
    (* "Connection refused when creating stream '{room}': {e}. Retrying in 5 seconds..." *)
| MsgCreated (room : str)                 (* "Stream '{room}' created" *)
| MsgAlreadyExists (room : str)           (* "Stream '{room}' already exists" *)
| MsgFailedAfter (attempts : Z) (room : str)
    (* "Failed to create '{room}' after {attempts} attempts, ..." *)
| MsgErrorCreating (room : str) (e : exn) (* "Error creating stream '{room}': {e}" *)
| MsgInitialized (channels : list str)    (* "Initialized streams: {channels}" *)
| MsgFailedStreams (failed : list str)    (* "Failed to create streams: {failed}" *)
| MsgSending (room : str)                 (* "Sending message to stream: {room}" *)
| MsgDoesNotExist (room : str)
    (* "Stream '{room}' does not exist. Re-initializing stream..." *)
| MsgErrorSending (e : exn)               (* "Error sending to stream: {e}" *)
| MsgErrorParsing                         (* "Error parsing message: {e}" *)
| MsgCancelled (e : exn)
    (* "Cancelled Error, user closed the connection : {e}" *)
| MsgErrorLoop (e : exn)                  (* "Error in message consumption loop: {e}" *)
| MsgErrorConsume (e : exn)               (* "Error in consume_messages: {e}" *)
| MsgInsideFinally                        (* "inside consume_message finally" *)
| MsgTryingClose                          (* "trying to close the consumer" *)
| MsgErrorClosing (e : exn).              (* "Error closing consumer: {e}" *)

Inductive event : Type :=
| Log (lvl : level) (msg : log_msg)
| Sleep (seconds : Z)                             (* asyncio.sleep *)
| ProducerCreateStream (room : str)               (* self.producer.create_stream *)
| ProducerSend (room : str) (payload : bytes)     (* self.producer.send *)
| ConsumerStart                                   (* consumer.start *)
| ConsumerSubscribe (room : str)                  (* consumer.subscribe, offset FIRST *)
| ConsumerClose.                                  (* consumer.close *)

#[global] Instance level_eq_dec : EqDecision level.
Proof. solve_decision. Defined.
#[global] Instance log_msg_eq_dec : EqDecision log_msg.
Proof. solve_decision. Defined.
#[global] Instance byte_eq_dec : EqDecision Byte.byte := Byte.byte_eq_dec.
#[global] Instance event_eq_dec : EqDecision event.
Proof. solve_decision. Defined.

(** The gateway object: the Registry [self.streams_status] and the actions
    performed so far, oldest first. *)
Record world : Type := World {
  streams_status : gmap str bool;
  events : list event
}.

(** The long-lived producer connection [self.producer], seen from outside:
    the outcome of a call ([None]: it returns, [Some e]: it raises [e]) may
    depend on everything that happened before it. *)
Record Producer : Type := {
  create_stream_outcome : list event -> str -> option exn;
  send_outcome : list event -> str -> bytes -> option exn
}.

(** ** Awaited coroutines: state and exceptions *)

Inductive result (A : Type) : Type :=
| Ret (a : A)
| Raise (e : exn).
Arguments Ret {A} a.
Arguments Raise {A} e.

Definition M (A : Type) : Type := world -> result A * world.

Definition ret {A} (a : A) : M A := fun w => (Ret a, w).
Definition raise {A} (e : exn) : M A := fun w => (Raise e, w).
Definition bind {A B} (c : M A) (k : A -> M B) : M B :=
  fun w => match c w with
           | (Ret a, w') => k a w'
           | (Raise e, w') => (Raise e, w')
           end.

(** [try: c except ...: handler]: the handler receives the exception and
    re-raises the ones no clause matches; an exception raised inside a
    handler leaves the statement. *)
Definition try_except {A} (c : M A) (handler : exn -> M A) : M A :=
  fun w => match c w with
           | (Ret a, w') => (Ret a, w')
           | (Raise e, w') => handler e w'
           end.

Declare Scope py_scope.
Delimit Scope py_scope with py.
Notation "x <- c ;; k" := (bind c (fun x => k))
  (at level 100, c at next level, right associativity) : py_scope.
Notation "c ;; k" := (bind c (fun _ => k))
  (at level 100, right associativity) : py_scope.
Local Open Scope py_scope.

Definition emit (ev : event) : M unit :=
  fun w => (Ret tt, World (streams_status w) (events w ++ [ev])).

Definition log (lvl : level) (msg : log_msg) : M unit := emit (Log lvl msg).

(** [await asyncio.sleep(seconds)] *)
Definition sleep (seconds : Z) : M unit := emit (Sleep seconds).

(** [self.streams_status[room] = b] *)
Definition set_status (room : str) (b : bool) : M unit :=
  fun w => (Ret tt, World (<[room := b]> (streams_status w)) (events w)).

(** [self.streams_status[room]] as an expression: [KeyError] on a missing key. *)
Definition get_status (room : str) : M bool :=
  fun w => match streams_status w !! room with
           | Some b => (Ret b, w)
           | None => (Raise (KeyError room), w)
           end.

(** What a call of an [async def] builds: calling it runs nothing, the body
    runs only when the coroutine object is awaited. *)
Inductive coroutine : Type :=
| Coro_create_stream (room : str) (retry count : Z).

(** An expression statement whose value is a coroutine object: the object is
    dropped, its body never runs. *)
Definition not_awaited (c : coroutine) : M unit := ret tt.

Section Gateway.

Variable producer : Producer.

(** The payload type ([chat_pb2.ChatMessage], generated code outside the
    repository) and its codec are parameters. *)
Variable ChatMessage : Type.
(** [message.SerializeToString()] *)
Variable SerializeToString : ChatMessage -> bytes + exn.

(** [await self.producer.create_stream(room)] *)
Definition producer_create_stream (room : str) : M unit :=
  fun w =>
    let w' := World (streams_status w) (events w ++ [ProducerCreateStream room]) in
    match create_stream_outcome producer (events w) room with
    | None => (Ret tt, w')
    | Some e => (Raise e, w')
    end.

(** [await self.producer.send(stream=room, message=payload, ...)] *)
Definition producer_send (room : str) (payload : bytes) : M unit :=
  fun w =>
    let w' := World (streams_status w) (events w ++ [ProducerSend room payload]) in
    match send_outcome producer (events w) room payload with
    | None => (Ret tt, w')
    | Some e => (Raise e, w')
    end.

(** [RabbitMQStreams.create_stream(self, room, retry=10, count=0)] *)
Definition create_stream (room : str) (retry count : Z) : M unit :=
  if retry <=? count then raise ConnectionRefusedError
  else if bool_decide (strip room <> []) then
    try_except (producer_create_stream room)
      (fun e =>
         match e with
         | ConnectionRefusedError =>
             log ERROR (MsgRetryIn5 room e) ;;
             sleep 5 ;;
             not_awaited (Coro_create_stream room retry (count + 1))
         | _ => raise e
         end)
  else ret tt.

(** The body of the [for room in channels] loop of [_init_streams];
    [failed] is the local list the loop appends to. *)
Definition init_stream (room : str) (failed : list str) : M (list str) :=
  try_except
    (create_stream room 10 0 ;;
     log INFO (MsgCreated room) ;;
     set_status room true ;;
     ret failed)
    (fun e =>
       match e with
       | StreamAlreadyExists =>
           log WARNING (MsgAlreadyExists room) ;;
           set_status room true ;;
           ret failed
       | ConnectionRefusedError =>
           log ERROR (MsgFailedAfter 10 room) ;;
           set_status room false ;;
           ret (failed ++ [room])
       | _ =>
           if is_Exception e then
             log EXCEPTION (MsgErrorCreating room e) ;;
             set_status room false ;;
             ret (failed ++ [room])
           else raise e
       end).

Fixpoint init_loop (channels : list str) (failed : list str) : M (list str) :=
  match channels with
  | [] => ret failed
  | room :: rest =>
      failed' <- init_stream room failed ;;
      init_loop rest failed'
  end.

(** [RabbitMQStreams._init_streams(self, channels)] *)
Definition _init_streams (channels : list str) : M (list str) :=
  failed <- (match channels with
             | [] => ret []
             | _ => init_loop channels []
             end) ;;
  log INFO (MsgInitialized channels) ;;
  (match failed with
   | [] => ret tt
   | _ => log WARNING (MsgFailedStreams failed)
   end) ;;
  ret channels.

(** [RabbitMQStreams.send_to_stream(self, room, message)] *)
Definition send_to_stream (room : str) (message : ChatMessage) : M unit :=
  try_except
    (log DEBUG (MsgSending room) ;;
     payload <- (match SerializeToString message with
                 | inl b => ret b
                 | inr e => raise e
                 end) ;;
     producer_send room payload)
    (fun e =>
       match e with
       | StreamDoesNotExist =>
           _ <- get_status room ;;
           log ERROR (MsgDoesNotExist room) ;;
           try_except
             (create_stream room 5 0 ;;
              log INFO (MsgCreated room) ;;
              set_status room true)
             (fun e' =>
                match e' with
                | ConnectionRefusedError => log ERROR (MsgFailedAfter 5 room)
                | _ =>
                    if is_Exception e' then log EXCEPTION (MsgErrorCreating room e')
                    else raise e'
                end)
       | _ =>
           if is_Exception e then log EXCEPTION (MsgErrorSending e) ;; raise e
           else raise e
       end).

End Gateway.

(** ** The consume path: [consume_messages] as a state machine *)

(** [asyncio.Queue]: a FIFO with a capacity; [maxsize <= 0] means that the
    capacity is infinite. *)
Record Queue (A : Type) : Type := MkQueue {
  maxsize : Z;
  items : list A
}.
Arguments MkQueue {A} maxsize items.
Arguments maxsize {A} q.
Arguments items {A} q.

(** [Queue(maxsize=0)] *)
Definition Queue_new {A} (maxsize : Z) : Queue A := MkQueue maxsize [].

(** [Queue.full()] *)
Definition full {A} (q : Queue A) : bool :=
  if maxsize q <=? 0 then false
  else maxsize q <=? Z.of_nat (length (items q)).

(** [Queue.put_nowait(x)], defined when the queue is not full; [put]
    suspends its caller as long as the queue is full. *)
Definition put_nowait {A} (q : Queue A) (x : A) : option (Queue A) :=
  if full q then None else Some (MkQueue (maxsize q) (items q ++ [x])).

(** [Queue.get_nowait()], defined when the queue is not empty. *)
Definition get_nowait {A} (q : Queue A) : option (A * Queue A) :=
  match items q with
  | [] => None
  | x :: rest => Some (x, MkQueue (maxsize q) rest)
  end.

(** The dedicated consumer connection, seen from outside: what its
    constructor and its three calls do ([None]: return, [Some e]: raise). *)
Record ConsumerConn : Type := {
  Consumer_outcome : option exn;
  start_outcome : option exn;
  subscribe_outcome : option exn;
  close_outcome : option exn
}.

(** Where the asynchronous generator stands. *)
Inductive phase : Type :=
| NotStarted                   (* created, body not entered yet *)
| AwaitingGet                  (* suspended in [await messages.get()] *)
| AtYield                      (* suspended at [yield msg] *)
| Finished (r : result unit).  (* the body was left: it returned or raised *)

(** What the environment does to one [consume_messages(room)] generator:
    the caller asks for the next message; the broker invokes the callback
    with the raw bytes of a message; an exception is raised at the point
    where the generator is suspended (a task cancellation raises
    [CancelledError], [aclose()] raises [GeneratorExit], [athrow(e)]
    raises [e]).  While a pull is pending in [messages.get()] the
    interpreter refuses [athrow] and [aclose] (their caller gets a
    [RuntimeError] and the generator is not touched): there only the
    cancellation of the pulling task raises an exception. *)
Inductive consume_event : Type :=
| Anext
| Deliver (msg : bytes)
| Throw (e : exn).

Section Consume.

Variable ChatMessage : Type.
(** [chat_pb2.ChatMessage().ParseFromString(msg)]: [None] when the
    decoder raises. *)
Variable ParseFromString : bytes -> option ChatMessage.
Variable conn : ConsumerConn.

Record generator : Type := Generator {
  gen_phase : phase;
  consumer : bool;                    (* the local [consumer] is not None *)
  messages : Queue ChatMessage;       (* the local [messages] *)
  blocked_puts : list ChatMessage;    (* callbacks suspended in [messages.put] *)
  yielded : list ChatMessage;         (* what the caller received, oldest first *)
  gw : world                          (* the gateway object [self] *)
}.

(** [consume_messages(room)] just called: nothing has run. *)
Definition consume_messages (w : world) : generator :=
  Generator NotStarted false (Queue_new 0) [] [] w.

Definition gen_emit (ev : event) (g : generator) : generator :=
  Generator (gen_phase g) (consumer g) (messages g) (blocked_puts g) (yielded g)
    (World (streams_status (gw g)) (events (gw g) ++ [ev])).

Definition set_phase (p : phase) (g : generator) : generator :=
  Generator p (consumer g) (messages g) (blocked_puts g) (yielded g) (gw g).

(** The [finally] clause, entered with the pending outcome [r] of the
    [try] statement. *)
Definition finally_clause (r : result unit) (g : generator) : generator :=
  let g := gen_emit (Log DEBUG MsgInsideFinally) g in
  if consumer g then
    let g := gen_emit (Log DEBUG MsgTryingClose) g in
    let g := gen_emit ConsumerClose g in
    match close_outcome conn with
    | None => set_phase (Finished r) g
    | Some e =>
        if is_Exception e then
          set_phase (Finished r) (gen_emit (Log EXCEPTION (MsgErrorClosing e)) g)
        else set_phase (Finished (Raise e)) g
    end
  else set_phase (Finished r) g.

(** An exception leaves the body of the outer [try]:
    [except Exception as e: log; raise], then [finally]. *)
Definition outer_except (e : exn) (g : generator) : generator :=
  if is_Exception e then
    finally_clause (Raise e) (gen_emit (Log EXCEPTION (MsgErrorConsume e)) g)
  else finally_clause (Raise e) g.

(** An exception is raised inside the inner [try] (at the [get] or at the
    [yield]). *)
Definition inner_except (e : exn) (g : generator) : generator :=
  match e with
  | CancelledError => finally_clause (Ret tt) (gen_emit (Log ERROR (MsgCancelled e)) g)
  | _ =>
      if is_Exception e then
        finally_clause (Ret tt) (gen_emit (Log EXCEPTION (MsgErrorLoop e)) g)
      else outer_except e g
  end.

(** One blocked [put] resumes when the queue has room. *)
Definition wake_putter (g : generator) : generator :=
  match blocked_puts g with
  | [] => g
  | m :: rest =>
      match put_nowait (messages g) m with
      | Some q => Generator (gen_phase g) (consumer g) q rest (yielded g) (gw g)
      | None => g
      end
  end.

(** [msg = await messages.get(); yield msg] *)
Definition get_and_yield (g : generator) : generator :=
  match get_nowait (messages g) with
  | Some (m, q) =>
      wake_putter
        (Generator AtYield (consumer g) q (blocked_puts g) (yielded g ++ [m]) (gw g))
  | None => set_phase AwaitingGet g
  end.

(** The body up to the loop: the consumer is built, started and
    subscribed with the callback. *)
Definition open_subscription (room : str) (g : generator) : generator :=
  match Consumer_outcome conn with
  | Some e => outer_except e g
  | None =>
      let g := Generator (gen_phase g) true (Queue_new 0) [] (yielded g) (gw g) in
      let g := gen_emit ConsumerStart g in
      match start_outcome conn with
      | Some e => outer_except e g
      | None =>
          let g := gen_emit (ConsumerSubscribe room) g in
          match subscribe_outcome conn with
          | Some e => outer_except e g
          | None => get_and_yield g
          end
      end
  end.

(** The callback [on_message(msg, message_context)]. *)
Definition on_message (msg : bytes) (g : generator) : generator :=
  match ParseFromString msg with
  | None => gen_emit (Log EXCEPTION MsgErrorParsing) g
  | Some message =>
      match put_nowait (messages g) message with
      | Some q =>
          Generator (gen_phase g) (consumer g) q (blocked_puts g) (yielded g) (gw g)
      | None =>
          Generator (gen_phase g) (consumer g) (messages g)
            (blocked_puts g ++ [message]) (yielded g) (gw g)
      end
  end.

Definition consume_step (room : str) (g : generator) (ev : consume_event) : generator :=
  match gen_phase g, ev with
  | NotStarted, Anext => open_subscription room g
  | NotStarted, Throw e => set_phase (Finished (Raise e)) g
  | AtYield, Anext => get_and_yield g
  | AwaitingGet, Deliver msg =>
      let g := on_message msg g in
      match items (messages g) with
      | [] => g
      | _ => get_and_yield g
      end
  | AtYield, Deliver msg => on_message msg g
  | AwaitingGet, Throw CancelledError => inner_except CancelledError g
  | AtYield, Throw e => inner_except e g
  | _, _ => g
  end.

Definition consume_run (room : str) (g : generator) (tr : list consume_event) : generator :=
  fold_left (consume_step room) tr g.

(** The raw messages the broker delivered, in order. *)
Definition deliveries (tr : list consume_event) : list bytes :=
  omap (fun ev => match ev with Deliver b => Some b | _ => None end) tr.

End Consume.

Arguments gen_phase {ChatMessage} g.
Arguments consumer {ChatMessage} g.
Arguments messages {ChatMessage} g.
Arguments blocked_puts {ChatMessage} g.
Arguments yielded {ChatMessage} g.
Arguments gw {ChatMessage} g.

(** ** The identity-provider admin client: [_make_request_with_retry] *)

Module KeycloakAdmin.

(** The error codes of [utility/localization/messages/Errors.py] that the
    retry loop raises inside a [BusinessException]. *)
Inductive ErrorCode : Type :=
| AUTH_SERVER_UNAVAILABLE
| AUTH_TOKEN_EXPIRED
| USER_NOT_FOUND
| UNEXPECTED_ERROR.

(** What the body of the [try] of one attempt does (token, request,
    [raise_for_status]): it returns the dict, or it raises. *)
Inductive attempt_outcome : Type :=
| Response (status : Z)               (* the dict is returned *)
| ClientResponseError (status : Z)    (* an aiohttp.ClientResponseError *)
| ClientConnectionError               (* an aiohttp.ClientConnectionError *)
| ClientError                         (* another aiohttp.ClientError *)
| Unhandled (e : exn).                (* any other exception *)

Inductive kc_result : Type :=
| Returned (status : Z)
| BusinessException (code : ErrorCode)
| Propagated (e : exn).

Inductive kc_event : Type :=
| Request (attempt : Z)
| KLog (lvl : level)
| ClearTokenCache
| KSleep (seconds : Z).    (* await asyncio.sleep(seconds), in the second clause *)

Section Retry.

(** [self.max_retries] ([3] after [__init__]). *)
Variable max_retries : Z.
(** ['user' in url.lower()] *)
Variable url_has_user : bool.
(** The outcome of the attempt numbered [attempt]. *)
Variable attempt_result : Z -> attempt_outcome.

(** The statements after the [for] loop. *)
Definition all_retries_failed (tr : list kc_event) : kc_result * list kc_event :=
  (BusinessException AUTH_SERVER_UNAVAILABLE, tr ++ [KLog ERROR]).

(** The second clause of the [try],
    [except (aiohttp.ClientConnectionError, aiohttp.ClientTimeout)], is
    reached by every exception that is not a [ClientResponseError].
    [aiohttp.ClientTimeout] is a settings class, not an exception class,
    and matching an exception against a tuple that holds such a class
    raises [TypeError] before any comparison.  The [TypeError] leaves the
    [try] statement and the loop: the bodies of the second and third
    clause (the sleep of [self.retry_delay * 2 ** attempt] seconds and
    [BusinessException(AUTH_SERVER_UNAVAILABLE)]) are never run. *)
Definition invalid_except_clause (tr : list kc_event) : kc_result * list kc_event :=
  (Propagated TypeError, tr).

(** [for attempt in range(self.max_retries)]: [todo] iterations are
    left, the next one is numbered [attempt]. *)
Fixpoint retry_loop (todo : nat) (attempt : Z) (tr : list kc_event)
  : kc_result * list kc_event :=
  match todo with
  | O => all_retries_failed tr
  | S todo' =>
      let tr := tr ++ [Request attempt] in
      match attempt_result attempt with
      | Response status => (Returned status, tr)
      | ClientResponseError status =>
          let tr := tr ++ [KLog ERROR] in
          if (status =? 401) || (status =? 403) then
            if attempt <? max_retries - 1 then
              retry_loop todo' (attempt + 1) (tr ++ [KLog WARNING; ClearTokenCache])
            else (BusinessException AUTH_TOKEN_EXPIRED, tr ++ [KLog ERROR])
          else if status =? 404 then
            if url_has_user then (BusinessException USER_NOT_FOUND, tr ++ [KLog ERROR])
            else (BusinessException UNEXPECTED_ERROR, tr ++ [KLog ERROR; KLog ERROR])
          else if 500 <=? status then
            (BusinessException AUTH_SERVER_UNAVAILABLE, tr ++ [KLog ERROR])
          else (BusinessException UNEXPECTED_ERROR, tr ++ [KLog ERROR])
      | ClientConnectionError | ClientError | Unhandled _ => invalid_except_clause tr
      end
  end.

(** [KeycloakAdmin._make_request_with_retry(self, method, url, **kwargs)] *)
Definition _make_request_with_retry : kc_result * list kc_event :=
  retry_loop (Z.to_nat max_retries) 0 [].

End Retry.

(** The delays of the sleeps of a run, in order. *)
Definition kc_sleeps (tr : list kc_event) : list Z :=
  omap (fun ev => match ev with KSleep d => Some d | _ => None end) tr.

End KeycloakAdmin.

(** ** The identity-provider configuration: [auth/KeycloakConfig.py] *)

Module KeycloakConfig.

(** The attributes set by [__init__]. *)
Record t : Type := Config {
  keycloak_url : str;
  realm : str;
  client_id : str;
  client_secret : str
}.

(** [os.getenv(name, default)] *)
Definition getenv (environ : gmap str str) (name default : str) : str :=
  match environ !! name with
  | Some value => value
  | None => default
  end.

(** [KeycloakConfig.__init__] *)
Definition init (environ : gmap str str) : t :=
  Config (getenv environ (py "KEYCLOAK_URL") (py "http://localhost:8080"))
         (getenv environ (py "KEYCLOAK_REALM") (py "my-realm"))
         (getenv environ (py "KEYCLOAK_CLIENT_ID") (py "your-client-id"))
         (getenv environ (py "KEYCLOAK_CLIENT_SECRET") (py "your-client-secret")).

(** A replacement field [{x}] of an f-string, for an argument that is a
    [str] or [None]. *)
Definition field (x : option str) : str :=
  match x with
  | Some s => s
  | None => py "None"
  end.

Section Urls.

Variable self : t.

Definition jwks_url : str :=
  keycloak_url self ++ py "/realms/" ++ realm self ++ py "/protocol/openid-connect/certs".

Definition realm_roles_url : str :=
  keycloak_url self ++ py "/admin/realms/" ++ realm self ++ py "/roles".

Definition token_url : str :=
  keycloak_url self ++ py "/realms/" ++ realm self ++ py "/protocol/openid-connect/token".

Definition available_client_user_role_url (user_id : str) (client : option str) : str :=
  keycloak_url self ++ py "/admin/realms/" ++ realm self ++ py "/users/" ++ user_id ++
  py "/role-mappings/clients/" ++ field client ++ py "/available".

Definition client_role_mapping_url (user_id : str) (client : option str) : str :=
  keycloak_url self ++ py "/admin/realms/" ++ realm self ++ py "/users/" ++ user_id ++
  py "/role-mappings/clients/" ++ field client.

Definition user_url (user_id : str) : str :=
  keycloak_url self ++ py "/admin/realms/" ++ realm self ++ py "/users/" ++ user_id.

Definition realm_role_url (role_name : str) : str :=
  keycloak_url self ++ py "/admin/realms/" ++ realm self ++ py "/roles/" ++ role_name.

Definition realm_role_mapping_url (user_id : str) : str :=
  keycloak_url self ++ py "/admin/realms/" ++ realm self ++ py "/users/" ++ user_id ++
  py "/role-mappings/realm".

Definition client_roles_url (client : option str) : str :=
  keycloak_url self ++ py "/admin/realms/" ++ realm self ++ py "/clients/" ++ field client ++
  py "/roles".

Definition client_role_detail_url (client : option str) (role_name : str) : str :=
  keycloak_url self ++ py "/admin/realms/" ++ realm self ++ py "/clients/" ++ field client ++
  py "/roles/" ++ role_name.

End Urls.

End KeycloakConfig.

(** ** The admin operations of [auth/KeycloakAdmin.py] *)

Module Admin.

(** A JSON value as [response.json()] returns it (numbers: the integers). *)
Inductive json : Type :=
| JNull
| JBool (b : bool)
| JInt (n : Z)
| JStr (s : str)
| JList (l : list json)
| JDict (d : list (str * json)).

(** A [dict] with [str] keys, in insertion order. *)
Fixpoint dict_get (d : list (str * json)) (key : str) : option json :=
  match d with
  | [] => None
  | (k, v) :: d' => if decide (k = key) then Some v else dict_get d' key
  end.

(** [d[key] = value]: an existing key keeps its place. *)
Fixpoint dict_set (d : list (str * json)) (key : str) (value : json) : list (str * json) :=
  match d with
  | [] => [(key, value)]
  | (k, v) :: d' =>
      if decide (k = key) then (key, value) :: d' else (k, v) :: dict_set d' key value
  end.

(** [bool(x)] *)
Definition truthy (x : json) : bool :=
  match x with
  | JNull => false
  | JBool b => b
  | JInt n => negb (n =? 0)
  | JStr s => match s with [] => false | _ => true end
  | JList l => match l with [] => false | _ => true end
  | JDict d => match d with [] => false | _ => true end
  end.

(** The error codes [KeycloakAdmin.py] imports. *)
Inductive ErrorCode : Type :=
| AUTH_SERVER_UNAVAILABLE
| AUTH_TOKEN_EXPIRED
| USER_NOT_FOUND
| UNEXPECTED_ERROR
| ROLE_REVOCATION_FAILED.

(** What is raised: a [BusinessException] with its error code and the
    [error_id] it was given, or another exception. *)
Inductive raised : Type :=
| BusinessException (code : ErrorCode) (error_id : option str)
| Other (e : exn).

Inductive completion (A : Type) : Type :=
| Returns (a : A)
| Raises (x : raised).
Arguments Returns {A} a.
Arguments Raises {A} x.

Inductive http_method : Type := GET | POST | PUT | DELETE.

(** The dict [_make_request_with_retry] returns: ['status'] and ['data']
    ([None] when the response is not JSON). *)
Record response : Type := Response {
  status : Z;
  data : json
}.

Inductive admin_event : Type :=
| Requested (method : http_method) (url : str) (body : option json)
    (* await self._make_request_with_retry(method, url, json=body) *)
| Logged (lvl : level)
| Uuid1.                       (* uuid.uuid1() *)

(** What is outside: what a call of [_make_request_with_retry] ends with
    (it returns the response, raises a [BusinessException] or raises the
    [TypeError] of its second [except] clause), and the identifiers
    [uuid.uuid1()] gives, both after the events so far. *)
Record Server : Type := {
  respond : list admin_event -> http_method -> str -> option json -> completion response;
  uuid1 : list admin_event -> str
}.

Definition op (T : Type) : Type := list admin_event -> completion T * list admin_event.

Definition pure {T} (x : T) : op T := fun tr => (Returns x, tr).
Definition throw {T} (x : raised) : op T := fun tr => (Raises x, tr).
Definition andthen {T U} (c : op T) (k : T -> op U) : op U :=
  fun tr => match c tr with
            | (Returns x, tr') => k x tr'
            | (Raises e, tr') => (Raises e, tr')
            end.

Notation "x <- c ;;; k" := (andthen c (fun x => k))
  (at level 100, c at next level, right associativity).
Notation "c ;;; k" := (andthen c (fun _ => k))
  (at level 100, right associativity).

Definition logged (lvl : level) : op unit := fun tr => (Returns tt, tr ++ [Logged lvl]).

(** [x.get(key, default)] *)
Definition get (x : json) (key : str) (default : json) : op json :=
  match x with
  | JDict d => pure (match dict_get d key with Some v => v | None => default end)
  | _ => throw (Other AttributeError)
  end.

(** [x[key] = value], giving the updated [x] *)
Definition setitem (x : json) (key : str) (value : json) : op json :=
  match x with
  | JDict d => pure (JDict (dict_set d key value))
  | _ => throw (Other TypeError)
  end.

Section Operations.

Variable server : Server.
Variable config : KeycloakConfig.t.

(** [await self._make_request_with_retry(method, url, json=body)] *)
Definition request (method : http_method) (url : str) (body : option json) : op response :=
  fun tr => (respond server tr method url body, tr ++ [Requested method url body]).

(** The handlers every operation ends with:
    [except BusinessException: raise] and
    [except Exception as e: error_id = str(uuid.uuid1()); log;
     raise BusinessException(UNEXPECTED_ERROR, error_id=error_id)]. *)
Definition guarded {T} (body : op T) : op T :=
  fun tr =>
    match body tr with
    | (Returns x, tr') => (Returns x, tr')
    | (Raises (BusinessException code error_id), tr') =>
        (Raises (BusinessException code error_id), tr')
    | (Raises (Other e), tr') =>
        if is_Exception e then
          (Raises (BusinessException UNEXPECTED_ERROR (Some (uuid1 server tr'))),
           tr' ++ [Uuid1; Logged EXCEPTION])
        else (Raises (Other e), tr')
    end.

(** [if resp['status'] not in accepted: log; raise BusinessException(code)]
    and then [log; return True] *)
Definition expect (accepted : list Z) (code : ErrorCode) (resp : response) : op bool :=
  if bool_decide (status resp ∈ accepted) then logged INFO ;;; pure true
  else logged ERROR ;;; throw (BusinessException code None).

(** [add_user_uuidv7_attribute(self, user_id, uuidv7)] *)
Definition add_user_uuidv7_attribute (user_id uuidv7 : str) : op bool :=
  guarded
    (logged INFO ;;;
     let user_url := KeycloakConfig.user_url config user_id in
     resp <- request GET user_url None ;;;
     let user := data resp in
     attributes <- get user (py "attributes") (JDict []) ;;;
     attributes <- setitem attributes (py "our_uuidv7") (JList [JStr uuidv7]) ;;;
     user <- setitem user (py "attributes") attributes ;;;
     put_resp <- request PUT user_url (Some user) ;;;
     expect [204] UNEXPECTED_ERROR put_resp).

(** [payload[key] = value] when the argument is not [None] *)
Definition set_if_given (payload : list (str * json)) (key : str) (value : option str)
  : list (str * json) :=
  match value with
  | Some s => dict_set payload key (JStr s)
  | None => payload
  end.

(** [update_user_info(self, user_id, first_name, last_name, email, phone_number)] *)
Definition update_user_info (user_id : str)
  (first_name last_name email phone_number : option str) : op bool :=
  guarded
    (logged INFO ;;;
     let user_url := KeycloakConfig.user_url config user_id in
     resp <- request GET user_url None ;;;
     let user := data resp in
     let payload := [] in
     let payload := set_if_given payload (py "firstName") first_name in
     let payload := set_if_given payload (py "lastName") last_name in
     let payload := set_if_given payload (py "email") email in
     attributes <- get user (py "attributes") (JDict []) ;;;
     payload <- match phone_number with
                | Some phone =>
                    attributes <- setitem attributes (py "phone_number")
                                    (JList [JStr phone]) ;;;
                    pure (dict_set payload (py "attributes") attributes)
                | None =>
                    if truthy attributes
                    then pure (dict_set payload (py "attributes") attributes)
                    else pure payload
                end ;;;
     match payload with
     | [] => logged WARNING ;;; pure true
     | _ =>
         put_resp <- request PUT user_url (Some (JDict payload)) ;;;
         expect [204] UNEXPECTED_ERROR put_resp
     end).

(** [assign_role_to_user(self, user_id, role_name, client_id=None)] *)
Definition assign_role_to_user (user_id role_name : str) (client : option str) : op bool :=
  guarded
    (logged INFO ;;;
     let urls :=
       match client with
       | None => (KeycloakConfig.realm_role_url config role_name,
                  KeycloakConfig.realm_role_mapping_url config user_id)
       | Some _ => (KeycloakConfig.client_role_detail_url config client role_name,
                    KeycloakConfig.client_role_mapping_url config user_id client)
       end in
     role_resp <- request GET (fst urls) None ;;;
     let role := data role_resp in
     role_assign_resp <- request POST (snd urls) (Some (JList [role])) ;;;
     expect [200; 204] UNEXPECTED_ERROR role_assign_resp).

(** [revoke_role_from_user(self, user_id, role_id, client_id=None)] *)
Definition revoke_role_from_user (user_id : str) (role_id : Z) (client : option str) : op bool :=
  guarded
    (logged INFO ;;;
     role_revoke_resp <-
       request DELETE (KeycloakConfig.client_role_mapping_url config user_id client)
         (Some (JList [JInt role_id])) ;;;
     expect [200; 204] ROLE_REVOCATION_FAILED role_revoke_resp).

(** [delete_user_from_keycloak(self, user_id)] *)
Definition delete_user_from_keycloak (user_id : str) : op bool :=
  guarded
    (logged INFO ;;;
     delete_resp <- request DELETE (KeycloakConfig.user_url config user_id) None ;;;
     expect [200; 204] UNEXPECTED_ERROR delete_resp).

(** [add_role(self, role_name, description, client_id=None)] *)
Definition add_role (role_name description : str) (client : option str) : op bool :=
  guarded
    (logged INFO ;;;
     let payload :=
       JDict [(py "name", JStr role_name); (py "description", JStr description);
              (py "composite", JBool false)] in
     let roles_url :=
       match client with
       | None => KeycloakConfig.realm_roles_url config
       | Some _ => KeycloakConfig.client_roles_url config client
       end in
     resp <- request POST roles_url (Some payload) ;;;
     expect [201; 204] UNEXPECTED_ERROR resp).

End Operations.

(** The requests of a run, in order. *)
Definition requests (tr : list admin_event) : list (http_method * str * option json) :=
  omap (fun ev => match ev with Requested m u b => Some (m, u, b) | _ => None end) tr.

End Admin.

(** ** Reading a trace of the gateway *)

(** The delays of the sleeps, in order. *)
Definition sleeps (evs : list event) : list Z :=
  omap (fun ev => match ev with Sleep d => Some d | _ => None end) evs.

(** The stream names of the broker's create-stream calls, in order. *)
Definition create_calls (evs : list event) : list str :=
  omap (fun ev => match ev with ProducerCreateStream r => Some r | _ => None end) evs.

(** How many times the consumer connection was closed. *)
Definition close_calls (evs : list event) : nat :=
  length (filter (fun ev => ev = ConsumerClose) evs).

(** A producer that only raises exceptions deriving from [Exception]: the
    task running the gateway is not cancelled inside a broker call. *)
Definition raises_Exceptions (producer : Producer) : Prop :=
  (forall h room e, create_stream_outcome producer h room = Some e -> is_Exception e = true) /\
  (forall h room b e, send_outcome producer h room b = Some e -> is_Exception e = true).

(** A broker that refuses every connection, and one that accepts every
    call. *)
Definition refusing : Producer :=
  {| create_stream_outcome := fun _ _ => Some ConnectionRefusedError;
     send_outcome := fun _ _ _ => Some ConnectionRefusedError |}.

Definition accepting : Producer :=
  {| create_stream_outcome := fun _ _ => None;
     send_outcome := fun _ _ _ => None |}.

(** The state of a gateway just constructed. *)
Definition new_gateway : world := World ∅ [].

(** ** Vocabulary of the statements *)

(** An empty or whitespace-only name. *)
Definition whitespace_only (s : str) : bool := forallb isspace s.

(** What [_init_streams] makes of one run of [create_stream]. *)
Inductive outcome : Type := Created | AlreadyExisted | Failed.

Definition outcome_of (r : result unit) : outcome :=
  match r with
  | Ret _ => Created
  | Raise StreamAlreadyExists => AlreadyExisted
  | Raise _ => Failed
  end.

Definition ready (o : outcome) : bool :=
  match o with
  | Failed => false
  | _ => true
  end.

(** The outcome of each iteration of the loop of [_init_streams], in order:
    the name and what its [create_stream(room)] did in the state the loop
    had reached. *)
Fixpoint init_outcomes (producer : Producer) (channels failed : list str) (w : world)
  : list (str * outcome) :=
  match channels with
  | [] => []
  | room :: rest =>
      (room, outcome_of (fst (create_stream producer room 10 0 w))) ::
      match init_stream producer room failed w with
      | (Ret failed', w') => init_outcomes producer rest failed' w'
      | (Raise _, _) => []
      end
  end.

(** [streams_status[name] = ready outcome] for each iteration, in order. *)
Definition record_outcomes (reg : gmap str bool) (outs : list (str * outcome))
  : gmap str bool :=
  fold_left (fun m p => <[fst p := ready (snd p)]> m) outs reg.

(** A broker whose create-stream call fails with an error of its own. *)
Definition erroring : Producer :=
  {| create_stream_outcome := fun _ _ => Some (OtherException 0);
     send_outcome := fun _ _ _ => None |}.

(** A broker that lost the stream and fails to create it again. *)
Definition stream_lost : Producer :=
  {| create_stream_outcome := fun _ _ => Some (OtherException 0);
     send_outcome := fun _ _ _ => Some StreamDoesNotExist |}.

(** The log line that ends the recovery of [send_to_stream]. *)
Definition recovery_log (room : str) (r : result unit) : event :=
  match r with
  | Ret _ => Log INFO (MsgCreated room)
  | Raise ConnectionRefusedError => Log ERROR (MsgFailedAfter 5 room)
  | Raise e => Log EXCEPTION (MsgErrorCreating room e)
  end.

(** A broker whose send fails with an error of its own. *)
Definition send_failing : Producer :=
  {| create_stream_outcome := fun _ _ => None;
     send_outcome := fun _ _ _ => Some (OtherException 1) |}.

(** The admin client under connection failures only. *)
Definition unreachable (attempt : Z) : KeycloakAdmin.attempt_outcome :=
  KeycloakAdmin.ClientConnectionError.

(** The log line of the callback for one raw message. *)
Definition parse_log {ChatMessage : Type} (ParseFromString : bytes -> option ChatMessage)
  (msg : bytes) : list event :=
  match ParseFromString msg with
  | Some _ => []
  | None => [Log EXCEPTION MsgErrorParsing]
  end.

(** The generator is suspended inside its loop. *)
Definition running {ChatMessage : Type} (g : generator ChatMessage) : Prop :=
  gen_phase g = AwaitingGet \/ gen_phase g = AtYield.

(** The queue of a subscription has no capacity limit and no callback is
    waiting for room in it. *)
Definition unbounded {ChatMessage : Type} (g : generator ChatMessage) : Prop :=
  maxsize (messages g) = 0 /\ blocked_puts g = [].

(** Inside the loop: a getter waits only on an empty queue. *)
Definition steady {ChatMessage : Type} (g : generator ChatMessage) : Prop :=
  running g /\ unbounded g /\ (gen_phase g = AwaitingGet -> items (messages g) = []).

(** The caller and the broker only: nothing is thrown into the generator. *)
Definition undisturbed (tr : list consume_event) : Prop :=
  Forall (fun ev => match ev with Throw _ => False | _ => True end) tr.

(** A consumer connection whose constructor and calls all succeed. *)
Definition healthy : ConsumerConn :=
  {| Consumer_outcome := None; start_outcome := None;
     subscribe_outcome := None; close_outcome := None |}.

(** What holds of the generator of [consume_messages] at any time, for a
    gateway whose Registry was [reg] and whose consumer connections had
    been closed [closed] times before: the Registry is as it was, a
    consumer exists only once the body was entered, the consumer was closed
    once if the body was left with a consumer and never otherwise, a
    failing [close] was logged, and the queue has no limit. *)
Definition well_closed {ChatMessage : Type} (conn : ConsumerConn)
  (reg : gmap str bool) (closed : nat) (g : generator ChatMessage) : Prop :=
  streams_status (gw g) = reg /\
  (gen_phase g = NotStarted -> consumer g = false) /\
  close_calls (events (gw g)) =
    (closed + match gen_phase g with
              | Finished _ => if consumer g then 1 else 0
              | _ => 0
              end)%nat /\
  (forall r e, gen_phase g = Finished r -> consumer g = true ->
     close_outcome conn = Some e -> is_Exception e = true ->
     In (Log EXCEPTION (MsgErrorClosing e)) (events (gw g))) /\
  unbounded g.

(** How the generator ends when [e] is raised inside its loop: the two
    clauses of the inner [try] swallow [CancelledError] and every
    [Exception]. *)
Definition loop_exit (e : exn) : result unit :=
  match e with
  | CancelledError => Ret tt
  | _ => if is_Exception e then Ret tt else Raise e
  end.

(** How a generator that has a consumer ends when its body is left with
    the pending outcome [r]: an [Exception] of [close] is caught in the
    [finally] clause, any other exception of [close] takes the place of
    [r]. *)
Definition after_close (conn : ConsumerConn) (r : result unit) : result unit :=
  match close_outcome conn with
  | Some e => if is_Exception e then r else Raise e
  | None => r
  end.

(** [close] raises an [Exception]. *)
Definition close_fails (conn : ConsumerConn) : bool :=
  match close_outcome conn with
  | Some e => is_Exception e
  | None => false
  end.

(** The exception that ends the opening of the subscription, if any. *)
Definition opening_failure (conn : ConsumerConn) : option exn :=
  match Consumer_outcome conn with
  | Some e => Some e
  | None =>
      match start_outcome conn with
      | Some e => Some e
      | None => subscribe_outcome conn
      end
  end.

(** The consumer is constructed when the body is entered. *)
Definition constructed (conn : ConsumerConn) : bool :=
  match Consumer_outcome conn with
  | Some _ => false
  | None => true
  end.

(** [e] can be raised where [g] is suspended: any exception at the
    [yield], the cancellation of the pulling task at the [get]. *)
Definition deliverable {ChatMessage : Type} (g : generator ChatMessage) (e : exn) : Prop :=
  gen_phase g = AtYield \/ (gen_phase g = AwaitingGet /\ e = CancelledError).

(** The schedule enters the body of the generator: the first thing done
    to the generator is a pull (the broker delivers nothing before the
    subscription). *)
Fixpoint entered (tr : list consume_event) : bool :=
  match tr with
  | [] => false
  | Anext :: _ => true
  | Deliver _ :: tr' => entered tr'
  | Throw _ :: _ => false
  end.

(** The generator has ended. *)
Definition ended {ChatMessage : Type} (g : generator ChatMessage) : bool :=
  match gen_phase g with
  | Finished _ => true
  | _ => false
  end.

(** How many calls of [close] are due after the schedule [tr] has led to
    [g]: one when the body was entered with a consumer constructed and
    has been left, none otherwise. *)
Definition closes_due {ChatMessage : Type} (conn : ConsumerConn)
  (tr : list consume_event) (g : generator ChatMessage) : nat :=
  if entered tr && constructed conn && ended g then 1 else 0.

(** How many times a failure of [close] was logged. *)
Definition close_error_logs (evs : list event) : nat :=
  length (List.filter
            (fun ev => match ev with
                       | Log EXCEPTION (MsgErrorClosing _) => true
                       | _ => false
                       end) evs).

(** A consumer connection whose [close] is cut by the cancellation of the
    task. *)
Definition close_cancelled : ConsumerConn :=
  {| Consumer_outcome := None; start_outcome := None;
     subscribe_outcome := None; close_outcome := Some CancelledError |}.

(** A decoder for the examples: an empty payload does not decode. *)
Definition nonempty_payload (msg : bytes) : option bytes :=
  match msg with
  | [] => None
  | _ => Some msg
  end.

(** ** Vocabulary of the further properties *)

(** *** The gateway *)

(** The messages sent to the broker, in order. *)
Definition send_calls (evs : list event) : list (str * bytes) :=
  omap (fun ev => match ev with ProducerSend r p => Some (r, p) | _ => None end) evs.

(** The names [_init_streams] reports as failed: those whose outcome is
    [Failed], in order. *)
Definition failed_names (outs : list (str * outcome)) : list str :=
  map fst (List.filter (fun p => negb (ready (snd p))) outs).

(** The events of the work on one name: no line of the final report. *)
Definition not_report (ev : event) : Prop :=
  match ev with
  | Log _ (MsgInitialized _) | Log _ (MsgFailedStreams _) => False
  | _ => True
  end.

(** A broker whose create-stream call returns or refuses the connection,
    nothing else. *)
Definition only_refuses (producer : Producer) : Prop :=
  forall h room e,
    create_stream_outcome producer h room = Some e -> e = ConnectionRefusedError.

(** A broker whose calls are interrupted by the cancellation of the task. *)
Definition cancelled : Producer :=
  {| create_stream_outcome := fun _ _ => Some CancelledError;
     send_outcome := fun _ _ _ => Some CancelledError |}.

(** A broker that lost the stream and refuses every connection. *)
Definition lost_and_refusing : Producer :=
  {| create_stream_outcome := fun _ _ => Some ConnectionRefusedError;
     send_outcome := fun _ _ _ => Some StreamDoesNotExist |}.

(** *** The consume path *)

(** A [close] that returns or raises an [Exception]. *)
Definition close_not_interrupted (conn : ConsumerConn) : Prop :=
  forall e, close_outcome conn = Some e -> is_Exception e = true.


(** *** The retry loop *)

(** The attempt numbers of the requests of a run, in order. *)
Definition kc_requests (tr : list KeycloakAdmin.kc_event) : list Z :=
  omap (fun ev => match ev with KeycloakAdmin.Request a => Some a | _ => None end) tr.

(** How many times the token cache was cleared. *)
Definition kc_clears (tr : list KeycloakAdmin.kc_event) : nat :=
  length (omap (fun ev => match ev with KeycloakAdmin.ClearTokenCache => Some tt | _ => None end) tr).

(** The attempts after which the loop goes on: a response with status 401
    or 403. *)
Definition transient (o : KeycloakAdmin.attempt_outcome) : bool :=
  match o with
  | KeycloakAdmin.ClientResponseError status => (status =? 401) || (status =? 403)
  | _ => false
  end.

(** The attempts that end with an exception other than a response error. *)
Definition breaks_off (o : KeycloakAdmin.attempt_outcome) : bool :=
  match o with
  | KeycloakAdmin.Response _ | KeycloakAdmin.ClientResponseError _ => false
  | _ => true
  end.

(** The attempts numbered [0], ..., [n - 1]. *)
Definition attempts (n : nat) : list Z := map Z.of_nat (seq 0 n).

(** A server that answers every request with 401. *)
Definition unauthorized (attempt : Z) : KeycloakAdmin.attempt_outcome :=
  KeycloakAdmin.ClientResponseError 401.

(** A server that rejects the token twice, with 401 and 403, then answers
    200. *)
Definition recovering (attempt : Z) : KeycloakAdmin.attempt_outcome :=
  if attempt =? 0 then KeycloakAdmin.ClientResponseError 401
  else if attempt =? 1 then KeycloakAdmin.ClientResponseError 403
  else KeycloakAdmin.Response 200.

(** A server that rejects the token once, then answers 404. *)
Definition not_found (attempt : Z) : KeycloakAdmin.attempt_outcome :=
  if attempt =? 0 then KeycloakAdmin.ClientResponseError 401
  else KeycloakAdmin.ClientResponseError 404.

(** A server that rejects the token once; then the connection fails. *)
Definition dropped (attempt : Z) : KeycloakAdmin.attempt_outcome :=
  if attempt =? 0 then KeycloakAdmin.ClientResponseError 401
  else KeycloakAdmin.ClientConnectionError.

(** *** The admin operations *)

(** What [update_user_info] puts in the body for one optional argument. *)
Definition given (key : str) (value : option str) : list (str * Admin.json) :=
  match value with
  | Some s => [(key, Admin.JStr s)]
  | None => []
  end.

(** The value of [user.get('attributes', {})] for a user representation. *)
Definition attributes_of (d : list (str * Admin.json)) : Admin.json :=
  match Admin.dict_get d (py "attributes") with
  | Some v => v
  | None => Admin.JDict []
  end.

(** The ["attributes"] entry of the body of [update_user_info]. *)
Definition attributes_field (attributes : Admin.json) (phone_number : option str)
  : list (str * Admin.json) :=
  match phone_number with
  | Some phone =>
      match attributes with
      | Admin.JDict a =>
          [(py "attributes",
            Admin.JDict (Admin.dict_set a (py "phone_number")
                           (Admin.JList [Admin.JStr phone])))]
      | _ => []
      end
  | None => if Admin.truthy attributes then [(py "attributes", attributes)] else []
  end.

Definition is_dict (x : Admin.json) : bool :=
  match x with
  | Admin.JDict _ => true
  | _ => false
  end.

(** A server holding one user, with an [email] and a [locale] attribute,
    that accepts every update. *)
Definition one_user : Admin.Server :=
  {| Admin.respond := fun _ method _ _ =>
       match method with
       | Admin.GET =>
           Admin.Returns
             (Admin.Response 200
                (Admin.JDict
                   [(py "email", Admin.JStr (py "a@b.c"));
                    (py "attributes",
                     Admin.JDict [(py "locale", Admin.JList [Admin.JStr (py "en")])])]))
       | _ => Admin.Returns (Admin.Response 204 Admin.JNull)
       end;
     Admin.uuid1 := fun _ => py "6fa459ea-ee8a-11ee-a506-0242ac120002" |}.

(** A server whose responses have status 200 and carry no JSON. *)
Definition no_json : Admin.Server :=
  {| Admin.respond := fun _ _ _ _ => Admin.Returns (Admin.Response 200 Admin.JNull);
     Admin.uuid1 := fun _ => py "6fa459ea-ee8a-11ee-a506-0242ac120002" |}.


(** An operation that, when it returns, returns [True]. *)
Definition returns_only_True (c : Admin.op bool) : Prop :=
  forall tr b tr', c tr = (Admin.Returns b, tr') -> b = true.

(** An operation returns [True], raises a [BusinessException], or lets
    through an exception that is not an [Exception]. *)
Definition True_or_raises (c : Admin.op bool) : Prop :=
  forall tr,
    match fst (c tr) with
    | Admin.Returns b => b = true
    | Admin.Raises (Admin.BusinessException _ _) => True
    | Admin.Raises (Admin.Other e) => is_Exception e = false
    end.




(** The result of an operation when the response that the request helper
    returned last has the status [s]. *)
Definition checked (accepted : list Z) (code : Admin.ErrorCode) (s : Z)
  : Admin.completion bool :=
  if bool_decide (s ∈ accepted) then Admin.Returns true
  else Admin.Raises (Admin.BusinessException code None).

(** The request helper returns, for every request, a response of status
    [s] without JSON. *)
Definition answering (s : Z) : Admin.Server :=
  {| Admin.respond := fun _ _ _ _ => Admin.Returns (Admin.Response s Admin.JNull);
     Admin.uuid1 := fun _ => py "6fa459ea-ee8a-11ee-a506-0242ac120002" |}.

(** ** Stream names and [strip] *)

Lemma lstrip_nil_iff (s : str) : lstrip s = [] <-> whitespace_only s = true.
Proof.
  unfold whitespace_only.
  induction s as [|c s IH]; simpl; [tauto|].
  destruct (isspace c); simpl; [exact IH|].
  split; discriminate.
Qed.

Lemma whitespace_only_lstrip (s : str) :
  whitespace_only (lstrip s) = whitespace_only s.
Proof.
  unfold whitespace_only.
  induction s as [|c s IH]; simpl; [reflexivity|].
  destruct (isspace c) eqn:Hc; simpl; [exact IH|].
  now rewrite Hc.
Qed.

Lemma whitespace_only_rev (s : str) :
  whitespace_only (rev s) = whitespace_only s.
Proof.
  unfold whitespace_only.
  induction s as [|c s IH]; simpl; [reflexivity|].
  rewrite forallb_app, IH; simpl.
  rewrite andb_true_r. apply andb_comm.
Qed.

(** [room.strip()] is the empty string exactly for the empty and the
    whitespace-only names. *)
Lemma strip_nil_iff (s : str) : strip s = [] <-> whitespace_only s = true.
Proof.
  unfold strip, rstrip.
  rewrite <- (whitespace_only_lstrip s), <- (whitespace_only_rev (lstrip s)).
  rewrite <- lstrip_nil_iff.
  split; intros H.
  - apply (f_equal (@rev N)) in H. now rewrite rev_involutive in H.
  - now rewrite H.
Qed.

Lemma named_stream (s : str) :
  bool_decide (strip s <> []) = negb (whitespace_only s).
Proof.
  destruct (whitespace_only s) eqn:Hs; simpl.
  - apply bool_decide_eq_false. intros H. apply H. now apply strip_nil_iff.
  - apply bool_decide_eq_true. intros H. apply strip_nil_iff in H. congruence.
Qed.

(** ** The stream lifecycle: [create_stream] *)

Lemma app_cons_app {A} (l : list A) (x : A) (k : list A) :
  (l ++ [x]) ++ k = l ++ x :: k.
Proof. now rewrite <- app_assoc. Qed.

(** [create_stream], case by case. *)
Lemma create_stream_cases (producer : Producer) (room : str) (retry count : Z) (w : world) :
  create_stream producer room retry count w =
  if retry <=? count then (Raise ConnectionRefusedError, w)
  else if whitespace_only room then (Ret tt, w)
  else
    let called := events w ++ [ProducerCreateStream room] in
    match create_stream_outcome producer (events w) room with
    | None => (Ret tt, World (streams_status w) called)
    | Some ConnectionRefusedError =>
        (Ret tt,
         World (streams_status w)
           (called ++ [Log ERROR (MsgRetryIn5 room ConnectionRefusedError); Sleep 5]))
    | Some e => (Raise e, World (streams_status w) called)
    end.
Proof.
  unfold create_stream. destruct (retry <=? count); [reflexivity|].
  rewrite named_stream. destruct (whitespace_only room); simpl; [reflexivity|].
  unfold try_except, producer_create_stream.
  destruct (create_stream_outcome producer (events w) room) as [e|]; [|reflexivity].
  destruct e; try reflexivity.
  cbn. now rewrite app_cons_app.
Qed.

(** C1, what the code does: when the broker refuses the connection,
    [create_stream] makes one create-stream call, logs, sleeps 5 seconds
    once and returns normally; the retry is a coroutine that is never
    awaited, so there is no second attempt, no [ConnectionRefusedError]
    reaches the caller and the Registry is not touched. *)
Theorem create_stream_refused_once
  (producer : Producer) (room : str) (retry count : Z) (w : world) :
  whitespace_only room = false ->
  count < retry ->
  create_stream_outcome producer (events w) room = Some ConnectionRefusedError ->
  create_stream producer room retry count w =
  (Ret tt,
   World (streams_status w)
     (events w ++ [ProducerCreateStream room;
                   Log ERROR (MsgRetryIn5 room ConnectionRefusedError);
                   Sleep 5])).
Proof.
  intros Hname Hcount Hrefused.
  rewrite create_stream_cases, Hname, Hrefused.
  destruct (Z.leb_spec retry count) as [Hle|_]; [lia|].
  cbn. now rewrite app_cons_app.
Qed.

Lemma create_stream_refused_once_witness :
  create_stream refusing (py "chat") 10 0 new_gateway =
  (Ret tt,
   World ∅ [ProducerCreateStream (py "chat");
            Log ERROR (MsgRetryIn5 (py "chat") ConnectionRefusedError);
            Sleep 5]).
Proof.
  apply (create_stream_refused_once refusing (py "chat") 10 0 new_gateway);
    [reflexivity | lia | reflexivity].
Defined.

(** C7: for an empty or whitespace-only name [create_stream] leaves the
    gateway as it was (no broker call, no Registry entry, no log line), and
    with attempts left ([count < retry], as with the defaults 10 and 0) it
    returns normally. *)
Theorem create_stream_blank_skipped
  (producer : Producer) (room : str) (retry count : Z) (w : world) :
  whitespace_only room = true ->
  snd (create_stream producer room retry count w) = w /\
  (count < retry -> fst (create_stream producer room retry count w) = Ret tt).
Proof.
  intros Hblank. rewrite create_stream_cases, Hblank.
  destruct (Z.leb_spec retry count) as [Hle|Hlt]; simpl.
  - split; [reflexivity | lia].
  - split; reflexivity.
Qed.

Lemma create_stream_blank_skipped_witness :
  snd (create_stream refusing (py "  ") 10 0 new_gateway) = new_gateway /\
  fst (create_stream refusing (py "  ") 10 0 new_gateway) = Ret tt.
Proof.
  destruct (create_stream_blank_skipped refusing (py "  ") 10 0 new_gateway eq_refl)
    as [Hworld Hret].
  split; [exact Hworld | apply Hret; lia].
Defined.

(** What one run of [create_stream] changes: the Registry is not touched,
    at most one create-stream call reaches the broker, and an exception it
    raises is [ConnectionRefusedError] (no attempt left) or the broker's. *)
Lemma create_stream_effect (producer : Producer) (room : str) (retry count : Z) (w : world) :
  exists evs,
    snd (create_stream producer room retry count w) =
      World (streams_status w) (events w ++ evs) /\
    create_calls evs =
      (if (retry <=? count) || whitespace_only room then [] else [room]) /\
    (forall e, fst (create_stream producer room retry count w) = Raise e ->
       (retry <= count /\ e = ConnectionRefusedError) \/
       (count < retry /\ create_stream_outcome producer (events w) room = Some e)).
Proof.
  rewrite create_stream_cases.
  destruct (Z.leb_spec retry count) as [Hle|Hlt]; simpl.
  { exists []. rewrite app_nil_r. destruct w; simpl.
    repeat split; intros e [= <-]; now left. }
  destruct (whitespace_only room); simpl.
  { exists []. rewrite app_nil_r. destruct w; simpl. repeat split. discriminate. }
  destruct (create_stream_outcome producer (events w) room) as [e|] eqn:Hout.
  - destruct e;
      try (exists [ProducerCreateStream room]; simpl; repeat split;
           intros e' [= <-]; right; split; [lia | reflexivity]).
    exists [ProducerCreateStream room;
            Log ERROR (MsgRetryIn5 room ConnectionRefusedError); Sleep 5].
    simpl. rewrite app_cons_app. repeat split. discriminate.
  - exists [ProducerCreateStream room]. simpl. repeat split. discriminate.
Qed.

(** ** Bulk initialisation: [_init_streams] *)

Lemma init_stream_effect (producer : Producer) (room : str) (failed : list str) (w : world) :
  raises_Exceptions producer ->
  exists failed' evs,
    init_stream producer room failed w =
      (Ret failed',
       World (<[room := ready (outcome_of (fst (create_stream producer room 10 0 w)))]>
                (streams_status w))
             (events w ++ evs)) /\
    create_calls evs = (if whitespace_only room then [] else [room]).
Proof.
  intros [Hcreate _].
  destruct (create_stream_effect producer room 10 0 w) as (evs & Hw & Hcalls & Hraise).
  change (10 <=? 0) with false in Hcalls. simpl in Hcalls.
  unfold init_stream, try_except, bind.
  destruct (create_stream producer room 10 0 w) as [r w1]. simpl in *. subst w1.
  destruct r as [[]|e]; simpl.
  - exists failed, (evs ++ [Log INFO (MsgCreated room)]).
    rewrite app_assoc. split; [reflexivity|].
    unfold create_calls in *. now rewrite omap_app, Hcalls, app_nil_r.
  - assert (He : is_Exception e = true).
    { destruct (Hraise e eq_refl) as [[Hle _]|[_ Hout]]; [lia | eauto]. }
    destruct e; simpl in *; try discriminate;
      eexists _, (evs ++ [_]); rewrite app_assoc;
        (split; [reflexivity|]);
        unfold create_calls in *; now rewrite omap_app, Hcalls, app_nil_r.
Qed.

(** The loop of [_init_streams] handles every name: no outcome stops it. *)
Lemma init_loop_effect (producer : Producer) (channels : list str) :
  raises_Exceptions producer ->
  forall (failed : list str) (w : world),
  exists failed' evs,
    init_loop producer channels failed w =
      (Ret failed',
       World (record_outcomes (streams_status w) (init_outcomes producer channels failed w))
             (events w ++ evs)) /\
    map fst (init_outcomes producer channels failed w) = channels /\
    create_calls evs = filter (fun room => whitespace_only room = false) channels.
Proof.
  intros Hprod. induction channels as [|room rest IH]; intros failed w.
  - exists failed, []. simpl. rewrite app_nil_r. destruct w; auto.
  - destruct (init_stream_effect producer room failed w Hprod)
      as (failed1 & evs1 & Hone & Hcalls1).
    simpl. unfold bind. rewrite Hone.
    match goal with |- context [init_loop _ _ _ ?w1] =>
      destruct (IH failed1 w1) as (failed2 & evs2 & Hrest & Hnames & Hcalls2)
    end.
    rewrite Hrest. simpl.
    exists failed2, (evs1 ++ evs2). rewrite app_assoc.
    split; [reflexivity|]. split; [now rewrite Hnames|].
    unfold create_calls in *. rewrite omap_app, Hcalls1, Hcalls2.
    destruct (whitespace_only room) eqn:Hroom.
    + now rewrite filter_cons_False by (simpl; congruence).
    + now rewrite filter_cons_True by assumption.
Qed.

(** [_init_streams] as a whole: it returns its argument, and the Registry
    holds the recorded outcomes. *)
Lemma init_streams_effect (producer : Producer) (channels : list str) (w : world) :
  raises_Exceptions producer ->
  exists evs,
    _init_streams producer channels w =
      (Ret channels,
       World (record_outcomes (streams_status w) (init_outcomes producer channels [] w))
             (events w ++ evs)) /\
    map fst (init_outcomes producer channels [] w) = channels /\
    create_calls evs = filter (fun room => whitespace_only room = false) channels.
Proof.
  intros Hprod.
  destruct (init_loop_effect producer channels Hprod [] w)
    as (failed & evs & Hloop & Hnames & Hcalls).
  unfold _init_streams, bind.
  assert (Hfirst :
    (match channels with [] => ret [] | _ => init_loop producer channels [] end) w =
    init_loop producer channels [] w) by now destruct channels.
  rewrite Hfirst, Hloop. cbn.
  destruct failed as [|name failed]; cbn.
  - exists (evs ++ [Log INFO (MsgInitialized channels)]).
    rewrite app_assoc. split; [reflexivity|]. split; [exact Hnames|].
    unfold create_calls in *. now rewrite omap_app, Hcalls, app_nil_r.
  - exists (evs ++ [Log INFO (MsgInitialized channels);
                    Log WARNING (MsgFailedStreams (name :: failed))]).
    rewrite app_cons_app, app_assoc. split; [reflexivity|]. split; [exact Hnames|].
    unfold create_calls in *. now rewrite omap_app, Hcalls, app_nil_r.
Qed.

Lemma record_outcomes_lookup (name : str) (b : bool) (outs : list (str * outcome)) :
  (forall o, In (name, o) outs -> ready o = b) ->
  forall reg : gmap str bool,
  (exists o, In (name, o) outs) \/ reg !! name = Some b ->
  record_outcomes reg outs !! name = Some b.
Proof.
  unfold record_outcomes.
  induction outs as [|[n o] outs IH]; intros Hall reg Hsome; simpl.
  - destruct Hsome as [[o []]|Hreg]. exact Hreg.
  - apply IH; [intros o' Ho'; apply Hall; now right|].
    destruct (decide (n = name)) as [->|Hne].
    + right. rewrite lookup_insert_eq. f_equal. apply Hall. now left.
    + destruct Hsome as [[o' [Heq|Hin]]|Hreg].
      * congruence.
      * left. now exists o'.
      * right. now rewrite lookup_insert_ne.
Qed.

Lemma record_outcomes_other (name : str) (outs : list (str * outcome)) :
  ~ In name (map fst outs) ->
  forall reg : gmap str bool, record_outcomes reg outs !! name = reg !! name.
Proof.
  unfold record_outcomes.
  induction outs as [|[n o] outs IH]; intros Hnot reg; simpl; [reflexivity|].
  simpl in Hnot. rewrite IH by tauto.
  apply lookup_insert_ne. tauto.
Qed.

Lemma NoDup_fst_functional {A B} (l : list (A * B)) (a : A) (b1 b2 : B) :
  List.NoDup (map fst l) -> In (a, b1) l -> In (a, b2) l -> b1 = b2.
Proof.
  induction l as [|[a' b'] l IH]; simpl; intros Hnd H1 H2; [contradiction|].
  inversion Hnd as [|? ? Hnotin Hnd']; subst.
  destruct H1 as [H1|H1], H2 as [H2|H2]; simplify_eq.
  - reflexivity.
  - exfalso. apply Hnotin. apply (in_map fst) in H2. exact H2.
  - exfalso. apply Hnotin. apply (in_map fst) in H1. exact H1.
  - now apply IH.
Qed.

Lemma init_outcomes_blank (producer : Producer) (channels : list str) :
  forall (failed : list str) (w : world) (name : str) (o : outcome),
  In (name, o) (init_outcomes producer channels failed w) ->
  whitespace_only name = true -> o = Created.
Proof.
  induction channels as [|room rest IH]; intros failed w name o Hin Hblank;
    simpl in Hin; [contradiction|].
  destruct Hin as [[= -> <-]|Hin].
  - now rewrite create_stream_cases, Hblank.
  - destruct (init_stream producer room failed w) as [[failed'|e] w']; [|contradiction].
    now apply (IH failed' w' name o).
Qed.

(** C10: when the list given to [_init_streams] contains an empty or
    whitespace-only name, the call (with a broker that raises only
    [Exception]s) ends with [streams_status[name] = True] although no
    create-stream call for that name reached the broker. *)
Theorem init_streams_blank_ready
  (producer : Producer) (channels : list str) (name : str) (w : world) :
  raises_Exceptions producer ->
  In name channels ->
  whitespace_only name = true ->
  exists evs,
    events (snd (_init_streams producer channels w)) = events w ++ evs /\
    ~ In name (create_calls evs) /\
    streams_status (snd (_init_streams producer channels w)) !! name = Some true.
Proof.
  intros Hprod Hin Hblank.
  destruct (init_streams_effect producer channels w Hprod) as (evs & Hrun & Hnames & Hcalls).
  rewrite Hrun. simpl. exists evs. split; [reflexivity|]. split.
  - rewrite Hcalls. intros Hcalled.
    apply list_elem_of_In, list_elem_of_filter in Hcalled. destruct Hcalled. congruence.
  - apply record_outcomes_lookup.
    + intros o Ho. now rewrite (init_outcomes_blank _ _ _ _ _ _ Ho Hblank).
    + left. rewrite <- Hnames in Hin. apply in_map_iff in Hin.
      destruct Hin as ([n o] & Hn & Hin). simpl in Hn. subst n. now exists o.
Qed.

Lemma accepting_raises_Exceptions : raises_Exceptions accepting.
Proof. split; discriminate. Qed.

Lemma refusing_raises_Exceptions : raises_Exceptions refusing.
Proof. split; intros; simpl in *; now simplify_eq. Qed.

Lemma init_streams_blank_ready_witness :
  exists evs,
    events (snd (_init_streams accepting [py "chat"; py " "] new_gateway)) =
      events new_gateway ++ evs /\
    ~ In (py " ") (create_calls evs) /\
    streams_status (snd (_init_streams accepting [py "chat"; py " "] new_gateway))
      !! py " " = Some true.
Proof.
  apply (init_streams_blank_ready accepting [py "chat"; py " "] (py " ") new_gateway).
  - exact accepting_raises_Exceptions.
  - simpl. right. left. reflexivity.
  - reflexivity.
Defined.

Lemma erroring_raises_Exceptions : raises_Exceptions erroring.
Proof. split; intros; simpl in *; now simplify_eq. Qed.

(** C6 as stated fails: [_init_streams] returns the list it was given, so
    the value returned for a stream that was created and for one whose
    creation failed is the same; the outcome is only logged and recorded in
    the Registry. *)
Lemma init_streams_returns_names_only :
  fst (_init_streams accepting [py "chat"] new_gateway) = Ret [py "chat"] /\
  fst (_init_streams erroring [py "chat"] new_gateway) = Ret [py "chat"] /\
  init_outcomes accepting [py "chat"] [] new_gateway = [(py "chat", Created)] /\
  init_outcomes erroring [py "chat"] [] new_gateway = [(py "chat", Failed)].
Proof. repeat split. Qed.

(** C6, amended: [_init_streams] runs [create_stream] once for every name
    of the list, in order, whatever the earlier names did (the broker
    raising only [Exception]s); it returns the list it was given; and the
    Registry ends as the per-name outcomes recorded in order: a name that
    occurs once is marked [True] exactly when its [create_stream] returned
    or raised [StreamAlreadyExists], and [False] when it raised anything
    else; names outside the list keep their entry. *)
Theorem init_streams_registry_matches_outcomes
  (producer : Producer) (channels : list str) (w : world) :
  raises_Exceptions producer ->
  let outs := init_outcomes producer channels [] w in
  let w' := snd (_init_streams producer channels w) in
  fst (_init_streams producer channels w) = Ret channels /\
  map fst outs = channels /\
  streams_status w' = record_outcomes (streams_status w) outs /\
  (List.NoDup channels ->
   forall name o, In (name, o) outs -> streams_status w' !! name = Some (ready o)) /\
  (forall name, ~ In name channels -> streams_status w' !! name = streams_status w !! name).
Proof.
  intros Hprod outs w'. subst outs w'.
  destruct (init_streams_effect producer channels w Hprod) as (evs & Hrun & Hnames & _).
  rewrite Hrun. simpl.
  split; [reflexivity|]. split; [exact Hnames|]. split; [reflexivity|]. split.
  - intros Hnd name o Hin. apply record_outcomes_lookup; [|left; now exists o].
    intros o' Hin'. f_equal.
    rewrite <- Hnames in Hnd. exact (NoDup_fst_functional _ _ _ _ Hnd Hin' Hin).
  - intros name Hnot. apply record_outcomes_other. now rewrite Hnames.
Qed.

Lemma init_streams_registry_matches_outcomes_witness :
  fst (_init_streams erroring [py "a"; py "b"] new_gateway) = Ret [py "a"; py "b"] /\
  streams_status (snd (_init_streams erroring [py "a"; py "b"] new_gateway)) !! py "b"
    = Some false.
Proof.
  destruct (init_streams_registry_matches_outcomes erroring [py "a"; py "b"] new_gateway
              erroring_raises_Exceptions) as (Hret & _ & _ & Hone & _).
  split; [exact Hret|].
  apply (Hone ltac:(repeat constructor; simpl; intuition discriminate) (py "b") Failed).
  simpl. right. left. reflexivity.
Defined.

(** ** The publish path: [send_to_stream] *)

(** C3 as stated fails: the broker reports the stream missing and the one
    recreation fails, yet [send_to_stream] returns normally; the failure is
    logged and goes no further. *)
Lemma publish_recovery_failure_not_raised :
  send_to_stream stream_lost bytes inl (py "chat") [] (World {[py "chat" := true]} []) =
  (Ret tt,
   World {[py "chat" := true]}
     [Log DEBUG (MsgSending (py "chat"));
      ProducerSend (py "chat") [];
      Log ERROR (MsgDoesNotExist (py "chat"));
      ProducerCreateStream (py "chat");
      Log EXCEPTION (MsgErrorCreating (py "chat") (OtherException 0))]).
Proof. reflexivity. Qed.

(** C3, amended: when the broker reports that the stream of a publish does
    not exist and the name has a Registry entry, [send_to_stream] runs
    [create_stream(room, 5)] exactly once and sends nothing again.  When
    that run returns, the stream is logged as created and the Registry
    marks it [True]; when it raises an [Exception]
    ([ConnectionRefusedError] or any other) the failure is logged once and
    not re-raised, and the Registry is unchanged: in both cases the publish
    call returns normally.  Only an exception that is not an [Exception]
    (the task is cancelled during the recreation) leaves the call. *)
Theorem publish_missing_stream_recovers_once
  (producer : Producer) (ChatMessage : Type) (SerializeToString : ChatMessage -> bytes + exn)
  (room : str) (message : ChatMessage) (payload : bytes) (b : bool) (w : world) :
  SerializeToString message = inl payload ->
  send_outcome producer (events w ++ [Log DEBUG (MsgSending room)]) room payload
    = Some StreamDoesNotExist ->
  streams_status w !! room = Some b ->
  let w1 := World (streams_status w)
              (events w ++ [Log DEBUG (MsgSending room); ProducerSend room payload;
                            Log ERROR (MsgDoesNotExist room)]) in
  let recovery := create_stream producer room 5 0 w1 in
  send_to_stream producer ChatMessage SerializeToString room message w =
    match fst recovery with
    | Ret _ =>
        (Ret tt,
         World (<[room := true]> (streams_status w))
           (events (snd recovery) ++ [Log INFO (MsgCreated room)]))
    | Raise e =>
        if is_Exception e then
          (Ret tt,
           World (streams_status w)
             (events (snd recovery) ++ [recovery_log room (Raise e)]))
        else (Raise e, World (streams_status w) (events (snd recovery)))
    end.
Proof.
  intros Hser Hsend Hreg w1 recovery.
  destruct (create_stream_effect producer room 5 0 w1) as (evs & Hw & _ & _).
  subst recovery.
  unfold send_to_stream, try_except, bind, log, emit, producer_send, get_status, set_status.
  cbn [streams_status events]. rewrite Hser. cbn [ret streams_status events].
  rewrite Hsend. cbn [streams_status events]. rewrite Hreg. cbn [streams_status events].
  rewrite !app_cons_app.
  fold w1.
  destruct (create_stream producer room 5 0 w1) as [r w2]. simpl in Hw |- *.
  subst w2. cbn [streams_status events].
  destruct r as [[]|e]; [reflexivity|].
  destruct e; reflexivity.
Qed.

Lemma publish_missing_stream_recovers_once_witness :
  send_to_stream stream_lost bytes inl (py "chat") []
    (World {[py "chat" := false]} []) =
  (Ret tt,
   World {[py "chat" := false]}
     [Log DEBUG (MsgSending (py "chat"));
      ProducerSend (py "chat") [];
      Log ERROR (MsgDoesNotExist (py "chat"));
      ProducerCreateStream (py "chat");
      Log EXCEPTION (MsgErrorCreating (py "chat") (OtherException 0))]).
Proof.
  assert (Hreg : streams_status (World {[py "chat" := false]} []) !! py "chat" = Some false)
    by reflexivity.
  rewrite (publish_missing_stream_recovers_once stream_lost bytes inl (py "chat") [] []
             false (World {[py "chat" := false]} []) eq_refl eq_refl Hreg).
  reflexivity.
Defined.

(** C8: an [Exception] other than [StreamDoesNotExist] raised by the
    encoder or by the broker's send is logged once and re-raised as it is:
    [send_to_stream] ends with that exception, without any create-stream
    call, sleep or Registry change. *)
Theorem publish_errors_reraised
  (producer : Producer) (ChatMessage : Type) (SerializeToString : ChatMessage -> bytes + exn)
  (room : str) (message : ChatMessage) (e : exn) (w : world) :
  is_Exception e = true ->
  e <> StreamDoesNotExist ->
  (SerializeToString message = inr e ->
   send_to_stream producer ChatMessage SerializeToString room message w =
     (Raise e,
      World (streams_status w)
        (events w ++ [Log DEBUG (MsgSending room); Log EXCEPTION (MsgErrorSending e)]))) /\
  (forall payload,
   SerializeToString message = inl payload ->
   send_outcome producer (events w ++ [Log DEBUG (MsgSending room)]) room payload = Some e ->
   send_to_stream producer ChatMessage SerializeToString room message w =
     (Raise e,
      World (streams_status w)
        (events w ++ [Log DEBUG (MsgSending room); ProducerSend room payload;
                      Log EXCEPTION (MsgErrorSending e)]))).
Proof.
  intros He Hne. split.
  - intros Hser.
    unfold send_to_stream, try_except, bind, log, emit, raise.
    rewrite Hser. cbn [streams_status events].
    destruct e; simpl in He; try discriminate; try congruence;
      cbn; now rewrite !app_cons_app.
  - intros payload Hser Hsend.
    unfold send_to_stream, try_except, bind, log, emit, raise, producer_send.
    rewrite Hser. cbn [ret streams_status events]. rewrite Hsend.
    destruct e; simpl in He; try discriminate; try congruence;
      cbn; now rewrite !app_cons_app.
Qed.

Lemma publish_errors_reraised_witness :
  send_to_stream send_failing bytes inl (py "chat") [] new_gateway =
  (Raise (OtherException 1),
   World ∅ [Log DEBUG (MsgSending (py "chat")); ProducerSend (py "chat") [];
            Log EXCEPTION (MsgErrorSending (OtherException 1))]).
Proof.
  destruct (publish_errors_reraised send_failing bytes inl (py "chat") []
              (OtherException 1) new_gateway eq_refl) as [_ Hsend].
  - discriminate.
  - apply (Hsend []); reflexivity.
Defined.

(** ** The two delay schedules *)

Lemma sleeps_app (l k : list event) : sleeps (l ++ k) = sleeps l ++ sleeps k.
Proof. apply omap_app. Qed.

Lemma kc_sleeps_app (l k : list KeycloakAdmin.kc_event) :
  KeycloakAdmin.kc_sleeps (l ++ k) = KeycloakAdmin.kc_sleeps l ++ KeycloakAdmin.kc_sleeps k.
Proof. apply omap_app. Qed.

(** The sleeps of [create_stream]: none, or one of 5 seconds when the
    broker refused the connection, whatever [count] is. *)
Lemma create_stream_sleeps (producer : Producer) (room : str) (retry count : Z) (w : world) :
  sleeps (events (snd (create_stream producer room retry count w))) =
  sleeps (events w) ++
  (if negb (retry <=? count) && negb (whitespace_only room) &&
      bool_decide (create_stream_outcome producer (events w) room
                   = Some ConnectionRefusedError)
   then [5] else []).
Proof.
  rewrite create_stream_cases.
  destruct (retry <=? count); simpl; [now rewrite app_nil_r|].
  destruct (whitespace_only room); simpl; [now rewrite app_nil_r|].
  destruct (create_stream_outcome producer (events w) room) as [e|]; simpl.
  - destruct e; simpl; rewrite ?sleeps_app; simpl; now rewrite ?app_nil_r.
  - rewrite sleeps_app. simpl. now rewrite app_nil_r.
Qed.

(** C9, what the code does: every sleep of the gateway's [create_stream]
    lasts 5 seconds whatever the attempt counter, but the admin client's
    [_make_request_with_retry] never reaches its sleep of
    [retry_delay * 2 ** attempt] seconds: when an attempt ends in a
    connection failure, the [except] clause meant for it raises
    [TypeError], so the call ends after this one request, without any
    sleep or further attempt. *)
Theorem admin_retry_stops_at_connection_failure :
  (forall producer room retry count w,
     sleeps (events (snd (create_stream producer room retry count w))) =
     sleeps (events w) ++
     (if negb (retry <=? count) && negb (whitespace_only room) &&
         bool_decide (create_stream_outcome producer (events w) room
                      = Some ConnectionRefusedError)
      then [5] else [])) /\
  (forall max_retries url_has_user,
     1 <= max_retries ->
     KeycloakAdmin._make_request_with_retry max_retries url_has_user unreachable =
     (KeycloakAdmin.Propagated TypeError, [KeycloakAdmin.Request 0])) /\
  sleeps (events (snd (create_stream refusing (py "chat") 10 0 new_gateway))) = [5] /\
  sleeps (events (snd (create_stream refusing (py "chat") 10 7 new_gateway))) = [5] /\
  KeycloakAdmin._make_request_with_retry 3 false unreachable =
    (KeycloakAdmin.Propagated TypeError, [KeycloakAdmin.Request 0]) /\
  KeycloakAdmin.kc_sleeps
    (snd (KeycloakAdmin._make_request_with_retry 3 false unreachable)) = [].
Proof.
  split; [exact create_stream_sleeps|]. split; [|repeat split].
  intros max_retries url_has_user Hpos.
  unfold KeycloakAdmin._make_request_with_retry.
  destruct (Z.to_nat max_retries) as [|todo] eqn:Htodo; [lia|].
  reflexivity.
Qed.

(** ** The consume path *)

Lemma close_calls_app (l k : list event) :
  close_calls (l ++ k) = (close_calls l + close_calls k)%nat.
Proof. unfold close_calls. now rewrite filter_app, length_app. Qed.

Section ConsumeFacts.

Variable ChatMessage : Type.
Variable ParseFromString : bytes -> option ChatMessage.
Variable conn : ConsumerConn.
Variable room : str.

Local Abbreviation step := (consume_step ChatMessage ParseFromString conn room).
Local Abbreviation run := (consume_run ChatMessage ParseFromString conn room).

Lemma consume_run_snoc (g : generator ChatMessage) (tr : list consume_event)
  (ev : consume_event) :
  run g (tr ++ [ev]) = step (run g tr) ev.
Proof. unfold consume_run. now rewrite fold_left_app. Qed.

Lemma consume_run_app (g : generator ChatMessage) (tr1 tr2 : list consume_event) :
  run g (tr1 ++ tr2) = run (run g tr1) tr2.
Proof. unfold consume_run. now rewrite fold_left_app. Qed.

(** *** Leaving the body *)

(** Leaving through [finally] ends the generator, closes the consumer
    once if there is one, and changes nothing else. *)
Lemma finally_clause_spec (r : result unit) (g : generator ChatMessage) :
  exists r' evs,
    finally_clause ChatMessage conn r g =
      Generator ChatMessage (Finished r') (consumer g) (messages g) (blocked_puts g)
        (yielded g) (World (streams_status (gw g)) (events (gw g) ++ evs)) /\
    close_calls evs = (if consumer g then 1 else 0)%nat /\
    (forall e, close_outcome conn = Some e -> is_Exception e = true ->
       consumer g = true -> In (Log EXCEPTION (MsgErrorClosing e)) evs).
Proof.
  unfold finally_clause, gen_emit, set_phase.
  destruct g as [p c q bl y w]; cbn.
  destruct c; cbn.
  - destruct (close_outcome conn) as [e|]; [destruct (is_Exception e) eqn:He|];
      eexists _, _; rewrite <- ?app_assoc; (split; [reflexivity|]);
      (split; [reflexivity|]); intros e' Hclose He' _;
      [injection Hclose as <-; cbn; tauto | congruence | discriminate].
  - eexists _, _. split; [reflexivity|]. split; [reflexivity|]. discriminate.
Qed.

Lemma outer_except_spec (e : exn) (g : generator ChatMessage) :
  exists r' evs,
    outer_except ChatMessage conn e g =
      Generator ChatMessage (Finished r') (consumer g) (messages g) (blocked_puts g)
        (yielded g) (World (streams_status (gw g)) (events (gw g) ++ evs)) /\
    close_calls evs = (if consumer g then 1 else 0)%nat /\
    (forall e', close_outcome conn = Some e' -> is_Exception e' = true ->
       consumer g = true -> In (Log EXCEPTION (MsgErrorClosing e')) evs).
Proof.
  unfold outer_except. destruct (is_Exception e).
  - destruct (finally_clause_spec (Raise e)
                (gen_emit ChatMessage (Log EXCEPTION (MsgErrorConsume e)) g))
      as (r' & evs & Hfin & Hcalls & Hlog).
    rewrite Hfin. destruct g as [p c q bl y w]; cbn in *.
    exists r', (Log EXCEPTION (MsgErrorConsume e) :: evs).
    rewrite <- app_assoc. split; [reflexivity|]. split.
    + change (Log EXCEPTION (MsgErrorConsume e) :: evs)
        with ([Log EXCEPTION (MsgErrorConsume e)] ++ evs).
      rewrite close_calls_app, Hcalls. reflexivity.
    + intros e' Hclose He' Hc. right. now apply Hlog.
  - apply finally_clause_spec.
Qed.

Lemma inner_except_spec (e : exn) (g : generator ChatMessage) :
  exists r' evs,
    inner_except ChatMessage conn e g =
      Generator ChatMessage (Finished r') (consumer g) (messages g) (blocked_puts g)
        (yielded g) (World (streams_status (gw g)) (events (gw g) ++ evs)) /\
    close_calls evs = (if consumer g then 1 else 0)%nat /\
    (forall e', close_outcome conn = Some e' -> is_Exception e' = true ->
       consumer g = true -> In (Log EXCEPTION (MsgErrorClosing e')) evs).
Proof.
  assert (Hlogged : forall lvl msg,
    exists r' evs,
      finally_clause ChatMessage conn (Ret tt) (gen_emit ChatMessage (Log lvl msg) g) =
        Generator ChatMessage (Finished r') (consumer g) (messages g) (blocked_puts g)
          (yielded g) (World (streams_status (gw g)) (events (gw g) ++ evs)) /\
      close_calls evs = (if consumer g then 1 else 0)%nat /\
      (forall e', close_outcome conn = Some e' -> is_Exception e' = true ->
         consumer g = true -> In (Log EXCEPTION (MsgErrorClosing e')) evs)).
  { intros lvl msg.
    destruct (finally_clause_spec (Ret tt) (gen_emit ChatMessage (Log lvl msg) g))
      as (r' & evs & Hfin & Hcalls & Hlog).
    rewrite Hfin. destruct g as [p c q bl y w]; cbn in *.
    exists r', (Log lvl msg :: evs). rewrite <- app_assoc. split; [reflexivity|]. split.
    - change (Log lvl msg :: evs) with ([Log lvl msg] ++ evs).
      rewrite close_calls_app, Hcalls. reflexivity.
    - intros e' Hclose He' Hc. right. now apply Hlog. }
  unfold inner_except.
  destruct e; cbn [is_Exception]; auto using outer_except_spec.
Qed.

(** *** Inside the loop *)

Lemma get_and_yield_steady (g : generator ChatMessage) :
  unbounded g ->
  steady (get_and_yield ChatMessage g) /\
  yielded (get_and_yield ChatMessage g) ++ items (messages (get_and_yield ChatMessage g))
    = yielded g ++ items (messages g) /\
  gw (get_and_yield ChatMessage g) = gw g /\
  consumer (get_and_yield ChatMessage g) = consumer g.
Proof.
  intros [Hmax Hbl]. destruct g as [p c [mx its] bl y w]; cbn in *. subst mx bl.
  unfold get_and_yield, get_nowait, wake_putter, set_phase, steady, running, unbounded.
  destruct its as [|m its]; cbn.
  - repeat split; auto.
  - rewrite <- app_assoc. repeat split; auto; discriminate.
Qed.

Lemma on_message_unbounded (msg : bytes) (g : generator ChatMessage) :
  unbounded g ->
  on_message ChatMessage ParseFromString msg g =
    Generator ChatMessage (gen_phase g) (consumer g)
      (MkQueue 0 (items (messages g) ++ option_list (ParseFromString msg)))
      [] (yielded g)
      (World (streams_status (gw g)) (events (gw g) ++ parse_log ParseFromString msg)).
Proof.
  intros [Hmax Hbl]. destruct g as [p c [mx its] bl y [reg evs]]; cbn in *. subst mx bl.
  unfold on_message, parse_log, gen_emit, put_nowait, full.
  destruct (ParseFromString msg); cbn; now rewrite app_nil_r.
Qed.

(** One step of the caller or of the broker keeps the generator inside
    its loop, keeps the order of the decoded messages, and logs the
    messages that do not decode. *)
Lemma step_steady (g : generator ChatMessage) (ev : consume_event) :
  steady g ->
  match ev with Throw _ => False | _ => True end ->
  steady (step g ev) /\
  yielded (step g ev) ++ items (messages (step g ev)) =
    (yielded g ++ items (messages g)) ++
    match ev with Deliver msg => option_list (ParseFromString msg) | _ => [] end /\
  gw (step g ev) =
    World (streams_status (gw g))
      (events (gw g) ++
       match ev with Deliver msg => parse_log ParseFromString msg | _ => [] end) /\
  consumer (step g ev) = consumer g.
Proof.
  intros (Hrun & Hunb & Hget) Hev.
  destruct ev as [|msg|e]; [| |contradiction].
  - (* Anext *)
    rewrite !app_nil_r.
    assert (Hw : World (streams_status (gw g)) (events (gw g)) = gw g)
      by now destruct (gw g).
    rewrite Hw.
    destruct Hrun as [Hp|Hp]; unfold consume_step; rewrite Hp.
    + unfold steady, running. auto.
    + apply get_and_yield_steady. exact Hunb.
  - (* Deliver *)
    pose proof (on_message_unbounded msg g Hunb) as Hon.
    destruct Hrun as [Hp|Hp]; unfold consume_step; rewrite Hp; rewrite Hon, Hp.
    + rewrite (Hget Hp). cbn [messages items app].
      destruct (ParseFromString msg) as [m|] eqn:Hparse; cbn [option_list].
      * unfold get_and_yield, get_nowait, wake_putter. cbn.
        unfold steady, running, unbounded. cbn. rewrite !app_nil_r.
        repeat split; auto; discriminate.
      * unfold steady, running, unbounded. cbn. rewrite !app_nil_r.
        repeat split; auto.
    + unfold steady, running, unbounded. cbn. rewrite app_assoc.
      repeat split; auto; discriminate.
Qed.

Lemma run_steady (tr : list consume_event) :
  forall g : generator ChatMessage,
  steady g ->
  undisturbed tr ->
  steady (run g tr) /\
  yielded (run g tr) ++ items (messages (run g tr)) =
    (yielded g ++ items (messages g)) ++ omap ParseFromString (deliveries tr) /\
  gw (run g tr) =
    World (streams_status (gw g))
      (events (gw g) ++ concat (map (parse_log ParseFromString) (deliveries tr))) /\
  consumer (run g tr) = consumer g.
Proof.
  induction tr as [|ev tr IH]; intros g Hg Htr.
  - cbn. rewrite !app_nil_r. destruct (gw g); auto.
  - inversion Htr as [|? ? Hev Htr']; subst.
    destruct (step_steady g ev Hg Hev) as (Hs & Hord & Hgw & Hc).
    destruct (IH _ Hs Htr') as (Hs' & Hord' & Hgw' & Hc').
    change (run g (ev :: tr)) with (run (step g ev) tr).
    split; [exact Hs'|]. rewrite Hord', Hord, Hgw', Hgw, Hc', Hc. cbn [streams_status events].
    destruct ev as [|msg|e]; cbn; rewrite ?app_nil_r; auto.
    rewrite <- !app_assoc. repeat split; auto.
    f_equal. unfold option_list. destruct (ParseFromString msg); reflexivity.
Qed.

(** The caller pulls [k] times in a row: the queue drains in order. *)
Lemma drain (k : nat) :
  forall g : generator ChatMessage,
  steady g ->
  (length (items (messages g)) <= k)%nat ->
  yielded (run g (repeat Anext k)) = yielded g ++ items (messages g) /\
  items (messages (run g (repeat Anext k))) = [].
Proof.
  induction k as [|k IH]; intros g Hg Hlen.
  - cbn. destruct (items (messages g)); [|cbn in Hlen; lia].
    now rewrite app_nil_r.
  - change (run g (repeat Anext (S k))) with (run (step g Anext) (repeat Anext k)).
    destruct (step_steady g Anext Hg I) as (Hs & Hord & _).
    rewrite app_nil_r in Hord.
    destruct Hg as (Hrun & Hunb & Hget).
    assert (Hlen' : (length (items (messages (step g Anext))) <= k)%nat).
    { destruct Hrun as [Hp|Hp]; unfold consume_step; rewrite Hp.
      - rewrite (Hget Hp). cbn. lia.
      - destruct g as [p c [mx its] bl y w]. destruct Hunb as [Hmax Hbl].
        cbn in *. subst.
        unfold get_and_yield, get_nowait, wake_putter. destruct its; cbn in *; lia. }
    destruct (IH _ Hs Hlen') as [Hy Hi].
    rewrite Hy, Hi, Hord. auto.
Qed.

(** *** Any step *)

Lemma get_and_yield_gw (g : generator ChatMessage) :
  gw (get_and_yield ChatMessage g) = gw g /\
  consumer (get_and_yield ChatMessage g) = consumer g /\
  running (get_and_yield ChatMessage g) /\
  (unbounded g -> unbounded (get_and_yield ChatMessage g)).
Proof.
  destruct g as [p c [mx its] bl y w].
  unfold get_and_yield, get_nowait, wake_putter, set_phase, running, unbounded.
  destruct its as [|m its]; cbn; [tauto|].
  destruct bl as [|b bl]; cbn; [tauto|].
  destruct (put_nowait _ b); cbn; intuition discriminate.
Qed.

Lemma on_message_gw (msg : bytes) (g : generator ChatMessage) :
  gw (on_message ChatMessage ParseFromString msg g) =
    World (streams_status (gw g)) (events (gw g) ++ parse_log ParseFromString msg) /\
  consumer (on_message ChatMessage ParseFromString msg g) = consumer g /\
  gen_phase (on_message ChatMessage ParseFromString msg g) = gen_phase g /\
  (unbounded g -> unbounded (on_message ChatMessage ParseFromString msg g)).
Proof.
  split; [|split; [|split]].
  - unfold on_message, parse_log, gen_emit.
    destruct (ParseFromString msg); [|reflexivity].
    destruct (put_nowait _ _); cbn; rewrite app_nil_r; now destruct (gw g).
  - unfold on_message, gen_emit.
    destruct (ParseFromString msg); [|reflexivity]. now destruct (put_nowait _ _).
  - unfold on_message, gen_emit.
    destruct (ParseFromString msg); [|reflexivity]. now destruct (put_nowait _ _).
  - intros Hunb. rewrite (on_message_unbounded msg g Hunb). now split.
Qed.

Lemma parse_log_no_close (msg : bytes) : close_calls (parse_log ParseFromString msg) = O.
Proof. unfold parse_log. now destruct (ParseFromString msg). Qed.

Lemma exit_well_closed (reg : gmap str bool) (closed : nat)
  (g g' : generator ChatMessage) :
  streams_status (gw g) = reg ->
  close_calls (events (gw g)) = closed ->
  unbounded g ->
  (exists r' evs,
     g' = Generator ChatMessage (Finished r') (consumer g) (messages g) (blocked_puts g)
            (yielded g) (World (streams_status (gw g)) (events (gw g) ++ evs)) /\
     close_calls evs = (if consumer g then 1 else 0)%nat /\
     (forall e', close_outcome conn = Some e' -> is_Exception e' = true ->
        consumer g = true -> In (Log EXCEPTION (MsgErrorClosing e')) evs)) ->
  well_closed conn reg closed g'.
Proof.
  intros Hreg Hclosed Hunb (r' & evs & -> & Hcalls & Hlog).
  unfold well_closed.
  cbn [gw events streams_status gen_phase consumer messages blocked_puts].
  split; [exact Hreg|]. split; [discriminate|]. split.
  - now rewrite close_calls_app, Hclosed, Hcalls.
  - split; [|exact Hunb]. intros r e _ Hc Hclose He.
    apply in_or_app. right. now apply Hlog.
Qed.

Local Ltac no_close :=
  repeat match goal with
         | |- context [close_calls [?ev]] => change (close_calls [ev]) with O
         end.

Local Ltac gsimpl :=
  cbn [gw events streams_status gen_phase consumer messages blocked_puts yielded
       gen_emit set_phase].

Lemma step_well_closed (reg : gmap str bool) (closed : nat)
  (g : generator ChatMessage) (ev : consume_event) :
  well_closed conn reg closed g -> well_closed conn reg closed (step g ev).
Proof.
  intros (Hreg & Hnew & Hcalls & Hlog & Hunb).
  destruct (gen_phase g) eqn:Hp.
  - (* NotStarted *)
    specialize (Hnew eq_refl). rewrite Nat.add_0_r in Hcalls.
    unfold consume_step. rewrite Hp. destruct ev as [|msg|e].
    + unfold open_subscription.
      destruct (Consumer_outcome conn) as [e|].
      { apply (exit_well_closed reg closed g); auto using outer_except_spec. }
      destruct (start_outcome conn) as [e|].
      { match goal with |- well_closed _ _ _ (outer_except _ _ _ ?g1) =>
          apply (exit_well_closed reg closed g1); auto using outer_except_spec
        end.
        - gsimpl. rewrite close_calls_app, Hcalls. no_close. lia.
        - split; reflexivity. }
      destruct (subscribe_outcome conn) as [e|].
      { match goal with |- well_closed _ _ _ (outer_except _ _ _ ?g1) =>
          apply (exit_well_closed reg closed g1); auto using outer_except_spec
        end.
        - gsimpl. rewrite !close_calls_app, Hcalls. no_close. lia.
        - split; reflexivity. }
      match goal with |- well_closed _ _ _ (get_and_yield _ ?g1) =>
        destruct (get_and_yield_gw g1) as (Hgw & Hc & Hrun & Hunb')
      end.
      unfold well_closed. rewrite Hgw, Hc. gsimpl.
      split; [exact Hreg|]. split; [destruct Hrun as [-> | ->]; discriminate|].
      split.
      { rewrite !close_calls_app, Hcalls. no_close.
        destruct Hrun as [-> | ->]; lia. }
      split; [intros r e Hfin; destruct Hrun as [Hr|Hr]; congruence|].
      apply Hunb'. split; reflexivity.
    + unfold well_closed. rewrite Hp, Nat.add_0_r. tauto.
    + unfold well_closed. gsimpl. rewrite Hnew, Nat.add_0_r.
      repeat split; auto; try discriminate. apply Hunb. apply Hunb.
  - (* AwaitingGet *)
    rewrite Nat.add_0_r in Hcalls.
    unfold consume_step. rewrite Hp. destruct ev as [|msg|e].
    + unfold well_closed. rewrite Hp, Nat.add_0_r. repeat split; auto; try discriminate.
      apply Hunb. apply Hunb.
    + destruct (on_message_gw msg g) as (Hgw & Hc & Hph & Hunb').
      assert (Hon : well_closed conn reg closed (on_message ChatMessage ParseFromString msg g)).
      { unfold well_closed. rewrite Hgw, Hc, Hph, Hp. gsimpl.
        rewrite close_calls_app, parse_log_no_close, Hcalls.
        repeat split; auto; try discriminate; apply Hunb'; exact Hunb. }
      destruct (items (messages (on_message ChatMessage ParseFromString msg g)));
        [exact Hon|].
      destruct (get_and_yield_gw (on_message ChatMessage ParseFromString msg g))
        as (Hgw2 & Hc2 & Hrun & Hunb2).
      unfold well_closed. rewrite Hgw2, Hc2, Hgw, Hc. gsimpl.
      rewrite close_calls_app, parse_log_no_close, Hcalls.
      split; [exact Hreg|]. split; [destruct Hrun as [-> | ->]; discriminate|].
      split; [destruct Hrun as [-> | ->]; lia|].
      split; [intros r e Hfin; destruct Hrun as [Hr|Hr]; congruence|].
      apply Hunb2, Hunb', Hunb.
    + destruct e;
        try (unfold well_closed; rewrite Hp, Nat.add_0_r;
             repeat split; auto; try discriminate; apply Hunb).
      apply (exit_well_closed reg closed g); auto using inner_except_spec.
  - (* AtYield *)
    rewrite Nat.add_0_r in Hcalls.
    unfold consume_step. rewrite Hp. destruct ev as [|msg|e].
    + destruct (get_and_yield_gw g) as (Hgw & Hc & Hrun & Hunb').
      unfold well_closed. rewrite Hgw, Hc.
      split; [exact Hreg|]. split; [destruct Hrun as [-> | ->]; discriminate|].
      split; [destruct Hrun as [-> | ->]; lia|].
      split; [intros r e Hfin; destruct Hrun as [Hr|Hr]; congruence|].
      apply Hunb', Hunb.
    + destruct (on_message_gw msg g) as (Hgw & Hc & Hph & Hunb').
      unfold well_closed. rewrite Hgw, Hc, Hph, Hp. gsimpl.
      rewrite close_calls_app, parse_log_no_close, Hcalls.
      repeat split; auto; try discriminate; apply Hunb'; exact Hunb.
    + apply (exit_well_closed reg closed g); auto using inner_except_spec.
  - (* Finished *)
    assert (Hsame : step g ev = g) by (unfold consume_step; rewrite Hp; now destruct ev).
    rewrite Hsame. unfold well_closed. rewrite Hp. auto.
Qed.

Lemma run_well_closed (reg : gmap str bool) (closed : nat) (tr : list consume_event) :
  forall g : generator ChatMessage,
  well_closed conn reg closed g -> well_closed conn reg closed (run g tr).
Proof.
  induction tr as [|ev tr IH]; intros g Hg; [exact Hg|].
  apply (IH (step g ev)). now apply step_well_closed.
Qed.

Lemma consume_messages_well_closed (w : world) :
  well_closed conn (streams_status w) (close_calls (events w))
    (consume_messages ChatMessage w).
Proof.
  unfold well_closed, consume_messages, unbounded. cbn.
  rewrite Nat.add_0_r. repeat split; auto; discriminate.
Qed.

(** *** From the first pull on *)

Hypothesis Hctor : Consumer_outcome conn = None.
Hypothesis Hstart : start_outcome conn = None.
Hypothesis Hsubscribe : subscribe_outcome conn = None.

Lemma first_pull (w : world) :
  step (consume_messages ChatMessage w) Anext =
    Generator ChatMessage AwaitingGet true (Queue_new 0) [] []
      (World (streams_status w) (events w ++ [ConsumerStart; ConsumerSubscribe room])).
Proof.
  unfold consume_step, consume_messages, open_subscription. cbn.
  rewrite Hctor, Hstart, Hsubscribe. unfold get_and_yield, set_phase, gen_emit. cbn.
  now rewrite <- app_assoc.
Qed.

End ConsumeFacts.

(** ** Properties of the consume path *)

Lemma decoded_all {ChatMessage : Type} (ParseFromString : bytes -> option ChatMessage)
  (raw : list bytes) (msgs : list ChatMessage) :
  Forall2 (fun b m => ParseFromString b = Some m) raw msgs ->
  omap ParseFromString raw = msgs /\
  concat (map (parse_log ParseFromString) raw) = [].
Proof.
  induction 1 as [|b m raw msgs Hb _ [IH1 IH2]]; [split; reflexivity|].
  cbn. unfold parse_log at 1. rewrite Hb, IH1, IH2. cbn. auto.
Qed.

Lemma undisturbed_pulls (k : nat) : undisturbed (repeat Anext k).
Proof. unfold undisturbed. induction k; cbn; auto. Qed.

(** C4: the broker delivers N messages that decode, one that does not and
    M more that decode, while the caller pulls at its own pace.  The
    messages handed to the caller followed by those still queued are the
    N+M decoded messages in the order of delivery; the bad message only
    leaves one log line; the generator is still inside its loop and the
    consumer is not closed.  After N+M further pulls the caller has
    received exactly the N+M messages, in order. *)
Theorem consume_skips_malformed_in_order
  (ChatMessage : Type) (ParseFromString : bytes -> option ChatMessage)
  (conn : ConsumerConn) (room : str) (w : world)
  (good1 good2 : list bytes) (bad : bytes) (msgs1 msgs2 : list ChatMessage)
  (tr : list consume_event) :
  Consumer_outcome conn = None ->
  start_outcome conn = None ->
  subscribe_outcome conn = None ->
  Forall2 (fun b m => ParseFromString b = Some m) good1 msgs1 ->
  ParseFromString bad = None ->
  Forall2 (fun b m => ParseFromString b = Some m) good2 msgs2 ->
  undisturbed tr ->
  deliveries tr = good1 ++ bad :: good2 ->
  let g := consume_run ChatMessage ParseFromString conn room
             (consume_messages ChatMessage w) (Anext :: tr) in
  let g' := consume_run ChatMessage ParseFromString conn room g
              (repeat Anext (length good1 + length good2)) in
  yielded g ++ items (messages g) = msgs1 ++ msgs2 /\
  running g /\
  events (gw g) =
    events w ++ [ConsumerStart; ConsumerSubscribe room; Log EXCEPTION MsgErrorParsing] /\
  yielded g' = msgs1 ++ msgs2 /\
  length (yielded g') = (length good1 + length good2)%nat /\
  running g' /\
  events (gw g') = events (gw g).
Proof.
  intros Hctor Hstart Hsub Hgood1 Hbad Hgood2 Htr Hdel g g'.
  pose (g0 := consume_step ChatMessage ParseFromString conn room
                (consume_messages ChatMessage w) Anext).
  assert (Hg : g = consume_run ChatMessage ParseFromString conn room g0 tr)
    by reflexivity.
  assert (Hg0 : g0 = Generator ChatMessage AwaitingGet true (Queue_new 0) [] []
                       (World (streams_status w)
                          (events w ++ [ConsumerStart; ConsumerSubscribe room])))
    by (apply first_pull; assumption).
  assert (Hg' : g' = consume_run ChatMessage ParseFromString conn room g
                       (repeat Anext (length good1 + length good2)))
    by reflexivity.
  clearbody g' g g0.
  assert (Hfirst : steady g0).
  { rewrite Hg0. unfold steady, running, unbounded. cbn. auto. }
  destruct (run_steady ChatMessage ParseFromString conn room tr g0 Hfirst Htr)
    as (Hsteady & Hord & Hgw & _).
  rewrite <- Hg in Hsteady, Hord, Hgw.
  rewrite Hg0 in Hord, Hgw. cbn in Hord, Hgw.
  destruct (decoded_all ParseFromString good1 msgs1 Hgood1) as [Hdec1 Hlog1].
  destruct (decoded_all ParseFromString good2 msgs2 Hgood2) as [Hdec2 Hlog2].
  assert (Hdecoded : omap ParseFromString (deliveries tr) = msgs1 ++ msgs2).
  { rewrite Hdel, omap_app. cbn. now rewrite Hbad, Hdec1, Hdec2. }
  assert (Hlogged : concat (map (parse_log ParseFromString) (deliveries tr)) =
                    [Log EXCEPTION MsgErrorParsing]).
  { rewrite Hdel, map_app, concat_app. cbn. rewrite Hlog1, Hlog2. cbn.
    unfold parse_log. now rewrite Hbad. }
  rewrite Hdecoded in Hord. rewrite Hlogged in Hgw.
  assert (Hlen : length (msgs1 ++ msgs2) = (length good1 + length good2)%nat).
  { rewrite length_app.
    now rewrite (Forall2_length _ _ _ Hgood1), (Forall2_length _ _ _ Hgood2). }
  assert (Hqueued : (length (items (messages g)) <= length good1 + length good2)%nat).
  { rewrite <- Hlen, <- Hord, length_app. lia. }
  destruct (drain ChatMessage ParseFromString conn room _ g Hsteady Hqueued)
    as [Hall _].
  rewrite <- Hg' in Hall.
  destruct (run_steady ChatMessage ParseFromString conn room
              (repeat Anext (length good1 + length good2)) g Hsteady
              (undisturbed_pulls _)) as (Hsteady' & _ & Hgw' & _).
  rewrite <- Hg' in Hsteady', Hgw'.
  split; [exact Hord|]. split; [apply Hsteady|].
  split; [rewrite Hgw; cbn; now rewrite <- app_assoc|].
  split; [now rewrite Hall|]. split; [now rewrite Hall, Hord|].
  split; [apply Hsteady'|].
  rewrite Hgw'. cbn.
  assert (Hnone : deliveries (repeat Anext (length good1 + length good2)) = []).
  { generalize (length good1 + length good2)%nat. intros k. induction k; cbn; auto. }
  rewrite Hnone. cbn. now rewrite app_nil_r.
Qed.

Lemma consume_skips_malformed_in_order_witness :
  yielded
    (consume_run bytes nonempty_payload healthy (py "chat")
       (consume_run bytes nonempty_payload healthy (py "chat")
          (consume_messages bytes new_gateway)
          [Anext; Deliver [Byte.x01]; Anext; Deliver []; Deliver [Byte.x02]])
       (repeat Anext 2)) = [[Byte.x01]; [Byte.x02]].
Proof.
  pose proof (consume_skips_malformed_in_order bytes nonempty_payload healthy (py "chat")
                new_gateway [[Byte.x01]] [[Byte.x02]] [] [[Byte.x01]] [[Byte.x02]]
                [Deliver [Byte.x01]; Anext; Deliver []; Deliver [Byte.x02]]
                eq_refl eq_refl eq_refl) as H.
  cbv zeta in H.
  destruct H as (_ & _ & _ & Hall & _).
  - repeat constructor.
  - reflexivity.
  - repeat constructor.
  - repeat constructor.
  - reflexivity.
  - exact Hall.
Defined.

(** C2 as stated fails: the queue of [consume_messages] is [Queue()], whose
    capacity is infinite: it is never full, and with a caller that does not
    pull, its length exceeds every bound. *)
Lemma consume_queue_exceeds_every_bound :
  full (messages
          (consume_run bytes Some healthy (py "chat") (consume_messages bytes new_gateway)
             (Anext :: repeat (Deliver []) 1000))) = false /\
  ~ (exists bound : nat, forall n : nat,
       (length (items (messages
          (consume_run bytes Some healthy (py "chat") (consume_messages bytes new_gateway)
             (Anext :: repeat (Deliver []) n)))) <= bound)%nat).
Proof.
  assert (Hgrow : forall n,
    consume_run bytes Some healthy (py "chat") (consume_messages bytes new_gateway)
      (Anext :: repeat (Deliver []) (S n)) =
    Generator bytes AtYield true (MkQueue 0 (repeat [] n)) [] [[]]
      (World ∅ [ConsumerStart; ConsumerSubscribe (py "chat")])).
  { assert (Hqueue : forall n its,
      consume_run bytes Some healthy (py "chat")
        (Generator bytes AtYield true (MkQueue 0 its) [] [[]]
           (World ∅ [ConsumerStart; ConsumerSubscribe (py "chat")]))
        (repeat (Deliver []) n) =
      Generator bytes AtYield true (MkQueue 0 (its ++ repeat [] n)) [] [[]]
        (World ∅ [ConsumerStart; ConsumerSubscribe (py "chat")])).
    { induction n as [|n IH]; intros its; cbn [repeat].
      - now rewrite app_nil_r.
      - change (consume_run bytes Some healthy (py "chat") ?g (?ev :: ?tr))
          with (consume_run bytes Some healthy (py "chat")
                  (consume_step bytes Some healthy (py "chat") g ev) tr).
        cbn [consume_step gen_phase]. unfold on_message, put_nowait, full.
        cbn -[consume_run]. rewrite IH, <- app_assoc. reflexivity. }
    intros n. exact (Hqueue n []). }
  split.
  - now rewrite Hgrow.
  - intros [bound Hbound]. specialize (Hbound (S (S bound))).
    rewrite Hgrow in Hbound. cbn [messages items] in Hbound.
    rewrite repeat_length in Hbound. lia.
Qed.

(** C2, amended: the internal queue is an [asyncio.Queue] without capacity
    limit.  At any time it is not full and no callback is suspended in
    [put]: the callback never blocks.  No decoded message is dropped either:
    while nothing is thrown into the generator, the messages handed to the
    caller followed by the queued ones are all the delivered messages that
    decode, in order, so the queue holds whatever the caller has not pulled
    yet. *)
Theorem consume_queue_never_blocks
  (ChatMessage : Type) (ParseFromString : bytes -> option ChatMessage)
  (conn : ConsumerConn) (room : str) (w : world) (tr : list consume_event) :
  let g := consume_run ChatMessage ParseFromString conn room
             (consume_messages ChatMessage w) tr in
  let g1 := consume_run ChatMessage ParseFromString conn room
              (consume_messages ChatMessage w) (Anext :: tr) in
  (maxsize (messages g) = 0 /\ full (messages g) = false /\ blocked_puts g = []) /\
  (Consumer_outcome conn = None ->
   start_outcome conn = None ->
   subscribe_outcome conn = None ->
   undisturbed tr ->
   running g1 /\
   yielded g1 ++ items (messages g1) = omap ParseFromString (deliveries tr)).
Proof.
  intros g g1. split.
  - destruct (run_well_closed ChatMessage ParseFromString conn room _ _ tr _
                (consume_messages_well_closed ChatMessage conn w))
      as (_ & _ & _ & _ & Hmax & Hbl).
    fold g in Hmax, Hbl. unfold full. rewrite Hmax. auto.
  - intros Hctor Hstart Hsub Htr.
    pose (g0 := consume_step ChatMessage ParseFromString conn room
                  (consume_messages ChatMessage w) Anext).
    assert (Hg : g1 = consume_run ChatMessage ParseFromString conn room g0 tr)
      by reflexivity.
    assert (Hg0 : g0 = Generator ChatMessage AwaitingGet true (Queue_new 0) [] []
                         (World (streams_status w)
                            (events w ++ [ConsumerStart; ConsumerSubscribe room])))
      by (apply first_pull; assumption).
    clearbody g1 g0.
    assert (Hfirst : steady g0).
    { rewrite Hg0. unfold steady, running, unbounded. cbn. auto. }
    destruct (run_steady ChatMessage ParseFromString conn room tr g0 Hfirst Htr)
      as (Hsteady & Hord & _).
    rewrite <- Hg in Hsteady, Hord. rewrite Hg0 in Hord. cbn in Hord.
    split; [apply Hsteady | exact Hord].
Qed.

(** *** Every way out of the body *)

Lemma close_error_logs_app (l k : list event) :
  close_error_logs (l ++ k) = (close_error_logs l + close_error_logs k)%nat.
Proof. unfold close_error_logs. now rewrite List.filter_app, length_app. Qed.

Section ConsumeExits.

Variable ChatMessage : Type.
Variable ParseFromString : bytes -> option ChatMessage.
Variable conn : ConsumerConn.
Variable room : str.

Local Abbreviation step := (consume_step ChatMessage ParseFromString conn room).
Local Abbreviation run := (consume_run ChatMessage ParseFromString conn room).

Lemma finally_clause_result (r : result unit) (g : generator ChatMessage) :
  gen_phase (finally_clause ChatMessage conn r g) =
  Finished (match close_outcome conn with
            | Some e => if consumer g && negb (is_Exception e) then Raise e else r
            | None => r
            end).
Proof.
  unfold finally_clause, gen_emit, set_phase.
  destruct g as [p c q bl y w]; cbn.
  destruct c; cbn; [|now destruct (close_outcome conn)].
  destruct (close_outcome conn) as [e|]; [|reflexivity].
  now destruct (is_Exception e).
Qed.

Lemma outer_except_result (e : exn) (g : generator ChatMessage) :
  gen_phase (outer_except ChatMessage conn e g) =
  Finished (match close_outcome conn with
            | Some e' => if consumer g && negb (is_Exception e') then Raise e' else Raise e
            | None => Raise e
            end).
Proof.
  unfold outer_except.
  destruct (is_Exception e); rewrite finally_clause_result; now destruct g.
Qed.

Lemma inner_except_result (e : exn) (g : generator ChatMessage) :
  gen_phase (inner_except ChatMessage conn e g) =
  Finished (match close_outcome conn with
            | Some e' =>
                if consumer g && negb (is_Exception e') then Raise e' else loop_exit e
            | None => loop_exit e
            end).
Proof.
  unfold inner_except, loop_exit.
  destruct e; cbn [is_Exception];
    rewrite ?outer_except_result, ?finally_clause_result; now destruct g.
Qed.

(** The [finally] clause calls [close] once when there is a consumer, and
    logs its failure when it raises an [Exception]. *)
Lemma finally_clause_exit (r : result unit) (g : generator ChatMessage) :
  exists r' evs,
    finally_clause ChatMessage conn r g =
      Generator ChatMessage (Finished r') (consumer g) (messages g) (blocked_puts g)
        (yielded g) (World (streams_status (gw g)) (events (gw g) ++ evs)) /\
    close_calls evs = (if consumer g then 1 else 0)%nat /\
    close_error_logs evs = (if consumer g && close_fails conn then 1 else 0)%nat.
Proof.
  unfold finally_clause, gen_emit, set_phase, close_fails.
  destruct g as [p c q bl y w]; cbn.
  destruct c; cbn.
  - destruct (close_outcome conn) as [e|]; [destruct (is_Exception e) eqn:He|];
      eexists _, _; rewrite <- ?app_assoc; (split; [reflexivity|]);
      split; reflexivity.
  - eexists _, _. split; [reflexivity|]. split; reflexivity.
Qed.

Lemma logged_then_finally_exit (lvl : level) (msg : log_msg) (r : result unit)
  (g : generator ChatMessage) :
  match msg with MsgErrorClosing _ => False | _ => True end ->
  exists r' evs,
    finally_clause ChatMessage conn r (gen_emit ChatMessage (Log lvl msg) g) =
      Generator ChatMessage (Finished r') (consumer g) (messages g) (blocked_puts g)
        (yielded g) (World (streams_status (gw g)) (events (gw g) ++ evs)) /\
    close_calls evs = (if consumer g then 1 else 0)%nat /\
    close_error_logs evs = (if consumer g && close_fails conn then 1 else 0)%nat.
Proof.
  intros Hmsg.
  destruct (finally_clause_exit r (gen_emit ChatMessage (Log lvl msg) g))
    as (r' & evs & Hfin & Hcalls & Hlogs).
  rewrite Hfin. destruct g as [p c q bl y w]; cbn in *.
  exists r', ([Log lvl msg] ++ evs). rewrite <- app_assoc. split; [reflexivity|].
  rewrite close_calls_app, close_error_logs_app, Hcalls, Hlogs.
  split; [reflexivity|].
  destruct msg; try contradiction; destruct lvl; reflexivity.
Qed.

Lemma outer_except_exit (e : exn) (g : generator ChatMessage) :
  exists r' evs,
    outer_except ChatMessage conn e g =
      Generator ChatMessage (Finished r') (consumer g) (messages g) (blocked_puts g)
        (yielded g) (World (streams_status (gw g)) (events (gw g) ++ evs)) /\
    close_calls evs = (if consumer g then 1 else 0)%nat /\
    close_error_logs evs = (if consumer g && close_fails conn then 1 else 0)%nat.
Proof.
  unfold outer_except. destruct (is_Exception e).
  - apply logged_then_finally_exit. exact I.
  - apply finally_clause_exit.
Qed.

Lemma inner_except_exit (e : exn) (g : generator ChatMessage) :
  exists r' evs,
    inner_except ChatMessage conn e g =
      Generator ChatMessage (Finished r') (consumer g) (messages g) (blocked_puts g)
        (yielded g) (World (streams_status (gw g)) (events (gw g) ++ evs)) /\
    close_calls evs = (if consumer g then 1 else 0)%nat /\
    close_error_logs evs = (if consumer g && close_fails conn then 1 else 0)%nat.
Proof.
  unfold inner_except.
  destruct e; cbn [is_Exception];
    match goal with
    | |- context [outer_except] => apply outer_except_exit
    | |- _ => apply logged_then_finally_exit; exact I
    end.
Qed.

Lemma parse_log_no_close_error (msg : bytes) :
  close_error_logs (parse_log ParseFromString msg) = O.
Proof. unfold parse_log. now destruct (ParseFromString msg). Qed.

(** The generator is inside its loop, with its consumer. *)
Let opened (g : generator ChatMessage) : Prop := running g /\ consumer g = true.

(** What a step does to [g]: it stays in the loop and nothing is closed,
    or it ends and [close] is called once. *)
Let stays_or_exits (g g' : generator ChatMessage) : Prop :=
  streams_status (gw g') = streams_status (gw g) /\
  ((opened g' /\
    close_calls (events (gw g')) = close_calls (events (gw g)) /\
    close_error_logs (events (gw g')) = close_error_logs (events (gw g))) \/
   (ended g' = true /\
    close_calls (events (gw g')) = S (close_calls (events (gw g))) /\
    close_error_logs (events (gw g')) =
      (close_error_logs (events (gw g)) + (if close_fails conn then 1 else 0))%nat)).

Lemma exit_from_loop (g g' : generator ChatMessage) :
  opened g ->
  (exists r' evs,
     g' = Generator ChatMessage (Finished r') (consumer g) (messages g) (blocked_puts g)
            (yielded g) (World (streams_status (gw g)) (events (gw g) ++ evs)) /\
     close_calls evs = (if consumer g then 1 else 0)%nat /\
     close_error_logs evs = (if consumer g && close_fails conn then 1 else 0)%nat) ->
  stays_or_exits g g'.
Proof.
  intros [_ Hc] (r' & evs & -> & Hcalls & Hlogs). rewrite Hc in Hcalls, Hlogs.
  split; [reflexivity|]. right. cbn [gw events streams_status].
  rewrite close_calls_app, close_error_logs_app, Hcalls, Hlogs. cbn [andb].
  split; [reflexivity|]. split; [lia | reflexivity].
Qed.

Lemma stay_in_loop (g g' : generator ChatMessage) (evs : list event) :
  opened g' ->
  gw g' = World (streams_status (gw g)) (events (gw g) ++ evs) ->
  close_calls evs = O ->
  close_error_logs evs = O ->
  stays_or_exits g g'.
Proof.
  intros Hopen Hgw Hcalls Hlogs. split; [now rewrite Hgw|]. left.
  rewrite Hgw. cbn [events]. rewrite close_calls_app, close_error_logs_app, Hcalls, Hlogs.
  split; [exact Hopen|]. split; lia.
Qed.

Lemma gw_unchanged (g : generator ChatMessage) :
  gw g = World (streams_status (gw g)) (events (gw g) ++ []).
Proof. rewrite app_nil_r. now destruct (gw g). Qed.

Lemma step_opened (g : generator ChatMessage) (ev : consume_event) :
  opened g -> stays_or_exits g (step g ev).
Proof.
  intros Hopen. pose proof Hopen as [Hrun Hc].
  assert (Hsame : stays_or_exits g g)
    by (apply (stay_in_loop g g []); auto using gw_unchanged).
  assert (Hpull : forall g1 evs,
            consumer g1 = true ->
            gw g1 = World (streams_status (gw g)) (events (gw g) ++ evs) ->
            close_calls evs = O -> close_error_logs evs = O ->
            stays_or_exits g (get_and_yield ChatMessage g1)).
  { intros g1 evs Hc1 Hgw1 Hcalls Hlogs.
    destruct (get_and_yield_gw ChatMessage g1) as (Hgw & Hcons & Hrun1 & _).
    apply (stay_in_loop g _ evs); auto.
    - split; [exact Hrun1 | now rewrite Hcons].
    - now rewrite Hgw. }
  assert (Hon : forall msg,
            let g1 := on_message ChatMessage ParseFromString msg g in
            gw g1 = World (streams_status (gw g))
                      (events (gw g) ++ parse_log ParseFromString msg) /\
            consumer g1 = true /\ gen_phase g1 = gen_phase g).
  { intros msg g1. subst g1.
    destruct (on_message_gw ChatMessage ParseFromString msg g) as (Hgw & Hcons & Hph & _).
    split; [exact Hgw|]. split; [now rewrite Hcons | exact Hph]. }
  unfold consume_step.
  destruct Hrun as [Hp|Hp]; rewrite Hp; destruct ev as [|msg|e].
  - exact Hsame.
  - destruct (Hon msg) as (Hgw & Hcons & Hph).
    destruct (items (messages (on_message ChatMessage ParseFromString msg g))).
    + apply (stay_in_loop g _ (parse_log ParseFromString msg)); auto.
      * split; [left; now rewrite Hph | exact Hcons].
      * apply (parse_log_no_close ChatMessage ParseFromString).
      * apply parse_log_no_close_error.
    + apply (Hpull _ (parse_log ParseFromString msg)); auto.
      * apply (parse_log_no_close ChatMessage ParseFromString).
      * apply parse_log_no_close_error.
  - destruct e; try exact Hsame.
    apply exit_from_loop; [exact Hopen | apply inner_except_exit].
  - apply (Hpull g []); auto using gw_unchanged.
  - destruct (Hon msg) as (Hgw & Hcons & Hph).
    apply (stay_in_loop g _ (parse_log ParseFromString msg)); auto.
    + split; [right; now rewrite Hph | exact Hcons].
    + apply (parse_log_no_close ChatMessage ParseFromString).
    + apply parse_log_no_close_error.
  - apply exit_from_loop; [exact Hopen | apply inner_except_exit].
Qed.

Lemma run_ended (tr : list consume_event) (g : generator ChatMessage) :
  ended g = true -> run g tr = g.
Proof.
  intros Hend. induction tr as [|ev tr IH]; [reflexivity|].
  change (run g (ev :: tr)) with (run (step g ev) tr).
  assert (Hstep : step g ev = g).
  { unfold consume_step. unfold ended in Hend.
    destruct (gen_phase g); try discriminate. now destruct ev. }
  now rewrite Hstep.
Qed.

(** From inside the loop, whatever comes: [close] is called once the
    generator has ended and not before. *)
Lemma run_opened (tr : list consume_event) :
  forall g : generator ChatMessage,
  opened g ->
  let g' := run g tr in
  streams_status (gw g') = streams_status (gw g) /\
  close_calls (events (gw g')) =
    (close_calls (events (gw g)) + (if ended g' then 1 else 0))%nat /\
  close_error_logs (events (gw g')) =
    (close_error_logs (events (gw g)) +
     (if ended g' && close_fails conn then 1 else 0))%nat /\
  (ended g' = false -> opened g').
Proof.
  induction tr as [|ev tr IH]; intros g Hopen g'.
  - subst g'. cbn [consume_run fold_left].
    assert (Hnot : ended g = false).
    { unfold ended. destruct Hopen as [[-> | ->] _]; reflexivity. }
    rewrite Hnot. cbn. split; [reflexivity|]. split; [lia|]. split; [lia|]. auto.
  - subst g'. change (run g (ev :: tr)) with (run (step g ev) tr).
    destruct (step_opened g ev Hopen) as [Hreg [(Hopen' & Hcalls & Hlogs)|(Hend & Hcalls & Hlogs)]].
    + destruct (IH _ Hopen') as (Hreg' & Hcalls' & Hlogs' & Hstill).
      rewrite Hreg', Hcalls', Hlogs', Hreg, Hcalls, Hlogs. auto.
    + rewrite (run_ended tr _ Hend), Hend, Hcalls, Hlogs. cbn.
      split; [exact Hreg|]. split; [lia|]. split; [reflexivity|]. discriminate.
Qed.

(** From the call on. *)
Lemma run_from_call (w : world) (tr : list consume_event) :
  let g := run (consume_messages ChatMessage w) tr in
  streams_status (gw g) = streams_status w /\
  close_calls (events (gw g)) = (close_calls (events w) + closes_due conn tr g)%nat /\
  close_error_logs (events (gw g)) =
    (close_error_logs (events w) + (if close_fails conn then closes_due conn tr g else 0))%nat /\
  (running g -> opened g).
Proof.
  assert (Hzero : forall n : nat, (n + (if close_fails conn then 0 else 0))%nat = n)
    by (intros n; destruct (close_fails conn); lia).
  induction tr as [|ev tr IH]; intros g.
  - subst g. unfold closes_due. cbn. rewrite Hzero, Nat.add_0_r.
    split; [reflexivity|]. split; [reflexivity|]. split; [reflexivity|].
    intros [Hp|Hp]; discriminate Hp.
  - destruct ev as [|msg|e].
    + (* the first pull *)
      subst g.
      change (run (consume_messages ChatMessage w) (Anext :: tr))
        with (run (step (consume_messages ChatMessage w) Anext) tr).
      unfold closes_due. cbn [entered andb].
      assert (Hfinal : forall g1 r' evs (c : bool),
        g1 = Generator ChatMessage (Finished r') c (Queue_new 0) [] []
               (World (streams_status w) (events w ++ evs)) ->
        close_calls evs = (if constructed conn then 1 else 0)%nat ->
        close_error_logs evs = (if constructed conn && close_fails conn then 1 else 0)%nat ->
        let g := run g1 tr in
        streams_status (gw g) = streams_status w /\
        close_calls (events (gw g)) =
          (close_calls (events w) + (if constructed conn && ended g then 1 else 0))%nat /\
        close_error_logs (events (gw g)) =
          (close_error_logs (events w) +
           (if close_fails conn then (if constructed conn && ended g then 1 else 0) else 0))%nat /\
        (running g -> opened g)).
      { intros g1 r' evs c -> Hcalls Hlogs g. subst g.
        rewrite run_ended by reflexivity. cbn [gw events streams_status].
        unfold ended. cbn [gen_phase].
        rewrite close_calls_app, close_error_logs_app, Hcalls, Hlogs, andb_true_r.
        split; [reflexivity|]. split; [reflexivity|].
        split; [now destruct (constructed conn), (close_fails conn)|].
        intros [Hp|Hp]; discriminate Hp. }
      assert (Hstep : step (consume_messages ChatMessage w) Anext =
                      open_subscription ChatMessage conn room (consume_messages ChatMessage w))
        by reflexivity.
      rewrite Hstep. clear Hstep.
      unfold open_subscription.
      destruct (Consumer_outcome conn) as [e|] eqn:Hctor.
      { assert (Hk : constructed conn = false) by (unfold constructed; now rewrite Hctor).
        rewrite Hk in *.
        destruct (outer_except_exit e (consume_messages ChatMessage w))
          as (r' & evs & Hout & Hcalls & Hlogs).
        rewrite Hout.
        apply (Hfinal _ r' evs false); [reflexivity | exact Hcalls | exact Hlogs]. }
      assert (Hk : constructed conn = true) by (unfold constructed; now rewrite Hctor).
      rewrite Hk in *.
      destruct (start_outcome conn) as [e|].
      { match goal with |- context [outer_except _ _ e ?g1] =>
          destruct (outer_except_exit e g1) as (r' & evs & Hout & Hcalls & Hlogs)
        end.
        rewrite Hout.
        cbn [consumer andb] in Hcalls, Hlogs.
        apply (Hfinal _ r' ([ConsumerStart] ++ evs) true).
        - cbn. now rewrite <- app_assoc.
        - now rewrite close_calls_app, Hcalls.
        - now rewrite close_error_logs_app, Hlogs. }
      destruct (subscribe_outcome conn) as [e|].
      { match goal with |- context [outer_except _ _ e ?g1] =>
          destruct (outer_except_exit e g1) as (r' & evs & Hout & Hcalls & Hlogs)
        end.
        rewrite Hout.
        cbn [consumer andb gen_emit] in Hcalls, Hlogs.
        apply (Hfinal _ r' ([ConsumerStart; ConsumerSubscribe room] ++ evs) true).
        - cbn. now rewrite <- !app_assoc.
        - now rewrite close_calls_app, Hcalls.
        - now rewrite close_error_logs_app, Hlogs. }
      match goal with |- context [get_and_yield _ ?g1] =>
        destruct (get_and_yield_gw ChatMessage g1) as (Hgw & Hcons & Hrun & _);
        set (g2 := get_and_yield ChatMessage g1) in *
      end.
      assert (Hopen : opened g2) by (split; [exact Hrun | now rewrite Hcons]).
      destruct (run_opened tr g2 Hopen) as (Hreg' & Hcalls' & Hlogs' & Hstill).
      rewrite Hreg', Hcalls', Hlogs', Hgw.
      cbn [gw events streams_status gen_emit consume_messages].
      rewrite !close_calls_app, !close_error_logs_app.
      change (close_calls [ConsumerStart]) with O.
      change (close_calls [ConsumerSubscribe room]) with O.
      change (close_error_logs [ConsumerStart]) with O.
      change (close_error_logs [ConsumerSubscribe room]) with O.
      rewrite !Nat.add_0_r.
      split; [reflexivity|]. split; [reflexivity|].
      split; [now destruct (ended (run g2 tr)), (close_fails conn)|].
      intros Hrunning. apply Hstill. unfold ended.
      destruct Hrunning as [-> | ->]; reflexivity.
    + (* a delivery before the body is entered *)
      subst g.
      change (run (consume_messages ChatMessage w) (Deliver msg :: tr))
        with (run (consume_messages ChatMessage w) tr).
      exact IH.
    + (* an exception thrown before the body is entered *)
      subst g.
      change (run (consume_messages ChatMessage w) (Throw e :: tr))
        with (run (set_phase ChatMessage (Finished (Raise e)) (consume_messages ChatMessage w)) tr).
      rewrite run_ended by reflexivity.
      unfold closes_due. cbn. rewrite Hzero, Nat.add_0_r.
      split; [reflexivity|]. split; [reflexivity|]. split; [reflexivity|].
      intros [Hp|Hp]; discriminate Hp.
Qed.

End ConsumeExits.

(** C5 as stated fails: when the task is cancelled while the consumer is
    being closed, the [CancelledError] of [close] is neither logged nor
    caught.  Here an error thrown at the [yield] would end the generator
    normally; with the interrupted [close] it ends with [CancelledError]
    instead. *)
Lemma consume_cancelled_close_masks_exit :
  gen_phase
    (consume_run bytes nonempty_payload healthy (py "chat")
       (consume_messages bytes new_gateway)
       [Anext; Deliver [Byte.x01]; Throw (OtherException 7)]) = Finished (Ret tt) /\
  gen_phase
    (consume_run bytes nonempty_payload close_cancelled (py "chat")
       (consume_messages bytes new_gateway)
       [Anext; Deliver [Byte.x01]; Throw (OtherException 7)])
    = Finished (Raise CancelledError) /\
  close_calls
    (events (gw (consume_run bytes nonempty_payload close_cancelled (py "chat")
                   (consume_messages bytes new_gateway)
                   [Anext; Deliver [Byte.x01]; Throw (OtherException 7)]))) = 1%nat /\
  close_error_logs
    (events (gw (consume_run bytes nonempty_payload close_cancelled (py "chat")
                   (consume_messages bytes new_gateway)
                   [Anext; Deliver [Byte.x01]; Throw (OtherException 7)]))) = 0%nat.
Proof. repeat split; reflexivity. Qed.

(** C5, amended.  For every schedule of pulls, deliveries and thrown
    exceptions and every consumer connection: [close] has been called
    exactly once when the body was entered with a consumer constructed and
    has been left, and it has not been called otherwise (not while the
    generator is in its loop, not when the constructor failed, not when the
    body was never entered); the Registry is as it was.  A failure of
    [close] that is an [Exception] is logged once and leaves the way the
    generator ends as it is ([after_close]): a cancellation or an
    [Exception] raised in the loop ends it normally, any other exception and
    a failure while opening end it with that exception.  An exception of
    [close] that is not an [Exception] is not caught and is what the
    generator ends with. *)
Theorem consume_closes_consumer_once
  (ChatMessage : Type) (ParseFromString : bytes -> option ChatMessage)
  (conn : ConsumerConn) (room : str) (w : world) (tr : list consume_event) :
  let g := consume_run ChatMessage ParseFromString conn room
             (consume_messages ChatMessage w) tr in
  streams_status (gw g) = streams_status w /\
  close_calls (events (gw g)) = (close_calls (events w) + closes_due conn tr g)%nat /\
  close_error_logs (events (gw g)) =
    (close_error_logs (events w) +
     (if close_fails conn then closes_due conn tr g else 0))%nat /\
  (forall e,
     running g -> deliverable g e ->
     gen_phase (consume_step ChatMessage ParseFromString conn room g (Throw e)) =
     Finished (after_close conn (loop_exit e))) /\
  (forall e,
     opening_failure conn = Some e ->
     gen_phase (consume_step ChatMessage ParseFromString conn room
                  (consume_messages ChatMessage w) Anext) =
     Finished (if constructed conn then after_close conn (Raise e) else Raise e)).
Proof.
  intros g.
  destruct (run_from_call ChatMessage ParseFromString conn room w tr)
    as (Hreg & Hcalls & Hlogs & Hopen).
  fold g in Hreg, Hcalls, Hlogs, Hopen.
  split; [exact Hreg|]. split; [exact Hcalls|]. split; [exact Hlogs|]. split.
  - intros e Hrun Hdeliv.
    destruct (Hopen Hrun) as [_ Hc].
    assert (Hstep : consume_step ChatMessage ParseFromString conn room g (Throw e) =
                    inner_except ChatMessage conn e g).
    { unfold consume_step.
      destruct Hdeliv as [-> | [-> ->]]; reflexivity. }
    rewrite Hstep, inner_except_result, Hc. unfold after_close.
    destruct (close_outcome conn) as [e'|]; [|reflexivity].
    now destruct (is_Exception e').
  - intros e Hfail.
    unfold consume_step, consume_messages, open_subscription, opening_failure, constructed in *.
    cbn [gen_phase].
    destruct (Consumer_outcome conn) as [e0|].
    { injection Hfail as ->. rewrite outer_except_result. cbn.
      now destruct (close_outcome conn). }
    destruct (start_outcome conn) as [e0|].
    { injection Hfail as ->. rewrite outer_except_result. cbn. unfold after_close.
      destruct (close_outcome conn) as [e'|]; [|reflexivity].
      now destruct (is_Exception e'). }
    rewrite Hfail. rewrite outer_except_result. cbn. unfold after_close.
    destruct (close_outcome conn) as [e'|]; [|reflexivity].
    now destruct (is_Exception e').
Qed.

(** * Further properties of the code *)

(** ** More on the stream lifecycle *)

(** X1.  [create_stream] raises in two cases only: no attempt is left, or
    the broker raised something other than [ConnectionRefusedError]. *)
Theorem create_stream_raises_iff
  (producer : Producer) (room : str) (retry count : Z) (w : world) (e : exn) :
  fst (create_stream producer room retry count w) = Raise e <->
  (retry <= count /\ e = ConnectionRefusedError) \/
  (count < retry /\ whitespace_only room = false /\
   create_stream_outcome producer (events w) room = Some e /\
   e <> ConnectionRefusedError).
Proof.
  rewrite create_stream_cases.
  destruct (Z.leb_spec retry count) as [Hle|Hlt]; cbn.
  { split.
    - intros [= <-]. left. split; [lia | reflexivity].
    - intros [[_ ->]|[Hlt _]]; [reflexivity | lia]. }
  destruct (whitespace_only room); cbn.
  { split; [discriminate|]. intros [[Hle _]|(_ & Hb & _)]; [lia | discriminate]. }
  destruct (create_stream_outcome producer (events w) room) as [e0|]; cbn.
  - destruct e0; cbn; split;
      try (intros [= <-]; right; repeat split; (lia || discriminate));
      try discriminate;
      try (intros [[Hle _]|(_ & _ & [= <-] & Hne)]; [lia | reflexivity || congruence]).
  - split; [discriminate|]. intros [[Hle _]|(_ & _ & Hout & _)]; [lia | discriminate].
Qed.

(** X2.  What [create_stream] leaves behind: the Registry as it was, no
    send, and one create-stream call for [room] exactly when an attempt is
    left and the name is not blank. *)
Theorem create_stream_footprint
  (producer : Producer) (room : str) (retry count : Z) (w : world) :
  exists evs,
    snd (create_stream producer room retry count w) =
      World (streams_status w) (events w ++ evs) /\
    create_calls evs =
      (if (retry <=? count) || whitespace_only room then [] else [room]) /\
    send_calls evs = [] /\
    close_calls evs = O.
Proof.
  rewrite create_stream_cases.
  destruct (retry <=? count); cbn.
  { exists []. rewrite app_nil_r. destruct w; repeat split. }
  destruct (whitespace_only room); cbn.
  { exists []. rewrite app_nil_r. destruct w; repeat split. }
  destruct (create_stream_outcome producer (events w) room) as [e|].
  - destruct e;
      [exists [ProducerCreateStream room;
               Log ERROR (MsgRetryIn5 room ConnectionRefusedError); Sleep 5];
       cbn; rewrite app_cons_app
      | exists [ProducerCreateStream room] ..];
      (split; [reflexivity|]); repeat split.
  - exists [ProducerCreateStream room]. repeat split.
Qed.

(** ** More on bulk initialisation *)

Lemma create_calls_app (l k : list event) :
  create_calls (l ++ k) = create_calls l ++ create_calls k.
Proof. apply omap_app. Qed.

Lemma init_stream_failed (producer : Producer) (room : str) (failed : list str) (w : world) :
  raises_Exceptions producer ->
  fst (init_stream producer room failed w) =
  Ret (failed ++
       if ready (outcome_of (fst (create_stream producer room 10 0 w))) then [] else [room]).
Proof.
  intros [Hcreate _].
  destruct (create_stream_effect producer room 10 0 w) as (evs & _ & _ & Hraise).
  unfold init_stream, try_except, bind.
  destruct (create_stream producer room 10 0 w) as [r w1]. cbn in *.
  destruct r as [[]|e]; cbn; [now rewrite app_nil_r|].
  assert (He : is_Exception e = true).
  { destruct (Hraise e eq_refl) as [[Hle _]|[_ Hout]]; [lia | eauto]. }
  destruct e; cbn in *; try discriminate; try reflexivity.
  now rewrite app_nil_r.
Qed.

Lemma init_loop_failed (producer : Producer) (channels : list str) :
  raises_Exceptions producer ->
  forall (failed : list str) (w : world),
  fst (init_loop producer channels failed w) =
  Ret (failed ++ failed_names (init_outcomes producer channels failed w)).
Proof.
  intros Hprod. induction channels as [|room rest IH]; intros failed w.
  - cbn. now rewrite app_nil_r.
  - pose proof (init_stream_failed producer room failed w Hprod) as Hone.
    cbn [init_loop init_outcomes]. unfold bind.
    set (o := outcome_of (fst (create_stream producer room 10 0 w))) in *.
    destruct (init_stream producer room failed w) as [r w1]. cbn [fst] in Hone. subst r.
    rewrite IH. unfold failed_names. cbn [List.filter snd fst].
    destruct (ready o); cbn [negb map fst];
      now rewrite ?app_nil_r, <- ?app_assoc.
Qed.

Lemma create_stream_quiet (producer : Producer) (room : str) (retry count : Z) (w : world) :
  exists evs,
    snd (create_stream producer room retry count w) =
      World (streams_status w) (events w ++ evs) /\
    Forall not_report evs.
Proof.
  rewrite create_stream_cases.
  destruct (retry <=? count); cbn.
  { exists []. rewrite app_nil_r. destruct w; split; [reflexivity | constructor]. }
  destruct (whitespace_only room); cbn.
  { exists []. rewrite app_nil_r. destruct w; split; [reflexivity | constructor]. }
  destruct (create_stream_outcome producer (events w) room) as [e|].
  - destruct e;
      [exists [ProducerCreateStream room;
               Log ERROR (MsgRetryIn5 room ConnectionRefusedError); Sleep 5];
       cbn; rewrite app_cons_app
      | exists [ProducerCreateStream room] ..];
      (split; [reflexivity|]); repeat constructor.
  - exists [ProducerCreateStream room]. split; [reflexivity|]. repeat constructor.
Qed.

Lemma init_stream_quiet (producer : Producer) (room : str) (failed : list str) (w : world) :
  raises_Exceptions producer ->
  exists failed' evs,
    init_stream producer room failed w =
      (Ret failed',
       World (<[room := ready (outcome_of (fst (create_stream producer room 10 0 w)))]>
                (streams_status w))
             (events w ++ evs)) /\
    Forall not_report evs.
Proof.
  intros [Hcreate _].
  destruct (create_stream_effect producer room 10 0 w) as (evs0 & _ & _ & Hraise).
  destruct (create_stream_quiet producer room 10 0 w) as (evs & Hw & Hquiet).
  unfold init_stream, try_except, bind.
  destruct (create_stream producer room 10 0 w) as [r w1]. cbn [fst snd] in *. subst w1.
  destruct r as [[]|e]; cbn.
  - exists failed, (evs ++ [Log INFO (MsgCreated room)]).
    rewrite app_assoc. split; [reflexivity|].
    apply Forall_app. split; [exact Hquiet | repeat constructor].
  - assert (He : is_Exception e = true).
    { destruct (Hraise e eq_refl) as [[Hle _]|[_ Hout]]; [lia | eauto]. }
    destruct e; cbn in *; try discriminate;
      eexists _, (evs ++ [_]); rewrite app_assoc;
        (split; [reflexivity|]);
        (apply Forall_app; split; [exact Hquiet | repeat constructor]).
Qed.

Lemma init_loop_quiet (producer : Producer) (channels : list str) :
  raises_Exceptions producer ->
  forall (failed : list str) (w : world),
  exists failed' evs,
    init_loop producer channels failed w =
      (Ret failed',
       World (record_outcomes (streams_status w) (init_outcomes producer channels failed w))
             (events w ++ evs)) /\
    Forall not_report evs.
Proof.
  intros Hprod. induction channels as [|room rest IH]; intros failed w.
  - exists failed, []. cbn. rewrite app_nil_r. destruct w; split; [reflexivity|constructor].
  - destruct (init_stream_quiet producer room failed w Hprod)
      as (failed1 & evs1 & Hone & Hq1).
    cbn [init_loop init_outcomes]. unfold bind. rewrite Hone.
    match goal with |- context [init_loop _ _ _ ?w1] =>
      destruct (IH failed1 w1) as (failed2 & evs2 & Hrest & Hq2)
    end.
    rewrite Hrest. cbn [streams_status events].
    exists failed2, (evs1 ++ evs2). rewrite app_assoc.
    split; [reflexivity|]. apply Forall_app. now split.
Qed.

(** X3.  The report of [_init_streams]: after the work on the names, one
    line lists the names given, and a warning follows exactly when some name
    failed; it lists the failed names in order. *)
Theorem init_streams_report
  (producer : Producer) (channels : list str) (w : world) :
  raises_Exceptions producer ->
  let failed := failed_names (init_outcomes producer channels [] w) in
  exists evs,
    events (snd (_init_streams producer channels w)) =
      events w ++ evs ++
      Log INFO (MsgInitialized channels) ::
      match failed with
      | [] => []
      | _ => [Log WARNING (MsgFailedStreams failed)]
      end /\
    (forall lvl names, ~ In (Log lvl (MsgInitialized names)) evs) /\
    (forall lvl names, ~ In (Log lvl (MsgFailedStreams names)) evs).
Proof.
  intros Hprod failed.
  destruct (init_loop_quiet producer channels Hprod [] w)
    as (failed' & evs & Hloop & Hquiet).
  pose proof (init_loop_failed producer channels Hprod [] w) as Hfailed.
  rewrite Hloop in Hfailed. cbn in Hfailed. injection Hfailed as ->.
  fold failed in Hloop.
  exists evs. split; [|split; intros lvl names Hin;
                        apply (proj1 (List.Forall_forall _ _) Hquiet) in Hin; exact Hin].
  unfold _init_streams, bind.
  assert (Hfirst :
    (match channels with [] => ret [] | _ => init_loop producer channels [] end) w =
    init_loop producer channels [] w) by now destruct channels.
  rewrite Hfirst, Hloop. cbn.
  destruct failed as [|name rest]; cbn; now rewrite <- !app_assoc.
Qed.

Lemma init_streams_report_witness :
  exists evs,
    events (snd (_init_streams erroring [py "a"; py "b"] new_gateway)) =
      evs ++ [Log INFO (MsgInitialized [py "a"; py "b"]);
              Log WARNING (MsgFailedStreams [py "a"; py "b"])] /\
    (forall lvl names, ~ In (Log lvl (MsgInitialized names)) evs).
Proof.
  destruct (init_streams_report erroring [py "a"; py "b"] new_gateway
              erroring_raises_Exceptions) as (evs & Hevents & Hquiet & _).
  exists evs. split; [|exact Hquiet].
  rewrite Hevents. reflexivity.
Defined.

Lemma record_outcomes_dom (outs : list (str * outcome)) :
  forall reg : gmap str bool,
  dom (record_outcomes reg outs) = dom reg ∪ list_to_set (map fst outs).
Proof.
  unfold record_outcomes.
  induction outs as [|[n o] outs IH]; intros reg; cbn.
  - set_solver.
  - rewrite IH, dom_insert_L. set_solver.
Qed.

(** X4.  [_init_streams] gives every name of the list a Registry entry and
    removes none. *)
Theorem init_streams_registry_domain
  (producer : Producer) (channels : list str) (w : world) :
  raises_Exceptions producer ->
  dom (streams_status (snd (_init_streams producer channels w))) =
  dom (streams_status w) ∪ list_to_set channels.
Proof.
  intros Hprod.
  destruct (init_streams_effect producer channels w Hprod) as (evs & Hrun & Hnames & _).
  rewrite Hrun. cbn. now rewrite record_outcomes_dom, Hnames.
Qed.

Lemma init_streams_registry_domain_witness :
  dom (streams_status (snd (_init_streams erroring [py "a"; py "b"] new_gateway))) =
  list_to_set [py "a"; py "b"].
Proof.
  rewrite (init_streams_registry_domain erroring [py "a"; py "b"] new_gateway
             erroring_raises_Exceptions).
  cbn [streams_status new_gateway]. set_solver.
Defined.

(** X5.  [_init_streams] does not consult the Registry: every name that is
    not blank gets one create-stream call, in the order of the list, also a
    name listed twice or already marked [True]. *)
Theorem init_streams_one_call_per_name
  (producer : Producer) (channels : list str) (w : world) :
  raises_Exceptions producer ->
  exists evs,
    events (snd (_init_streams producer channels w)) = events w ++ evs /\
    create_calls evs = filter (fun room => whitespace_only room = false) channels.
Proof.
  intros Hprod.
  destruct (init_streams_effect producer channels w Hprod) as (evs & Hrun & _ & Hcalls).
  rewrite Hrun. cbn. now exists evs.
Qed.

Lemma init_streams_one_call_per_name_witness :
  exists evs,
    events (snd (_init_streams accepting [py "a"; py " "; py "a"] new_gateway)) = evs /\
    create_calls evs = [py "a"; py "a"].
Proof.
  destruct (init_streams_one_call_per_name accepting [py "a"; py " "; py "a"] new_gateway
              accepting_raises_Exceptions) as (evs & Hevents & Hcalls).
  exists evs. split; [exact Hevents | exact Hcalls].
Defined.

Lemma create_stream_returns_when_refused
  (producer : Producer) (room : str) (retry count : Z) (w : world) :
  only_refuses producer ->
  count < retry ->
  fst (create_stream producer room retry count w) = Ret tt.
Proof.
  intros Honly Hlt.
  destruct (fst (create_stream producer room retry count w)) as [[]|e] eqn:Hr;
    [reflexivity|].
  apply create_stream_raises_iff in Hr.
  destruct Hr as [[Hle _]|(_ & _ & Hout & Hne)]; [lia|].
  now apply Honly in Hout.
Qed.

Lemma init_outcomes_when_refused (producer : Producer) (channels : list str) :
  only_refuses producer ->
  forall (failed : list str) (w : world) (name : str) (o : outcome),
  In (name, o) (init_outcomes producer channels failed w) -> o = Created.
Proof.
  intros Honly.
  induction channels as [|room rest IH]; intros failed w name o Hin;
    cbn [init_outcomes] in Hin; [contradiction|].
  destruct Hin as [[= -> <-]|Hin].
  - now rewrite create_stream_returns_when_refused by (auto; lia).
  - destruct (init_stream producer room failed w) as [[failed'|e] w']; [|contradiction].
    now apply (IH failed' w' name o).
Qed.

Lemma failed_names_none (outs : list (str * outcome)) :
  (forall name o, In (name, o) outs -> ready o = true) ->
  failed_names outs = [].
Proof.
  unfold failed_names.
  induction outs as [|[n o] outs IH]; intros Hall; [reflexivity|].
  cbn. rewrite (Hall n o) by now left. cbn. apply IH.
  intros name o' Hin. apply (Hall name o'). now right.
Qed.

(** X6.  With a broker that refuses connections, [_init_streams] still marks
    every name of the list [True] and reports no failure: a refused
    connection never reaches its [except ConnectionRefusedError] clause. *)
Theorem init_streams_refusals_marked_ready
  (producer : Producer) (channels : list str) (w : world) :
  raises_Exceptions producer ->
  only_refuses producer ->
  (forall name, In name channels ->
     streams_status (snd (_init_streams producer channels w)) !! name = Some true) /\
  failed_names (init_outcomes producer channels [] w) = [].
Proof.
  intros Hprod Honly.
  destruct (init_streams_effect producer channels w Hprod) as (evs & Hrun & Hnames & _).
  rewrite Hrun. cbn [snd streams_status]. split.
  - intros name Hin. apply record_outcomes_lookup.
    + intros o Ho. now rewrite (init_outcomes_when_refused _ _ Honly _ _ _ _ Ho).
    + left. rewrite <- Hnames in Hin. apply in_map_iff in Hin.
      destruct Hin as ([n o] & Hn & Hin). cbn in Hn. subst n. now exists o.
  - apply failed_names_none. intros name o Hin.
    now rewrite (init_outcomes_when_refused _ _ Honly _ _ _ _ Hin).
Qed.

Lemma init_streams_refusals_marked_ready_witness :
  streams_status (snd (_init_streams refusing [py "chat"; py "news"] new_gateway))
    !! py "news" = Some true /\
  failed_names (init_outcomes refusing [py "chat"; py "news"] [] new_gateway) = [].
Proof.
  destruct (init_streams_refusals_marked_ready refusing [py "chat"; py "news"] new_gateway
              refusing_raises_Exceptions) as [Hready Hnone].
  - intros h room e [= <-]. reflexivity.
  - split; [|exact Hnone]. apply Hready. cbn. right. left. reflexivity.
Defined.

Lemma init_loop_app (producer : Producer) (pre rest : list str) :
  forall (failed : list str) (w : world),
  init_loop producer (pre ++ rest) failed w =
  bind (init_loop producer pre failed) (fun failed' => init_loop producer rest failed') w.
Proof.
  induction pre as [|room pre IH]; intros failed w; [reflexivity|].
  cbn [init_loop app]. unfold bind.
  destruct (init_stream producer room failed w) as [[failed1|e] w1]; [|reflexivity].
  rewrite IH. reflexivity.
Qed.

(** X7.  An exception of the broker that is no [Exception] (the task is
    cancelled inside the create-stream call) is not collected: it ends
    [_init_streams] at that name, the names after it are not handled and
    nothing is reported. *)
Theorem init_streams_stops_on_cancellation
  (producer : Producer) (pre rest failed : list str) (room : str) (e : exn) (w w1 : world) :
  init_loop producer pre [] w = (Ret failed, w1) ->
  whitespace_only room = false ->
  create_stream_outcome producer (events w1) room = Some e ->
  is_Exception e = false ->
  _init_streams producer (pre ++ room :: rest) w =
  (Raise e, World (streams_status w1) (events w1 ++ [ProducerCreateStream room])).
Proof.
  intros Hpre Hname Hout He.
  unfold _init_streams. unfold bind at 1.
  assert (Hfirst :
    (match pre ++ room :: rest with
     | [] => ret []
     | _ => init_loop producer (pre ++ room :: rest) []
     end) w = init_loop producer (pre ++ room :: rest) [] w)
    by now destruct pre.
  rewrite Hfirst, init_loop_app. unfold bind at 1. rewrite Hpre.
  cbn [init_loop]. unfold bind at 1.
  unfold init_stream, try_except. unfold bind at 1.
  rewrite create_stream_cases, Hname, Hout.
  change (10 <=? 0) with false. cbn match.
  destruct e; cbn in He; try discriminate; reflexivity.
Qed.

Lemma init_streams_stops_on_cancellation_witness :
  _init_streams cancelled ([] ++ py "chat" :: [py "news"]) new_gateway =
  (Raise CancelledError, World ∅ [ProducerCreateStream (py "chat")]).
Proof.
  apply (init_streams_stops_on_cancellation cancelled [] [py "news"] [] (py "chat")
           CancelledError new_gateway new_gateway); reflexivity.
Defined.

(** ** More on the publish path *)

Lemma send_calls_app (l k : list event) :
  send_calls (l ++ k) = send_calls l ++ send_calls k.
Proof. apply omap_app. Qed.

(** The recovery of [send_to_stream], entered in the world [w1]: what it
    leaves behind. *)
Lemma recovery_footprint (producer : Producer) (room : str) (w1 : world) :
  exists r reg evs,
    try_except
      (bind (create_stream producer room 5 0)
         (fun _ => bind (log INFO (MsgCreated room)) (fun _ => set_status room true)))
      (fun e' =>
         match e' with
         | ConnectionRefusedError => log ERROR (MsgFailedAfter 5 room)
         | _ =>
             if is_Exception e' then log EXCEPTION (MsgErrorCreating room e')
             else raise e'
         end) w1 = (r, World reg (events w1 ++ evs)) /\
    send_calls evs = [] /\
    (length (create_calls evs) <= 1)%nat /\
    (reg = streams_status w1 \/ reg = <[room := true]> (streams_status w1)).
Proof.
  destruct (create_stream_footprint producer room 5 0 w1)
    as (evs & Hw & Hcalls & Hsends & _).
  assert (Hlen : (length (create_calls evs) <= 1)%nat).
  { rewrite Hcalls. destruct (_ || _); cbn; lia. }
  unfold try_except, bind, log, emit, set_status.
  destruct (create_stream producer room 5 0 w1) as [r w2]. cbn [snd] in Hw. subst w2.
  cbn [streams_status events].
  assert (Hext : forall line : log_msg -> event,
            forall msg, line = Log INFO \/ line = Log ERROR \/ line = Log EXCEPTION ->
            send_calls (evs ++ [line msg]) = [] /\
            (length (create_calls (evs ++ [line msg])) <= 1)%nat).
  { intros line msg Hline. rewrite send_calls_app, create_calls_app, Hsends.
    destruct Hline as [-> | [-> | ->]]; cbn; rewrite app_nil_r; auto. }
  destruct r as [[]|e].
  - exists (Ret tt), (<[room := true]> (streams_status w1)),
      (evs ++ [Log INFO (MsgCreated room)]).
    rewrite app_assoc. split; [reflexivity|].
    destruct (Hext (Log INFO) (MsgCreated room)) as [H1 H2]; auto.
  - destruct e; cbn [is_Exception];
      try (eexists (Ret tt), (streams_status w1), (evs ++ [Log _ _]);
           rewrite app_assoc; (split; [reflexivity|]);
           match goal with |- context [Log ?lvl ?msg] =>
             destruct (Hext (Log lvl) msg) as [H1 H2]; auto
           end);
      (eexists (Raise _), (streams_status w1), evs; split; [reflexivity|]; auto).
Qed.

(** X8.  What one publish leaves behind, whatever the encoder and the broker
    do: the payload is sent once when it could be encoded and never
    otherwise (it is not sent again after a recovery), at most one
    create-stream call is made, and the Registry is as it was or has the
    entry of [room], which existed, set to [True]. *)
Theorem send_to_stream_footprint
  (producer : Producer) (ChatMessage : Type) (SerializeToString : ChatMessage -> bytes + exn)
  (room : str) (message : ChatMessage) (w : world) :
  exists reg evs,
    snd (send_to_stream producer ChatMessage SerializeToString room message w) =
      World reg (events w ++ evs) /\
    send_calls evs =
      match SerializeToString message with
      | inl payload => [(room, payload)]
      | inr _ => []
      end /\
    (length (create_calls evs) <= 1)%nat /\
    (reg = streams_status w \/
     (is_Some (streams_status w !! room) /\ reg = <[room := true]> (streams_status w))).
Proof.
  assert (Hhandler : forall (e : exn) (w1 : world),
    exists r reg evs,
      (match e return M unit with
       | StreamDoesNotExist =>
           bind (get_status room) (fun _ =>
           bind (log ERROR (MsgDoesNotExist room)) (fun _ =>
           try_except
             (bind (create_stream producer room 5 0)
                (fun _ => bind (log INFO (MsgCreated room))
                            (fun _ => set_status room true)))
             (fun e' =>
                match e' with
                | ConnectionRefusedError => log ERROR (MsgFailedAfter 5 room)
                | _ =>
                    if is_Exception e' then log EXCEPTION (MsgErrorCreating room e')
                    else raise e'
                end)))
       | _ =>
           if is_Exception e then bind (log EXCEPTION (MsgErrorSending e)) (fun _ => raise e)
           else raise e
       end) w1 = (r, World reg (events w1 ++ evs)) /\
      send_calls evs = [] /\
      (length (create_calls evs) <= 1)%nat /\
      (reg = streams_status w1 \/
       (is_Some (streams_status w1 !! room) /\ reg = <[room := true]> (streams_status w1)))).
  { intros e w1.
    assert (Hplain : forall e0,
      exists r reg evs,
        (if is_Exception e0 return M unit
         then bind (log EXCEPTION (MsgErrorSending e0)) (fun _ => raise e0)
         else raise e0) w1 = (r, World reg (events w1 ++ evs)) /\
        send_calls evs = [] /\
        (length (create_calls evs) <= 1)%nat /\
        (reg = streams_status w1 \/
         (is_Some (streams_status w1 !! room) /\
          reg = <[room := true]> (streams_status w1)))).
    { intros e0. destruct (is_Exception e0).
      - exists (Raise e0), (streams_status w1), [Log EXCEPTION (MsgErrorSending e0)].
        repeat split; cbn; auto.
      - exists (Raise e0), (streams_status w1), []. rewrite app_nil_r.
        destruct w1; repeat split; cbn; auto. }
    destruct e; try apply Hplain.
    unfold bind at 1, get_status.
    destruct (streams_status w1 !! room) as [b|] eqn:Hreg.
    - unfold bind at 1, log at 1, emit.
      match goal with |- context [try_except _ _ ?w2] =>
        destruct (recovery_footprint producer room w2) as (r & reg & evs & Hrun & Hs & Hc & Hr)
      end.
      rewrite Hrun. cbn [streams_status events] in *.
      exists r, reg, (Log ERROR (MsgDoesNotExist room) :: evs).
      rewrite <- app_assoc. split; [reflexivity|].
      change (Log ERROR (MsgDoesNotExist room) :: evs)
        with ([Log ERROR (MsgDoesNotExist room)] ++ evs).
      rewrite send_calls_app, create_calls_app, Hs. cbn.
      repeat split; auto. destruct Hr as [-> | ->]; auto.
    - exists (Raise (KeyError room)), (streams_status w1), []. rewrite app_nil_r.
      destruct w1; repeat split; cbn; auto. }
  unfold send_to_stream. unfold try_except at 1. unfold bind at 1, log at 1, emit.
  unfold bind at 1.
  destruct (SerializeToString message) as [payload|e].
  - cbn [ret]. unfold producer_send. cbn [streams_status events].
    destruct (send_outcome producer _ room payload) as [e|].
    + match goal with |- context [World ?reg0 ?evs0] =>
        destruct (Hhandler e (World reg0 evs0)) as (r & reg & evs & Hrun & Hs & Hc & Hr)
      end.
      rewrite Hrun. cbn [snd streams_status events] in *.
      exists reg, ([Log DEBUG (MsgSending room); ProducerSend room payload] ++ evs).
      rewrite !send_calls_app, !create_calls_app, Hs.
      rewrite <- !app_assoc. cbn. repeat split; auto.
    + exists (streams_status w), [Log DEBUG (MsgSending room); ProducerSend room payload].
      cbn. rewrite <- app_assoc. repeat split; auto.
  - unfold raise at 1.
    match goal with |- context [World ?reg0 ?evs0] =>
      destruct (Hhandler e (World reg0 evs0)) as (r & reg & evs & Hrun & Hs & Hc & Hr)
    end.
    rewrite Hrun. cbn [snd streams_status events] in *.
    exists reg, ([Log DEBUG (MsgSending room)] ++ evs).
    rewrite !send_calls_app, !create_calls_app, Hs.
    rewrite <- !app_assoc. cbn. repeat split; auto.
Qed.

(** X9.  A publish to a stream that the broker reports missing and that has
    no Registry entry ends with the [KeyError] of
    [self.streams_status[room]]: nothing is logged about the missing stream
    and no recreation is tried. *)
Theorem publish_unregistered_stream_key_error
  (producer : Producer) (ChatMessage : Type) (SerializeToString : ChatMessage -> bytes + exn)
  (room : str) (message : ChatMessage) (payload : bytes) (w : world) :
  SerializeToString message = inl payload ->
  send_outcome producer (events w ++ [Log DEBUG (MsgSending room)]) room payload
    = Some StreamDoesNotExist ->
  streams_status w !! room = None ->
  send_to_stream producer ChatMessage SerializeToString room message w =
  (Raise (KeyError room),
   World (streams_status w)
     (events w ++ [Log DEBUG (MsgSending room); ProducerSend room payload])).
Proof.
  intros Hser Hsend Hreg.
  unfold send_to_stream, try_except, bind, log, emit, producer_send, get_status.
  cbn [streams_status events]. rewrite Hser. cbn [ret streams_status events].
  rewrite Hsend. cbn [streams_status events]. rewrite Hreg.
  now rewrite app_cons_app.
Qed.

Lemma publish_unregistered_stream_key_error_witness :
  send_to_stream stream_lost bytes inl (py "chat") [] new_gateway =
  (Raise (KeyError (py "chat")),
   World ∅ [Log DEBUG (MsgSending (py "chat")); ProducerSend (py "chat") []]).
Proof.
  apply (publish_unregistered_stream_key_error stream_lost bytes inl (py "chat") [] []
           new_gateway); reflexivity.
Defined.

(** X10.  A publish to a registered stream that the broker reports missing,
    when the broker then refuses the connection of the recreation: the
    publish returns normally, logs that the stream was created and marks it
    [True], after one create-stream call and one sleep of 5 seconds. *)
Theorem publish_recovery_refused_marks_ready
  (producer : Producer) (ChatMessage : Type) (SerializeToString : ChatMessage -> bytes + exn)
  (room : str) (message : ChatMessage) (payload : bytes) (b : bool) (w : world) :
  SerializeToString message = inl payload ->
  send_outcome producer (events w ++ [Log DEBUG (MsgSending room)]) room payload
    = Some StreamDoesNotExist ->
  streams_status w !! room = Some b ->
  whitespace_only room = false ->
  create_stream_outcome producer
    (events w ++ [Log DEBUG (MsgSending room); ProducerSend room payload;
                  Log ERROR (MsgDoesNotExist room)]) room
    = Some ConnectionRefusedError ->
  send_to_stream producer ChatMessage SerializeToString room message w =
  (Ret tt,
   World (<[room := true]> (streams_status w))
     (events w ++ [Log DEBUG (MsgSending room); ProducerSend room payload;
                   Log ERROR (MsgDoesNotExist room);
                   ProducerCreateStream room;
                   Log ERROR (MsgRetryIn5 room ConnectionRefusedError);
                   Sleep 5;
                   Log INFO (MsgCreated room)])).
Proof.
  intros Hser Hsend Hreg Hname Hrefused.
  unfold send_to_stream, try_except, bind, log, emit, producer_send, get_status, set_status.
  cbn [streams_status events]. rewrite Hser. cbn [ret streams_status events].
  rewrite Hsend. cbn [streams_status events]. rewrite Hreg. cbn [streams_status events].
  rewrite !app_cons_app.
  rewrite create_stream_cases. cbn [streams_status events].
  rewrite Hname, Hrefused. change (5 <=? 0) with false. cbn.
  now rewrite <- !app_assoc.
Qed.

Lemma publish_recovery_refused_marks_ready_witness :
  streams_status
    (snd (send_to_stream lost_and_refusing bytes inl (py "chat") []
            (World {[py "chat" := false]} []))) !! py "chat" = Some true.
Proof.
  assert (Hreg : streams_status (World {[py "chat" := false]} []) !! py "chat" = Some false)
    by reflexivity.
  rewrite (publish_recovery_refused_marks_ready lost_and_refusing bytes inl (py "chat") [] []
             false (World {[py "chat" := false]} []) eq_refl eq_refl Hreg eq_refl eq_refl).
  reflexivity.
Defined.

(** ** More on the consume path *)

Section ConsumeLoop.

Variable ChatMessage : Type.
Variable ParseFromString : bytes -> option ChatMessage.
Variable conn : ConsumerConn.
Variable room : str.

Local Abbreviation step := (consume_step ChatMessage ParseFromString conn room).
Local Abbreviation run := (consume_run ChatMessage ParseFromString conn room).


(** X13.  An exception raised where the generator is suspended inside its
    loop (any exception at the [yield], the cancellation of the pulling task
    at the [get]) ends the generator, when [close] is not interrupted: a
    cancellation and an [Exception] are logged and the body returns
    normally; any other exception (the [GeneratorExit] of [aclose()]) is not
    handled and leaves the body after the [finally] clause. Nothing more is
    handed over. An [athrow] or [aclose] while a pull is pending is refused
    and leaves the generator as it is. *)
Theorem consume_loop_exit (g : generator ChatMessage) (e : exn) :
  close_not_interrupted conn ->
  running g ->
  (deliverable g e ->
   gen_phase (step g (Throw e)) = Finished (loop_exit e) /\
   yielded (step g (Throw e)) = yielded g) /\
  (gen_phase g = AwaitingGet -> e <> CancelledError -> step g (Throw e) = g).
Proof.
  intros Hclose Hrun. split.
  - intros Hdeliv.
    assert (Hstep : step g (Throw e) = inner_except ChatMessage conn e g)
      by (unfold consume_step; destruct Hdeliv as [-> | [-> ->]]; reflexivity).
    rewrite Hstep. split.
    + rewrite inner_except_result.
      destruct (close_outcome conn) as [e'|] eqn:Hc; [|reflexivity].
      rewrite (Hclose e' Hc). now rewrite andb_false_r.
    + now destruct (inner_except_spec ChatMessage conn e g) as (r' & evs & -> & _).
  - intros Hp Hne. unfold consume_step. rewrite Hp.
    destruct e; congruence.
Qed.

(** X14.  When [close] itself is interrupted by an exception that is no
    [Exception], that exception replaces the reason for which the loop was
    left. *)
Theorem consume_interrupted_close_masks (g : generator ChatMessage) (e e' : exn) :
  running g ->
  deliverable g e ->
  consumer g = true ->
  close_outcome conn = Some e' ->
  is_Exception e' = false ->
  gen_phase (step g (Throw e)) = Finished (Raise e').
Proof.
  intros Hrun Hdeliv Hc Hclose He'.
  assert (Hstep : step g (Throw e) = inner_except ChatMessage conn e g)
    by (unfold consume_step; destruct Hdeliv as [-> | [-> ->]]; reflexivity).
  now rewrite Hstep, inner_except_result, Hclose, Hc, He'.
Qed.

Lemma step_yields_at_most_one (g : generator ChatMessage) (ev : consume_event) :
  exists k, yielded (step g ev) = yielded g ++ k /\ (length k <= 1)%nat.
Proof.
  assert (Hsame : forall g' : generator ChatMessage,
            yielded g' = yielded g ->
            exists k, yielded g' = yielded g ++ k /\ (length k <= 1)%nat).
  { intros g' ->. exists []. rewrite app_nil_r. cbn. auto. }
  assert (Hexit : forall r' evs (g0 : generator ChatMessage),
            yielded (Generator ChatMessage (Finished r') (consumer g0) (messages g0)
                       (blocked_puts g0) (yielded g0)
                       (World (streams_status (gw g0)) (events (gw g0) ++ evs)))
            = yielded g0) by reflexivity.
  assert (Hpull : forall g0 : generator ChatMessage,
            exists k, yielded (get_and_yield ChatMessage g0) = yielded g0 ++ k /\
                      (length k <= 1)%nat).
  { intros [p c [mx its] bl y w].
    unfold get_and_yield, get_nowait, wake_putter, set_phase. cbn.
    destruct its as [|m its]; cbn.
    - exists []. rewrite app_nil_r. cbn. auto.
    - exists [m]. split; [|cbn; lia].
      destruct bl as [|b bl]; [reflexivity|]. cbn. now destruct (put_nowait _ b). }
  assert (Hinner : forall e, yielded (inner_except ChatMessage conn e g) = yielded g).
  { intros e. now destruct (inner_except_spec ChatMessage conn e g) as (r' & evs & -> & _). }
  assert (Houter : forall e (g0 : generator ChatMessage),
            yielded (outer_except ChatMessage conn e g0) = yielded g0).
  { intros e g0.
    now destruct (outer_except_spec ChatMessage conn e g0) as (r' & evs & -> & _). }
  assert (Hon : forall msg, yielded (on_message ChatMessage ParseFromString msg g) = yielded g).
  { intros msg. unfold on_message, gen_emit.
    destruct (ParseFromString msg); [|reflexivity]. now destruct (put_nowait _ _). }
  unfold consume_step.
  destruct (gen_phase g) eqn:Hp, ev as [|msg|e]; try (apply Hsame; reflexivity);
    try (apply Hsame; apply Hinner); try apply Hpull;
    try (destruct e; first [apply Hsame; reflexivity | apply Hsame; apply Hinner]).
  - (* the body is entered *)
    unfold open_subscription.
    destruct (Consumer_outcome conn); [apply Hsame, Houter|].
    destruct (start_outcome conn); [apply Hsame; now rewrite Houter|].
    destruct (subscribe_outcome conn); [apply Hsame; now rewrite Houter|].
    match goal with |- context [get_and_yield _ ?g1] =>
      destruct (Hpull g1) as (k & Hk & Hlen)
    end.
    exists k. split; [exact Hk | exact Hlen].
  - (* a delivery while the caller waits *)
    destruct (items (messages (on_message ChatMessage ParseFromString msg g)));
      [apply Hsame, Hon|].
    destruct (Hpull (on_message ChatMessage ParseFromString msg g)) as (k & Hk & Hlen).
    exists k. rewrite Hk, Hon. auto.
  - apply Hsame, Hon.
Qed.

(** X15.  What the caller has received is never taken back or reordered: a
    schedule only appends to it, at most one message per step. *)
Theorem consume_yielded_only_grows (g : generator ChatMessage) (tr : list consume_event) :
  exists k, yielded (run g tr) = yielded g ++ k /\ (length k <= length tr)%nat.
Proof.
  revert g. induction tr as [|ev tr IH]; intros g.
  - exists []. cbn. now rewrite app_nil_r.
  - change (run g (ev :: tr)) with (run (step g ev) tr).
    destruct (step_yields_at_most_one g ev) as (k1 & Hk1 & Hlen1).
    destruct (IH (step g ev)) as (k2 & Hk2 & Hlen2).
    exists (k1 ++ k2). rewrite Hk2, Hk1, <- app_assoc, length_app. cbn. split; [reflexivity|lia].
Qed.

End ConsumeLoop.

Lemma healthy_close_not_interrupted : close_not_interrupted healthy.
Proof. intros e. discriminate. Qed.



Lemma consume_loop_exit_witness :
  let pulled := consume_step bytes nonempty_payload healthy (py "chat")
                  (consume_messages bytes new_gateway) Anext in
  let handed := consume_step bytes nonempty_payload healthy (py "chat")
                  pulled (Deliver [Byte.x01]) in
  gen_phase (consume_step bytes nonempty_payload healthy (py "chat") handed
               (Throw GeneratorExit))
  = Finished (Raise GeneratorExit) /\
  gen_phase (consume_step bytes nonempty_payload healthy (py "chat") pulled
               (Throw CancelledError))
  = Finished (Ret tt) /\
  consume_step bytes nonempty_payload healthy (py "chat") pulled (Throw GeneratorExit)
  = pulled.
Proof.
  intros pulled handed. split; [|split].
  - exact (proj1 (proj1 (consume_loop_exit bytes nonempty_payload healthy (py "chat")
                           handed GeneratorExit
                           healthy_close_not_interrupted (or_intror eq_refl))
                    (or_introl eq_refl))).
  - exact (proj1 (proj1 (consume_loop_exit bytes nonempty_payload healthy (py "chat")
                           pulled CancelledError
                           healthy_close_not_interrupted (or_introl eq_refl))
                    (or_intror (conj eq_refl eq_refl)))).
  - apply (proj2 (consume_loop_exit bytes nonempty_payload healthy (py "chat")
                    pulled GeneratorExit
                    healthy_close_not_interrupted (or_introl eq_refl)));
      [reflexivity | discriminate].
Defined.

Lemma consume_interrupted_close_masks_witness :
  let pulled := consume_step bytes nonempty_payload close_cancelled (py "chat")
                  (consume_messages bytes new_gateway) Anext in
  let handed := consume_step bytes nonempty_payload close_cancelled (py "chat")
                  pulled (Deliver [Byte.x01]) in
  gen_phase (consume_step bytes nonempty_payload close_cancelled (py "chat") handed
               (Throw (OtherException 7)))
  = Finished (Raise CancelledError).
Proof.
  intros pulled handed.
  exact (consume_interrupted_close_masks bytes nonempty_payload close_cancelled (py "chat")
           handed (OtherException 7) CancelledError
           (or_intror eq_refl) (or_introl eq_refl) eq_refl eq_refl eq_refl).
Defined.

(** ** More on the admin client's retry loop *)

Lemma kc_requests_app (l k : list KeycloakAdmin.kc_event) :
  kc_requests (l ++ k) = kc_requests l ++ kc_requests k.
Proof. apply omap_app. Qed.

Lemma attempts_from (attempt : Z) (n : nat) :
  attempt :: map (fun i => attempt + 1 + Z.of_nat i) (seq 0 n) =
  map (fun i => attempt + Z.of_nat i) (seq 0 (S n)).
Proof.
  cbn [seq map]. rewrite Z.add_0_r. f_equal.
  rewrite <- seq_shift, map_map. apply map_ext. intros i. lia.
Qed.

Section RetryFacts.

Variable max_retries : Z.
Variable url_has_user : bool.
Variable attempt_result : Z -> KeycloakAdmin.attempt_outcome.

Local Abbreviation loop :=
  (KeycloakAdmin.retry_loop max_retries url_has_user attempt_result).

(** The loop numbers its requests consecutively and makes at most [todo]
    of them. *)
Lemma retry_loop_requests (todo : nat) :
  forall (attempt : Z) (tr : list KeycloakAdmin.kc_event),
  exists n : nat,
    (n <= todo)%nat /\ (todo = O \/ 1 <= n)%nat /\
    kc_requests (snd (loop todo attempt tr)) =
      kc_requests tr ++ map (fun i => attempt + Z.of_nat i) (seq 0 n).
Proof.
  induction todo as [|todo IH]; intros attempt tr.
  - exists O. cbn. rewrite kc_requests_app. cbn. rewrite !app_nil_r. auto with lia.
  - assert (Hstop : forall (r : KeycloakAdmin.kc_result) evs,
              kc_requests evs = [] ->
              exists n : nat,
                (n <= S todo)%nat /\ (S todo = O \/ 1 <= n)%nat /\
                kc_requests (snd (r, (tr ++ [KeycloakAdmin.Request attempt]) ++ evs)) =
                kc_requests tr ++ map (fun i => attempt + Z.of_nat i) (seq 0 n)).
    { intros r evs Hevs. exists 1%nat. cbn [snd seq map].
      rewrite !kc_requests_app, Hevs. cbn. rewrite Z.add_0_r, app_nil_r.
      repeat split; lia. }
    assert (Hgo : forall evs,
              kc_requests evs = [] ->
              exists n : nat,
                (n <= S todo)%nat /\ (S todo = O \/ 1 <= n)%nat /\
                kc_requests
                  (snd (loop todo (attempt + 1)
                          ((tr ++ [KeycloakAdmin.Request attempt]) ++ evs))) =
                kc_requests tr ++ map (fun i => attempt + Z.of_nat i) (seq 0 n)).
    { intros evs Hevs.
      destruct (IH (attempt + 1) ((tr ++ [KeycloakAdmin.Request attempt]) ++ evs))
        as (n & Hn & _ & Hreq).
      exists (S n). rewrite Hreq, !kc_requests_app, Hevs. cbn [kc_requests omap].
      rewrite app_nil_r, <- app_assoc.
      change (kc_requests [KeycloakAdmin.Request attempt]) with [attempt]. cbn [app].
      rewrite attempts_from. repeat split; lia. }
    cbn [KeycloakAdmin.retry_loop].
    destruct (attempt_result attempt) as [status|status| | |e].
    + rewrite <- (app_nil_r (tr ++ [_])). now apply Hstop.
    + destruct ((status =? 401) || (status =? 403)).
      * destruct (attempt <? max_retries - 1).
        -- rewrite <- !app_assoc. rewrite app_assoc. now apply Hgo.
        -- rewrite <- !app_assoc. rewrite app_assoc. now apply Hstop.
      * destruct (status =? 404); [destruct url_has_user|destruct (500 <=? status)];
          rewrite <- !app_assoc; rewrite app_assoc; now apply Hstop.
    + unfold KeycloakAdmin.invalid_except_clause.
      rewrite <- (app_nil_r (tr ++ [_])). now apply Hstop.
    + unfold KeycloakAdmin.invalid_except_clause.
      rewrite <- (app_nil_r (tr ++ [_])). now apply Hstop.
    + unfold KeycloakAdmin.invalid_except_clause.
      rewrite <- (app_nil_r (tr ++ [_])). now apply Hstop.
Qed.

End RetryFacts.

(** X16.  Whatever the server does, [_make_request_with_retry] makes at most
    [max_retries] requests, at least one when [max_retries] is positive, and
    numbers them [0], [1], ... *)
Theorem make_request_bounded
  (max_retries : Z) (url_has_user : bool)
  (attempt_result : Z -> KeycloakAdmin.attempt_outcome) :
  exists n : nat,
    (n <= Z.to_nat max_retries)%nat /\
    (max_retries <= 0 \/ (1 <= n)%nat) /\
    kc_requests
      (snd (KeycloakAdmin._make_request_with_retry max_retries url_has_user
              attempt_result)) = attempts n.
Proof.
  unfold KeycloakAdmin._make_request_with_retry, attempts.
  destruct (retry_loop_requests max_retries url_has_user attempt_result
              (Z.to_nat max_retries) 0 []) as (n & Hn & Hpos & Hreq).
  exists n. split; [exact Hn|]. split; [lia|].
  rewrite Hreq. cbn. apply map_ext. intros i. lia.
Qed.

Lemma kc_clears_app (l k : list KeycloakAdmin.kc_event) :
  kc_clears (l ++ k) = (kc_clears l + kc_clears k)%nat.
Proof. unfold kc_clears. now rewrite omap_app, length_app. Qed.

Section RetryRuns.

Variable max_retries : Z.
Variable url_has_user : bool.

(** Every attempt is answered with 401 or 403. *)
Lemma retry_loop_unauthorized
  (attempt_result : Z -> KeycloakAdmin.attempt_outcome) (todo : nat) :
  (forall a, exists status,
     attempt_result a = KeycloakAdmin.ClientResponseError status /\
     (status = 401 \/ status = 403)) ->
  forall (attempt : Z) (tr : list KeycloakAdmin.kc_event),
  (1 <= todo)%nat ->
  attempt + Z.of_nat todo = max_retries ->
  exists evs,
    KeycloakAdmin.retry_loop max_retries url_has_user attempt_result
      todo attempt tr =
      (KeycloakAdmin.BusinessException KeycloakAdmin.AUTH_TOKEN_EXPIRED, tr ++ evs) /\
    kc_requests evs = map (fun i => attempt + Z.of_nat i) (seq 0 todo) /\
    KeycloakAdmin.kc_sleeps evs = [] /\
    S (kc_clears evs) = todo.
Proof.
  intros Hall. induction todo as [|todo IH]; intros attempt tr Hpos Hleft; [lia|].
  cbn [KeycloakAdmin.retry_loop].
  destruct (Hall attempt) as (status & -> & Hstatus).
  assert (Hs : (status =? 401) || (status =? 403) = true)
    by (destruct Hstatus as [-> | ->]; reflexivity).
  rewrite Hs.
  destruct (Z.ltb_spec attempt (max_retries - 1)) as [Hlt|Hge].
  - match goal with |- context [KeycloakAdmin.retry_loop _ _ _ _ _ ?tr1] =>
      destruct (IH (attempt + 1) tr1) as (evs & Hrun & Hreq & Hsl & Hcl); [lia|lia|]
    end.
    rewrite Hrun.
    exists ([KeycloakAdmin.Request attempt; KeycloakAdmin.KLog ERROR;
             KeycloakAdmin.KLog WARNING; KeycloakAdmin.ClearTokenCache] ++ evs).
    rewrite <- !app_assoc. split; [reflexivity|].
    rewrite kc_requests_app, kc_sleeps_app, kc_clears_app, Hreq, Hsl.
    cbn [app]. split; [|split; [reflexivity|]].
    + change (kc_requests _) with [attempt]. cbn [app]. now rewrite attempts_from.
    + rewrite <- Hcl. reflexivity.
  - assert (todo = O) by lia. subst todo.
    exists [KeycloakAdmin.Request attempt; KeycloakAdmin.KLog ERROR; KeycloakAdmin.KLog ERROR].
    rewrite <- !app_assoc. cbn. rewrite Z.add_0_r. auto.
Qed.

End RetryRuns.

(** X18.  When the server answers every request with 401 or 403, the token
    cache is cleared before each new attempt, no time is spent sleeping, and
    after [max_retries] requests [AUTH_TOKEN_EXPIRED] is raised. *)
Theorem make_request_unauthorized
  (max_retries : Z) (url_has_user : bool)
  (attempt_result : Z -> KeycloakAdmin.attempt_outcome) :
  1 <= max_retries ->
  (forall a, exists status,
     attempt_result a = KeycloakAdmin.ClientResponseError status /\
     (status = 401 \/ status = 403)) ->
  let run := KeycloakAdmin._make_request_with_retry max_retries url_has_user
               attempt_result in
  fst run = KeycloakAdmin.BusinessException KeycloakAdmin.AUTH_TOKEN_EXPIRED /\
  kc_requests (snd run) = attempts (Z.to_nat max_retries) /\
  KeycloakAdmin.kc_sleeps (snd run) = [] /\
  Z.of_nat (kc_clears (snd run)) = max_retries - 1.
Proof.
  intros Hpos Hall run. subst run. unfold KeycloakAdmin._make_request_with_retry.
  destruct (retry_loop_unauthorized max_retries url_has_user attempt_result
              (Z.to_nat max_retries) Hall 0 []) as (evs & Hrun & Hreq & Hsl & Hcl);
    [lia|lia|].
  rewrite Hrun. cbn [fst snd app].
  split; [reflexivity|]. split; [|split; [exact Hsl | lia]].
  rewrite Hreq. unfold attempts. apply map_ext. intros i. lia.
Qed.

Lemma make_request_unauthorized_witness :
  fst (KeycloakAdmin._make_request_with_retry 3 false unauthorized) =
    KeycloakAdmin.BusinessException KeycloakAdmin.AUTH_TOKEN_EXPIRED /\
  kc_requests (snd (KeycloakAdmin._make_request_with_retry 3 false unauthorized)) =
    [0; 1; 2] /\
  KeycloakAdmin.kc_sleeps
    (snd (KeycloakAdmin._make_request_with_retry 3 false unauthorized)) = [] /\
  Z.of_nat (kc_clears (snd (KeycloakAdmin._make_request_with_retry 3 false unauthorized)))
    = 3 - 1.
Proof.
  apply (make_request_unauthorized 3 false unauthorized); [lia|].
  intros a. exists 401. split; [reflexivity | now left].
Defined.

Section RetryTransient.

Variable max_retries : Z.
Variable url_has_user : bool.
Variable attempt_result : Z -> KeycloakAdmin.attempt_outcome.

Local Abbreviation loop :=
  (KeycloakAdmin.retry_loop max_retries url_has_user attempt_result).

(** The loop goes through [k] transient failures when attempts are left
    after them. *)
Lemma retry_loop_skip (k : nat) :
  forall (todo : nat) (attempt : Z) (tr : list KeycloakAdmin.kc_event),
  (forall i : nat, (i < k)%nat -> transient (attempt_result (attempt + Z.of_nat i)) = true) ->
  attempt + Z.of_nat k < max_retries ->
  (k <= todo)%nat ->
  exists evs,
    loop todo attempt tr = loop (todo - k) (attempt + Z.of_nat k) (tr ++ evs) /\
    kc_requests evs = map (fun i => attempt + Z.of_nat i) (seq 0 k) /\
    KeycloakAdmin.kc_sleeps evs = [].
Proof.
  induction k as [|k IH]; intros todo attempt tr Htrans Hleft Htodo.
  - exists []. rewrite app_nil_r, Nat.sub_0_r, Z.add_0_r. auto.
  - destruct todo as [|todo]; [lia|].
    assert (Hnext : forall evs,
      kc_requests evs = [] ->
      KeycloakAdmin.kc_sleeps evs = [] ->
      exists evs',
        loop todo (attempt + 1) ((tr ++ [KeycloakAdmin.Request attempt]) ++ evs) =
          loop (S todo - S k) (attempt + Z.of_nat (S k)) (tr ++ evs') /\
        kc_requests evs' = map (fun i => attempt + Z.of_nat i) (seq 0 (S k)) /\
        KeycloakAdmin.kc_sleeps evs' = []).
    { intros evs Hevs Hsl.
      destruct (IH todo (attempt + 1) ((tr ++ [KeycloakAdmin.Request attempt]) ++ evs))
        as (evs1 & Hrun & Hreq & Hsl1).
      - intros i Hi. replace (attempt + 1 + Z.of_nat i) with (attempt + Z.of_nat (S i)) by lia.
        apply Htrans. lia.
      - lia.
      - lia.
      - exists (([KeycloakAdmin.Request attempt] ++ evs) ++ evs1).
        rewrite Hrun. split.
        + rewrite !app_assoc. f_equal. lia.
        + rewrite !kc_requests_app, !kc_sleeps_app, Hevs, Hreq, Hsl, Hsl1, app_nil_r.
          change (kc_requests [KeycloakAdmin.Request attempt]) with [attempt]. cbn [app].
          now rewrite attempts_from. }
    pose proof (Htrans O ltac:(lia)) as H0. rewrite Z.add_0_r in H0.
    cbn [KeycloakAdmin.retry_loop].
    destruct (Z.ltb_spec attempt (max_retries - 1)) as [Hlt|Hge]; [|lia].
    destruct (attempt_result attempt) as [status|status| | |e]; cbn [transient] in H0;
      try discriminate.
    rewrite H0. rewrite <- !app_assoc. rewrite app_assoc. now apply Hnext.
Qed.

End RetryTransient.

(** X19.  After any number of attempts answered with 401 or 403, the first
    response that passes [raise_for_status] is returned, as long as its
    attempt is within [max_retries]. *)
Theorem make_request_succeeds_after_transient
  (max_retries : Z) (url_has_user : bool)
  (attempt_result : Z -> KeycloakAdmin.attempt_outcome) (k : nat) (status : Z) :
  (forall i : nat, (i < k)%nat -> transient (attempt_result (Z.of_nat i)) = true) ->
  attempt_result (Z.of_nat k) = KeycloakAdmin.Response status ->
  Z.of_nat k < max_retries ->
  let run := KeycloakAdmin._make_request_with_retry max_retries url_has_user
               attempt_result in
  fst run = KeycloakAdmin.Returned status /\
  kc_requests (snd run) = attempts (S k).
Proof.
  intros Htrans Hok Hk run. subst run. unfold KeycloakAdmin._make_request_with_retry.
  destruct (retry_loop_skip max_retries url_has_user attempt_result k
              (Z.to_nat max_retries) 0 []) as (evs & Hrun & Hreq & Hsl); [auto|lia|lia|].
  rewrite Hrun. cbn [app]. rewrite Z.add_0_l.
  destruct (Z.to_nat max_retries - k)%nat as [|todo] eqn:Htodo; [lia|].
  cbn [KeycloakAdmin.retry_loop]. rewrite Hok. cbn [fst snd].
  split; [reflexivity|].
  rewrite kc_requests_app, Hreq. unfold attempts.
  rewrite seq_S, map_app. cbn. reflexivity.
Qed.

Lemma make_request_succeeds_after_transient_witness :
  fst (KeycloakAdmin._make_request_with_retry 3 false recovering) =
    KeycloakAdmin.Returned 200 /\
  kc_requests (snd (KeycloakAdmin._make_request_with_retry 3 false recovering)) =
    [0; 1; 2].
Proof.
  apply (make_request_succeeds_after_transient 3 false recovering 2 200).
  - intros [|[|i]] Hi; [reflexivity | reflexivity | lia].
  - reflexivity.
  - lia.
Defined.

(** X20.  A response error other than 401 and 403 is final, also after
    attempts answered with 401 or 403 and with attempts left: no further
    request is made, and the status decides the error: 404 is
    [USER_NOT_FOUND] for a URL that mentions a user and [UNEXPECTED_ERROR]
    otherwise, 500 and above is [AUTH_SERVER_UNAVAILABLE], anything else
    [UNEXPECTED_ERROR]. *)
Theorem make_request_response_error_is_final
  (max_retries : Z) (url_has_user : bool)
  (attempt_result : Z -> KeycloakAdmin.attempt_outcome) (k : nat) (status : Z) :
  (forall i : nat, (i < k)%nat -> transient (attempt_result (Z.of_nat i)) = true) ->
  attempt_result (Z.of_nat k) = KeycloakAdmin.ClientResponseError status ->
  status <> 401 ->
  status <> 403 ->
  Z.of_nat k < max_retries ->
  let run := KeycloakAdmin._make_request_with_retry max_retries url_has_user
               attempt_result in
  fst run =
    KeycloakAdmin.BusinessException
      (if status =? 404 then
         if url_has_user then KeycloakAdmin.USER_NOT_FOUND
         else KeycloakAdmin.UNEXPECTED_ERROR
       else if 500 <=? status then KeycloakAdmin.AUTH_SERVER_UNAVAILABLE
       else KeycloakAdmin.UNEXPECTED_ERROR) /\
  kc_requests (snd run) = attempts (S k).
Proof.
  intros Htrans Herr H401 H403 Hk run. subst run.
  unfold KeycloakAdmin._make_request_with_retry.
  destruct (retry_loop_skip max_retries url_has_user attempt_result k
              (Z.to_nat max_retries) 0 []) as (evs & Hrun & Hreq & Hsl); [auto|lia|lia|].
  rewrite Hrun. cbn [app]. rewrite Z.add_0_l.
  destruct (Z.to_nat max_retries - k)%nat as [|todo] eqn:Htodo; [lia|].
  cbn [KeycloakAdmin.retry_loop]. rewrite Herr.
  assert (Hs : (status =? 401) || (status =? 403) = false).
  { destruct (Z.eqb_spec status 401), (Z.eqb_spec status 403); cbn; congruence. }
  rewrite Hs.
  assert (Hreqs : forall evs',
            kc_requests evs' = [] ->
            kc_requests (((evs ++ [KeycloakAdmin.Request (Z.of_nat k)]) ++
                          [KeycloakAdmin.KLog ERROR]) ++ evs') = attempts (S k)).
  { intros evs' Hevs'. rewrite !kc_requests_app, Hreq, Hevs'. unfold attempts.
    rewrite seq_S, map_app. cbn. now rewrite !app_nil_r. }
  destruct (status =? 404); [destruct url_has_user|destruct (500 <=? status)];
    cbn [fst snd]; (split; [reflexivity|]); now apply Hreqs.
Qed.

Lemma make_request_response_error_is_final_witness :
  fst (KeycloakAdmin._make_request_with_retry 3 true not_found) =
    KeycloakAdmin.BusinessException KeycloakAdmin.USER_NOT_FOUND /\
  kc_requests (snd (KeycloakAdmin._make_request_with_retry 3 true not_found)) = [0; 1].
Proof.
  apply (make_request_response_error_is_final 3 true not_found 1 404).
  - intros [|i] Hi; [reflexivity | lia].
  - reflexivity.
  - lia.
  - lia.
  - lia.
Defined.

(** X17.  An attempt that ends with an exception other than a response error
    (a connection failure, another client error, the cancellation of the
    task) ends the call with [TypeError], also with attempts left: the
    clause written for connection failures cannot be entered. No request
    follows, and the call never sleeps. *)
Theorem make_request_other_failure_is_TypeError
  (max_retries : Z) (url_has_user : bool)
  (attempt_result : Z -> KeycloakAdmin.attempt_outcome) (k : nat) :
  (forall i : nat, (i < k)%nat -> transient (attempt_result (Z.of_nat i)) = true) ->
  breaks_off (attempt_result (Z.of_nat k)) = true ->
  Z.of_nat k < max_retries ->
  let run := KeycloakAdmin._make_request_with_retry max_retries url_has_user
               attempt_result in
  fst run = KeycloakAdmin.Propagated TypeError /\
  kc_requests (snd run) = attempts (S k) /\
  KeycloakAdmin.kc_sleeps (snd run) = [].
Proof.
  intros Htrans Hbreak Hk run. subst run. unfold KeycloakAdmin._make_request_with_retry.
  destruct (retry_loop_skip max_retries url_has_user attempt_result k
              (Z.to_nat max_retries) 0 []) as (evs & Hrun & Hreq & Hsl); [auto|lia|lia|].
  rewrite Hrun. cbn [app]. rewrite Z.add_0_l.
  destruct (Z.to_nat max_retries - k)%nat as [|todo] eqn:Htodo; [lia|].
  cbn [KeycloakAdmin.retry_loop].
  assert (Hend : kc_requests (evs ++ [KeycloakAdmin.Request (Z.of_nat k)]) = attempts (S k) /\
                 KeycloakAdmin.kc_sleeps (evs ++ [KeycloakAdmin.Request (Z.of_nat k)]) = []).
  { rewrite kc_requests_app, kc_sleeps_app, Hreq, Hsl. unfold attempts.
    rewrite seq_S, map_app. cbn. auto. }
  destruct (attempt_result (Z.of_nat k)); try discriminate Hbreak;
    unfold KeycloakAdmin.invalid_except_clause; cbn [fst snd]; tauto.
Qed.

Lemma make_request_other_failure_is_TypeError_witness :
  fst (KeycloakAdmin._make_request_with_retry 3 false dropped) =
    KeycloakAdmin.Propagated TypeError /\
  kc_requests (snd (KeycloakAdmin._make_request_with_retry 3 false dropped)) = [0; 1] /\
  KeycloakAdmin.kc_sleeps (snd (KeycloakAdmin._make_request_with_retry 3 false dropped)) = [].
Proof.
  apply (make_request_other_failure_is_TypeError 3 false dropped 1).
  - intros [|i] Hi; [reflexivity | lia].
  - reflexivity.
  - lia.
Defined.

(** ** The admin operations: [auth/KeycloakConfig.py], [auth/KeycloakAdmin.py] *)

Lemma dict_get_set (d : list (str * Admin.json)) (key : str) (value : Admin.json) :
  Admin.dict_get (Admin.dict_set d key value) key = Some value.
Proof.
  induction d as [|[k v] d IH]; cbn [Admin.dict_set Admin.dict_get].
  - by rewrite decide_True.
  - destruct (decide (k = key)) as [->|Hne]; cbn [Admin.dict_get].
    + by rewrite decide_True.
    + by rewrite decide_False.
Qed.

Lemma dict_get_set_other (d : list (str * Admin.json)) (key key' : str) (value : Admin.json) :
  key' <> key ->
  Admin.dict_get (Admin.dict_set d key value) key' = Admin.dict_get d key'.
Proof.
  intros Hne.
  induction d as [|[k v] d IH]; cbn [Admin.dict_set Admin.dict_get].
  - by rewrite decide_False.
  - destruct (decide (k = key)) as [->|Hk]; cbn [Admin.dict_get].
    + rewrite !decide_False by done. done.
    + destruct (decide (k = key')); [done | exact IH].
Qed.

Lemma requests_app (l k : list Admin.admin_event) :
  Admin.requests (l ++ k) = Admin.requests l ++ Admin.requests k.
Proof. unfold Admin.requests. apply omap_app. Qed.

Local Ltac run_op :=
  unfold Admin.add_user_uuidv7_attribute, Admin.update_user_info,
    Admin.assign_role_to_user, Admin.revoke_role_from_user,
    Admin.delete_user_from_keycloak, Admin.add_role,
    Admin.guarded, Admin.andthen, Admin.logged, Admin.request, Admin.expect,
    Admin.get, Admin.setitem, Admin.pure, Admin.throw.

(** X21.  The URL of a user identifies the user: two user ids give the same
    [user_url] only when they are equal. *)
Theorem user_url_identifies_user (config : KeycloakConfig.t) (u1 u2 : str) :
  KeycloakConfig.user_url config u1 = KeycloakConfig.user_url config u2 <-> u1 = u2.
Proof.
  split; [|by intros ->].
  unfold KeycloakConfig.user_url. intros H.
  by repeat apply (inj (app _)) in H.
Qed.

(** X22.  [add_user_uuidv7_attribute] reads the user, then writes back the
    whole representation it read: every field other than [attributes] and
    every attribute other than [our_uuidv7] is sent unchanged, and
    [our_uuidv7] is the one-element list of the new value. *)
Theorem add_uuid_writes_back_user
  (server : Admin.Server) (config : KeycloakConfig.t) (user_id uuidv7 : str)
  (tr : list Admin.admin_event) (st : Z) (d a : list (str * Admin.json))
  (Hget : Admin.respond server (tr ++ [Admin.Logged INFO]) Admin.GET
            (KeycloakConfig.user_url config user_id) None
          = Admin.Returns (Admin.Response st (Admin.JDict d)))
  (Hattrs : attributes_of d = Admin.JDict a) :
  exists body attrs,
    Admin.requests
      (snd (Admin.add_user_uuidv7_attribute server config user_id uuidv7 tr)) =
    Admin.requests tr ++
      [(Admin.GET, KeycloakConfig.user_url config user_id, None);
       (Admin.PUT, KeycloakConfig.user_url config user_id, Some (Admin.JDict body))] /\
    Admin.dict_get body (py "attributes") = Some (Admin.JDict attrs) /\
    Admin.dict_get attrs (py "our_uuidv7") = Some (Admin.JList [Admin.JStr uuidv7]) /\
    (forall key, key <> py "attributes" -> Admin.dict_get body key = Admin.dict_get d key) /\
    (forall key, key <> py "our_uuidv7" -> Admin.dict_get attrs key = Admin.dict_get a key).
Proof.
  exists (Admin.dict_set d (py "attributes")
            (Admin.JDict (Admin.dict_set a (py "our_uuidv7")
                            (Admin.JList [Admin.JStr uuidv7])))),
         (Admin.dict_set a (py "our_uuidv7") (Admin.JList [Admin.JStr uuidv7])).
  split; [|split; [apply dict_get_set | split; [apply dict_get_set | split]]].
  - run_op. rewrite Hget. cbn [Admin.data].
    unfold attributes_of in Hattrs. rewrite Hattrs.
    match goal with |- context [Admin.respond server ?h Admin.PUT ?u ?b] =>
      destruct (Admin.respond server h Admin.PUT u b) as [r|[c i|e]] end;
      cbn [fst snd].
    + case_bool_decide; run_op; cbn [fst snd]; rewrite !requests_app, <- !app_assoc;
        cbn; rewrite ?app_nil_r; reflexivity.
    + rewrite !requests_app, <- !app_assoc; reflexivity.
    + destruct (is_Exception e); cbn [fst snd]; rewrite !requests_app, <- !app_assoc;
        cbn; rewrite ?app_nil_r; reflexivity.
  - intros key Hne. by apply dict_get_set_other.
  - intros key Hne. by apply dict_get_set_other.
Qed.

Lemma add_uuid_writes_back_user_witness :
  exists body attrs,
    Admin.requests
      (snd (Admin.add_user_uuidv7_attribute one_user (KeycloakConfig.init ∅)
              (py "u1") (py "0190") [])) =
    [(Admin.GET, KeycloakConfig.user_url (KeycloakConfig.init ∅) (py "u1"), None);
     (Admin.PUT, KeycloakConfig.user_url (KeycloakConfig.init ∅) (py "u1"),
      Some (Admin.JDict body))] /\
    Admin.dict_get body (py "attributes") = Some (Admin.JDict attrs) /\
    Admin.dict_get attrs (py "our_uuidv7") = Some (Admin.JList [Admin.JStr (py "0190")]) /\
    Admin.dict_get body (py "email") = Some (Admin.JStr (py "a@b.c")) /\
    Admin.dict_get attrs (py "locale") = Some (Admin.JList [Admin.JStr (py "en")]).
Proof.
  destruct (add_uuid_writes_back_user one_user (KeycloakConfig.init ∅)
              (py "u1") (py "0190") [] 200
              [(py "email", Admin.JStr (py "a@b.c"));
               (py "attributes",
                Admin.JDict [(py "locale", Admin.JList [Admin.JStr (py "en")])])]
              [(py "locale", Admin.JList [Admin.JStr (py "en")])]
              eq_refl eq_refl)
    as (body & attrs & Hreq & Hb & Ha & Hbody & Hattrs).
  exists body, attrs.
  split; [exact Hreq|]. split; [exact Hb|]. split; [exact Ha|]. split.
  - rewrite Hbody by (vm_compute; discriminate). reflexivity.
  - rewrite Hattrs by (vm_compute; discriminate). reflexivity.
Defined.

(** X23.  When the user's representation is not a JSON object (for instance
    a response that carries no JSON), [add_user_uuidv7_attribute] and
    [update_user_info] make no second request and raise
    [BusinessException(UNEXPECTED_ERROR)] with a fresh [error_id]. *)
Theorem user_not_an_object_is_unexpected_error
  (server : Admin.Server) (config : KeycloakConfig.t) (user_id : str)
  (tr : list Admin.admin_event) (st : Z) (user : Admin.json)
  (Hget : Admin.respond server (tr ++ [Admin.Logged INFO]) Admin.GET
            (KeycloakConfig.user_url config user_id) None
          = Admin.Returns (Admin.Response st user))
  (Huser : is_dict user = false) :
  let h := tr ++ [Admin.Logged INFO;
                  Admin.Requested Admin.GET (KeycloakConfig.user_url config user_id) None] in
  let unexpected :=
    (Admin.Raises (Admin.BusinessException Admin.UNEXPECTED_ERROR
                     (Some (Admin.uuid1 server h))),
     h ++ [Admin.Uuid1; Admin.Logged EXCEPTION]) in
  (forall uuidv7,
     Admin.add_user_uuidv7_attribute server config user_id uuidv7 tr = unexpected) /\
  (forall first_name last_name email phone_number,
     Admin.update_user_info server config user_id first_name last_name email phone_number tr
     = unexpected).
Proof.
  intros h unexpected. subst h unexpected.
  split; intros; run_op; rewrite Hget; cbn [Admin.data];
    destruct user; try discriminate Huser; cbn;
    rewrite <- !app_assoc; reflexivity.
Qed.

Lemma user_not_an_object_is_unexpected_error_witness :
  fst (Admin.add_user_uuidv7_attribute no_json (KeycloakConfig.init ∅)
         (py "u1") (py "0190") []) =
  Admin.Raises (Admin.BusinessException Admin.UNEXPECTED_ERROR
                  (Some (py "6fa459ea-ee8a-11ee-a506-0242ac120002"))).
Proof.
  rewrite (proj1 (user_not_an_object_is_unexpected_error no_json (KeycloakConfig.init ∅)
                    (py "u1") [] 200 Admin.JNull eq_refl eq_refl) (py "0190")).
  reflexivity.
Defined.

Lemma dict_set_fresh (d : list (str * Admin.json)) (key : str) (value : Admin.json) :
  Admin.dict_get d key = None -> Admin.dict_set d key value = d ++ [(key, value)].
Proof.
  induction d as [|[k v] d IH]; cbn [Admin.dict_set Admin.dict_get app]; [done|].
  destruct (decide (k = key)); [discriminate|].
  intros H. by rewrite IH.
Qed.

Lemma set_if_given_fields (first_name last_name email : option str) :
  Admin.set_if_given
    (Admin.set_if_given (Admin.set_if_given [] (py "firstName") first_name)
       (py "lastName") last_name)
    (py "email") email =
  given (py "firstName") first_name ++ given (py "lastName") last_name ++
  given (py "email") email.
Proof. destruct first_name, last_name, email; vm_compute; reflexivity. Qed.

Lemma given_fields_no_attributes (first_name last_name email : option str) :
  Admin.dict_get
    (given (py "firstName") first_name ++ given (py "lastName") last_name ++
     given (py "email") email) (py "attributes") = None.
Proof. destruct first_name, last_name, email; vm_compute; reflexivity. Qed.

Local Ltac after_put server :=
  try (match goal with |- context [Admin.respond server ?h Admin.PUT ?u ?b] =>
         destruct (Admin.respond server h Admin.PUT u b) as [?r|[?c ?i|?e]] end);
  cbn [fst snd]; try case_bool_decide; run_op; cbn [fst snd];
  try (match goal with |- context [is_Exception ?e] => destruct (is_Exception e) end);
  cbn [fst snd].

(** X24.  [update_user_info] sends only what it was given: the body of the
    update lists the given names and email and the user's attributes (with
    the new phone number), and no other field of the user it read; with
    nothing to send it makes no update request and returns [True]. *)
Theorem update_sends_only_given_fields
  (server : Admin.Server) (config : KeycloakConfig.t) (user_id : str)
  (first_name last_name email phone_number : option str)
  (tr : list Admin.admin_event) (st : Z) (d : list (str * Admin.json))
  (Hget : Admin.respond server (tr ++ [Admin.Logged INFO]) Admin.GET
            (KeycloakConfig.user_url config user_id) None
          = Admin.Returns (Admin.Response st (Admin.JDict d)))
  (Hattrs : phone_number = None \/ is_dict (attributes_of d) = true) :
  let payload :=
    given (py "firstName") first_name ++ given (py "lastName") last_name ++
    given (py "email") email ++ attributes_field (attributes_of d) phone_number in
  let run :=
    Admin.update_user_info server config user_id first_name last_name email phone_number tr in
  Admin.requests (snd run) =
    Admin.requests tr ++
      (Admin.GET, KeycloakConfig.user_url config user_id, None) ::
      match payload with
      | [] => []
      | _ => [(Admin.PUT, KeycloakConfig.user_url config user_id,
               Some (Admin.JDict payload))]
      end /\
  (payload = [] -> fst run = Admin.Returns true).
Proof.
  intros payload run. subst payload run.
  rewrite !app_assoc.
  rewrite <- (app_assoc (given (py "firstName") first_name)).
  unfold Admin.update_user_info.
  rewrite set_if_given_fields.
  pose proof (given_fields_no_attributes first_name last_name email) as Hp.
  set (p := given (py "firstName") first_name ++ given (py "lastName") last_name ++
            given (py "email") email) in *.
  clearbody p.
  run_op. rewrite Hget. cbn [Admin.data].
  fold (attributes_of d).
  destruct phone_number as [phone|].
  - destruct Hattrs as [?|Hd]; [discriminate|].
    destruct (attributes_of d) as [| | | | |a]; try discriminate Hd.
    cbn [attributes_field]. rewrite (dict_set_fresh _ _ _ Hp).
    destruct p as [|kv p]; cbn [app]; after_put server;
      (split; [rewrite ?requests_app, <- ?app_assoc; cbn; rewrite ?app_nil_r; reflexivity
              | discriminate]).
  - cbn [attributes_field].
    destruct (Admin.truthy (attributes_of d)).
    + rewrite (dict_set_fresh _ _ _ Hp).
      destruct p as [|kv p]; cbn [app]; after_put server;
        (split; [rewrite ?requests_app, <- ?app_assoc; cbn; rewrite ?app_nil_r; reflexivity
                | discriminate]).
    + rewrite app_nil_r.
      destruct p as [|kv p]; after_put server;
        (split; [rewrite ?requests_app, <- ?app_assoc; cbn; rewrite ?app_nil_r; reflexivity
                | (discriminate || reflexivity)]).
Qed.

Lemma update_sends_only_given_fields_witness :
  Admin.requests
    (snd (Admin.update_user_info one_user (KeycloakConfig.init ∅) (py "u1")
            (Some (py "Ada")) None None (Some (py "555")) [])) =
  [(Admin.GET, KeycloakConfig.user_url (KeycloakConfig.init ∅) (py "u1"), None);
   (Admin.PUT, KeycloakConfig.user_url (KeycloakConfig.init ∅) (py "u1"),
    Some (Admin.JDict
            [(py "firstName", Admin.JStr (py "Ada"));
             (py "attributes",
              Admin.JDict [(py "locale", Admin.JList [Admin.JStr (py "en")]);
                           (py "phone_number", Admin.JList [Admin.JStr (py "555")])])]))].
Proof.
  exact (proj1 (update_sends_only_given_fields one_user (KeycloakConfig.init ∅) (py "u1")
                  (Some (py "Ada")) None None (Some (py "555")) [] 200
                  [(py "email", Admin.JStr (py "a@b.c"));
                   (py "attributes",
                    Admin.JDict [(py "locale", Admin.JList [Admin.JStr (py "en")])])]
                  eq_refl (or_intror eq_refl))).
Defined.

(** X25.  [assign_role_to_user] posts the role exactly as the lookup
    returned it, without inspecting it: after the lookup answers, the run
    makes the two requests GET role, POST mapping with the one-element list
    of the lookup's data, on the realm URLs without a client and on the
    client's URLs with one. *)
Theorem assign_role_posts_fetched_role
  (server : Admin.Server) (config : KeycloakConfig.t) (user_id role_name : str)
  (client : option str) (tr : list Admin.admin_event) (st : Z) (role : Admin.json)
  (role_url := match client with
               | None => KeycloakConfig.realm_role_url config role_name
               | Some c => KeycloakConfig.client_role_detail_url config (Some c) role_name
               end)
  (Hget : Admin.respond server (tr ++ [Admin.Logged INFO]) Admin.GET role_url None
          = Admin.Returns (Admin.Response st role)) :
  Admin.requests (snd (Admin.assign_role_to_user server config user_id role_name client tr)) =
  Admin.requests tr ++
    [(Admin.GET, role_url, None);
     (Admin.POST,
      match client with
      | None => KeycloakConfig.user_url config user_id ++ py "/role-mappings/realm"
      | Some c => KeycloakConfig.user_url config user_id ++ py "/role-mappings/clients/" ++ c
      end,
      Some (Admin.JList [role]))].
Proof.
  subst role_url.
  assert (Hrealm : KeycloakConfig.realm_role_mapping_url config user_id =
                   KeycloakConfig.user_url config user_id ++ py "/role-mappings/realm").
  { unfold KeycloakConfig.realm_role_mapping_url, KeycloakConfig.user_url.
    by rewrite <- !app_assoc. }
  assert (Hclient : forall c, KeycloakConfig.client_role_mapping_url config user_id (Some c) =
                   KeycloakConfig.user_url config user_id ++ py "/role-mappings/clients/" ++ c).
  { intros c. unfold KeycloakConfig.client_role_mapping_url, KeycloakConfig.user_url.
    by rewrite <- !app_assoc. }
  unfold Admin.assign_role_to_user.
  destruct client as [c|]; cbn [fst snd]; [rewrite Hclient | rewrite Hrealm];
    run_op; rewrite Hget; cbn [Admin.data];
    match goal with |- context [Admin.respond server ?h Admin.POST ?u ?b] =>
      destruct (Admin.respond server h Admin.POST u b) as [r|[co i|e]] end;
    cbn [fst snd]; try case_bool_decide; run_op; cbn [fst snd];
    try (destruct (is_Exception e)); cbn [fst snd];
    rewrite ?requests_app, <- ?app_assoc; cbn; rewrite ?app_nil_r; reflexivity.
Qed.

Lemma assign_role_posts_fetched_role_witness :
  Admin.requests
    (snd (Admin.assign_role_to_user no_json (KeycloakConfig.init ∅)
            (py "u1") (py "admin") None [])) =
  [(Admin.GET, KeycloakConfig.realm_role_url (KeycloakConfig.init ∅) (py "admin"), None);
   (Admin.POST,
    KeycloakConfig.user_url (KeycloakConfig.init ∅) (py "u1") ++ py "/role-mappings/realm",
    Some (Admin.JList [Admin.JNull]))].
Proof.
  exact (assign_role_posts_fetched_role no_json (KeycloakConfig.init ∅)
           (py "u1") (py "admin") None [] 200 Admin.JNull eq_refl).
Defined.

(** X26.  [revoke_role_from_user] without a client does not use the
    realm-level mapping URL: its one request is a DELETE on the client
    mapping URL formatted with [None], which differs from
    [realm_role_mapping_url] of the user. *)
Theorem revoke_role_without_client_uses_client_url
  (server : Admin.Server) (config : KeycloakConfig.t) (user_id : str) (role_id : Z)
  (tr : list Admin.admin_event) :
  Admin.requests (snd (Admin.revoke_role_from_user server config user_id role_id None tr)) =
    Admin.requests tr ++
      [(Admin.DELETE,
        KeycloakConfig.user_url config user_id ++ py "/role-mappings/clients/None",
        Some (Admin.JList [Admin.JInt role_id]))] /\
  KeycloakConfig.user_url config user_id ++ py "/role-mappings/clients/None" <>
    KeycloakConfig.realm_role_mapping_url config user_id.
Proof.
  split.
  - assert (Hurl : KeycloakConfig.client_role_mapping_url config user_id None =
                   KeycloakConfig.user_url config user_id ++ py "/role-mappings/clients/None").
    { unfold KeycloakConfig.client_role_mapping_url, KeycloakConfig.user_url.
      by rewrite <- !app_assoc. }
    unfold Admin.revoke_role_from_user. rewrite Hurl. run_op.
    match goal with |- context [Admin.respond server ?h Admin.DELETE ?u ?b] =>
      destruct (Admin.respond server h Admin.DELETE u b) as [r|[co i|e]] end;
    cbn [fst snd]; try case_bool_decide; run_op; cbn [fst snd];
    try (destruct (is_Exception e)); cbn [fst snd];
    rewrite ?requests_app, <- ?app_assoc; cbn; rewrite ?app_nil_r; reflexivity.
  - unfold KeycloakConfig.realm_role_mapping_url, KeycloakConfig.user_url.
    rewrite <- !app_assoc. intros H.
    repeat apply (inj (app _)) in H. vm_compute in H. discriminate H.
Qed.

Lemma andthen_returns_only_True {T} (c : Admin.op T) (k : T -> Admin.op bool) :
  (forall x, returns_only_True (k x)) -> returns_only_True (Admin.andthen c k).
Proof.
  intros Hk tr b tr'. unfold Admin.andthen.
  destruct (c tr) as [[x|x] tr1]; [apply Hk | discriminate].
Qed.

Lemma expect_returns_only_True (accepted : list Z) (code : Admin.ErrorCode)
  (resp : Admin.response) :
  returns_only_True (Admin.expect accepted code resp).
Proof.
  intros tr b tr'. unfold Admin.expect.
  case_bool_decide; cbn; [by intros [= <- _] | discriminate].
Qed.

Lemma pure_returns_only_True : returns_only_True (Admin.pure true).
Proof. intros tr b tr'. cbn. by intros [= <- _]. Qed.

Lemma guarded_True_or_raises (server : Admin.Server) (body : Admin.op bool) :
  returns_only_True body -> True_or_raises (Admin.guarded server body).
Proof.
  intros Hbody tr. unfold Admin.guarded.
  destruct (body tr) as [[b|[c i|e]] tr1] eqn:Hrun; cbn [fst].
  - by apply (Hbody tr b tr1).
  - exact I.
  - destruct (is_Exception e) eqn:He; cbn [fst]; [exact I | exact He].
Qed.

(** X27.  None of the six admin operations ever returns [False] or lets an
    [Exception] other than [BusinessException] escape: each returns [True],
    raises a [BusinessException], or is interrupted by an exception that is
    not an [Exception]. *)
Theorem operations_return_True_or_raise
  (server : Admin.Server) (config : KeycloakConfig.t) :
  (forall user_id uuidv7,
     True_or_raises (Admin.add_user_uuidv7_attribute server config user_id uuidv7)) /\
  (forall user_id first_name last_name email phone_number,
     True_or_raises (Admin.update_user_info server config user_id
                       first_name last_name email phone_number)) /\
  (forall user_id role_name client,
     True_or_raises (Admin.assign_role_to_user server config user_id role_name client)) /\
  (forall user_id role_id client,
     True_or_raises (Admin.revoke_role_from_user server config user_id role_id client)) /\
  (forall user_id,
     True_or_raises (Admin.delete_user_from_keycloak server config user_id)) /\
  (forall role_name description client,
     True_or_raises (Admin.add_role server config role_name description client)).
Proof.
  repeat split; intros; apply guarded_True_or_raises;
    repeat (apply andthen_returns_only_True; intros);
    try apply expect_returns_only_True.
  destruct x2 as [|kv p].
  - apply andthen_returns_only_True; intros. apply pure_returns_only_True.
  - apply andthen_returns_only_True; intros. apply expect_returns_only_True.
Qed.

(** X28.  Which statuses of a returned response count as success. The
    request helper returns a response only when [raise_for_status] let it
    through, that is with a status below 400. Of these, 200 and 204 are
    accepted when a role is assigned or revoked and when a user is deleted,
    and 201 and 204 (not 200) when a role is added. Any other one raises a
    [BusinessException] without [error_id], with the code
    [ROLE_REVOCATION_FAILED] for a revocation and [UNEXPECTED_ERROR]
    otherwise. *)
Theorem accepted_statuses
  (server : Admin.Server) (config : KeycloakConfig.t) (s : Z)
  (Hpassed : s < 400)
  (Hstatus : forall h method url body,
     exists json, Admin.respond server h method url body
                  = Admin.Returns (Admin.Response s json))
  (tr : list Admin.admin_event) :
  (forall user_id role_name client,
     fst (Admin.assign_role_to_user server config user_id role_name client tr)
     = checked [200; 204] Admin.UNEXPECTED_ERROR s) /\
  (forall user_id role_id client,
     fst (Admin.revoke_role_from_user server config user_id role_id client tr)
     = checked [200; 204] Admin.ROLE_REVOCATION_FAILED s) /\
  (forall user_id,
     fst (Admin.delete_user_from_keycloak server config user_id tr)
     = checked [200; 204] Admin.UNEXPECTED_ERROR s) /\
  (forall role_name description client,
     fst (Admin.add_role server config role_name description client tr)
     = checked [201; 204] Admin.UNEXPECTED_ERROR s).
Proof.
  unfold checked.
  repeat split; intros; run_op;
    repeat (match goal with |- context [Admin.respond server ?h ?m ?u ?b] =>
              destruct (Hstatus h m u b) as [? ->] end; cbn [Admin.data Admin.status]);
    case_bool_decide; reflexivity.
Qed.

Lemma accepted_statuses_witness :
  fst (Admin.delete_user_from_keycloak (answering 200) (KeycloakConfig.init ∅) (py "u1") [])
    = Admin.Returns true /\
  fst (Admin.add_role (answering 200) (KeycloakConfig.init ∅) (py "admin") [] None [])
    = Admin.Raises (Admin.BusinessException Admin.UNEXPECTED_ERROR None).
Proof.
  assert (Hpassed : 200 < 400) by lia.
  pose proof (accepted_statuses (answering 200) (KeycloakConfig.init ∅) 200 Hpassed
                (fun _ _ _ _ => ex_intro _ Admin.JNull eq_refl) [])
    as (_ & _ & Hdelete & Hadd).
  split.
  - rewrite Hdelete. reflexivity.
  - rewrite Hadd. reflexivity.
Defined.



